(** * retrovibez: the track-figure generator ([core/figure_generator.py])

    A shallow embedding of the figure generator and the properties of it
    that the specification states.

    Modelling conventions.
    - A Python [float] (and every element of a numpy float array) is a
      rational [Q]; arithmetic is exact.  [np.sqrt] is a library function
      and is a [Variable] of the section that needs it.
    - Python [int] is [Z]; [int(x)] on a float truncates towards zero.
    - A [dict] with string keys is a [gmap string _]; a [pathlib.Path] is
      the list of its components and the file tree is a [gmap] from paths
      to nodes.
    - Code that can raise lives in an error monad; code that also touches
      the file tree lives in a state-and-error monad over [world].  An
      exception keeps the effects that happened before it, as in Python.
    - A [str] is a sequence of ASCII characters.
    - Calls into matplotlib record what is drawn; [ax.plot] and
      [ax.fill_between] raise [ValueError] on sequences whose lengths do
      not fit, and [savefig] is the one call that touches the file tree.
    - The worker pool is a schedule: the order in which the submitted
      units complete, each unit running to its end before the next one
      is collected. *)

From Stdlib Require Import QArith Qround Qminmax Lqa ZArith Lia.
From Stdlib Require Import Ascii String.
From stdpp Require Import gmap strings list pretty sorting.

Local Open Scope Z_scope.
Local Set Warnings "-clear-no-such-hyp".

(** ** Python values and exceptions *)

Inductive exn_kind :=
| FileNotFoundError | FileExistsError | NotADirectoryError | IsADirectoryError
| KeyError | IndexError | ValueError | OSError.

Record exn := Exception { exn_type : exn_kind; exn_msg : string }.

(** [repr(s)] for a text [s]: the text between quotes, with the quote in
    use, the backslash and the control characters escaped.  Python uses
    the single quote unless the text holds a single quote and no double
    quote. *)
Definition double_quote : Ascii.ascii := Ascii.ascii_of_nat 34.

Definition hex_digit (n : nat) : Ascii.ascii :=
  Ascii.ascii_of_nat (if (n <? 10)%nat then 48 + n else 87 + n).

Definition repr_char (quote c : Ascii.ascii) : string :=
  let n := Ascii.nat_of_ascii c in
  if Ascii.eqb c quote || Ascii.eqb c "\"%char
  then String "\"%char (String c EmptyString)
  else if (n =? 9)%nat then "\t"
  else if (n =? 10)%nat then "\n"
  else if (n =? 13)%nat then "\r"
  else if (n <? 32)%nat || (n =? 127)%nat then
    String "\"%char
      (String "x"%char
         (String (hex_digit (n / 16))
            (String (hex_digit (n mod 16)) EmptyString)))
  else String c EmptyString.

Fixpoint repr_body (quote : Ascii.ascii) (s : string) : string :=
  match s with
  | EmptyString => EmptyString
  | String c s' => (repr_char quote c ++ repr_body quote s')%string
  end.

Fixpoint contains_char (c : Ascii.ascii) (s : string) : bool :=
  match s with
  | EmptyString => false
  | String c' s' => Ascii.eqb c c' || contains_char c s'
  end.

Definition py_repr (s : string) : string :=
  let quote :=
    if contains_char "'"%char s && negb (contains_char double_quote s)
    then double_quote else "'"%char in
  String quote (repr_body quote s ++ String quote EmptyString)%string.

(** [str(e)]: the message of the exception; for a [KeyError] it is the
    [repr] of the message. *)
Definition str (e : exn) : string :=
  match exn_type e with
  | KeyError => py_repr (exn_msg e)
  | _ => exn_msg e
  end.

(** Pure code that may raise. *)
Definition result (A : Type) : Type := exn + A.

Definition ok {A} (a : A) : result A := inr a.
Definition raise {A} (k : exn_kind) (msg : string) : result A :=
  inl (Exception k msg).

Definition rbind {A B} (c : result A) (f : A -> result B) : result B :=
  match c with
  | inl e => inl e
  | inr a => f a
  end.

Declare Scope result_scope.
Delimit Scope result_scope with result.
Notation "'let?' x := c 'in' k" := (rbind c (fun x => k))
  (at level 10, x name, c at level 100, k at level 200) : result_scope.

(** A loop that builds a list, one fallible step per element. *)
Fixpoint rmap {A B} (f : A -> result B) (l : list A) : result (list B) :=
  match l with
  | [] => ok []
  | a :: l' =>
      match f a with
      | inl e => inl e
      | inr b =>
          match rmap f l' with
          | inl e => inl e
          | inr bs => ok (b :: bs)
          end
      end
  end.

(** [int(x)] for a float [x]: truncation towards zero. *)
Definition py_int (q : Q) : Z := Z.quot (Qnum q) (Zpos (Qden q)).

(** [x > 0] and friends on floats. *)
Definition Qlt_bool (a b : Q) : bool := negb (Qle_bool b a).

(** A slice bound [i] of a sequence of length [n], as Python clips it. *)
Definition slice_bound (n i : Z) : Z :=
  if i <? 0 then Z.max (i + n) 0 else Z.min i n.

(** [l[a:b]] *)
Definition py_slice {A} (l : list A) (a b : Z) : list A :=
  let n := Z.of_nat (length l) in
  let a' := slice_bound n a in
  let b' := slice_bound n b in
  take (Z.to_nat (b' - a')) (drop (Z.to_nat a') l).

(** [l[i]]: a negative index counts from the end; [None] stands for the
    [IndexError] the caller raises. *)
Definition py_index {A} (l : list A) (i : Z) : option A :=
  let n := Z.of_nat (length l) in
  if 0 <=? i then l !! Z.to_nat i
  else if - n <=? i then l !! Z.to_nat (i + n)
  else None.

(** Indexing a numpy array. *)
Definition np_index (a : list Q) (i : Z) : result Q :=
  match py_index a i with
  | Some v => ok v
  | None =>
      raise IndexError
        ("index " +:+ pretty i +:+ " is out of bounds for axis 0 with size "
         +:+ pretty (length a))
  end.

(** Indexing a Python list. *)
Definition list_index {A} (l : list A) (i : Z) : result A :=
  match py_index l i with
  | Some v => ok v
  | None => raise IndexError "list index out of range"
  end.

(** ** The track record

    The dictionary [load_track_data] returns.  A reversal is the bag of
    float attributes read from the data store. *)

Abbreviation reversal := (gmap string Q).

Record track_data := TrackData {
  track_num : Z;
  SpeedRunVel : list Q;
  times : list Q;
  xpos : list Q;
  ypos : list Q;
  eti : list Q;
  eset_name : string;
  lengthPerPixel : Q;
  reversals : list reversal;
}.

(** [int(rev.get('start_idx', 0))] *)
Definition rev_start_idx (rev : reversal) : Z :=
  match rev !! "start_idx"%string with
  | Some v => py_int v
  | None => 0
  end.

(** [int(rev.get('end_idx', n))] for a default [n = len(...)] *)
Definition rev_end_idx (rev : reversal) (n : nat) : Z :=
  match rev !! "end_idx"%string with
  | Some v => py_int v
  | None => Z.of_nat n
  end.

(** ** [format_time_mmss] *)

(** [f"{z:02d}"] *)
Definition fmt_02d (z : Z) : string :=
  let s := pretty z in
  if (String.length s <? 2)%nat then ("0" +:+ s)%string else s.

Definition format_time_mmss (seconds : Q) : string :=
  let minutes := Qfloor (seconds / 60) in
  let rest := (seconds - 60 * inject_Z minutes)%Q in
  fmt_02d minutes +:+ ":" +:+ fmt_02d (py_int rest).

(** ** [plot_dot_product]: the reversal table *)

Record table_entry := TableEntry {
  te_start : Q;
  te_end : Q;
  te_duration : Q;
  te_start_idx : Z;
  te_end_idx : Z;
}.

(** The body of the loop over [reversals] (lines 84-94): the entry the
    window adds to [reversal_table_data], if it adds one. *)
Definition table_entry_of (times : list Q) (rev : reversal)
  : option table_entry :=
  let start_idx := rev_start_idx rev in
  let end_idx := rev_end_idx rev (length times) in
  let n := Z.of_nat (length times) in
  if (0 <=? start_idx) && (start_idx <? n) && (0 <=? end_idx) && (end_idx <=? n)
  then
    let rev_times := py_slice times start_idx end_idx in
    if (0 <? length rev_times)%nat then
      match py_index rev_times 0, py_index rev_times (-1) with
      | Some first, Some last =>
          let duration := (last - first)%Q in
          if Qle_bool 3.0 duration
          then Some (TableEntry first last duration start_idx end_idx)
          else None
      | _, _ => None
      end
    else None
  else None.

Definition reversal_table_data (times : list Q) (revs : list reversal)
  : list table_entry :=
  omap (table_entry_of times) revs.

(** One [ax.plot] call: the two coordinate sequences, the style and the
    legend label. *)
Record plot_line := PlotLine {
  pl_x : list Q;
  pl_y : list Q;
  pl_style : string;
  pl_label : string;
}.

Record dot_product_fig := DotProductFig {
  dp_figsize : nat * nat;
  dp_lines : list plot_line;
  dp_title : string;
  dp_table : option (list (list string));
}.

(** The highlight loop (lines 109-115). *)
Definition highlight (times SpeedRunVel : list Q) (rev_idx : nat)
    (rev_data : table_entry) : option plot_line :=
  let rev_times := py_slice times (te_start_idx rev_data) (te_end_idx rev_data) in
  let rev_speed :=
    py_slice SpeedRunVel (te_start_idx rev_data) (te_end_idx rev_data) in
  let min_len := Nat.min (length rev_times) (length rev_speed) in
  if (0 <? min_len)%nat then
    Some (PlotLine (take min_len rev_times) (take min_len rev_speed) "r-"
            (if (rev_idx =? 0)%nat then "Reversals (>3s)" else EmptyString))
  else None.

Definition table_row (i : nat) (r : table_entry) : list string :=
  [ ("R" +:+ pretty (i + 1)%nat)%string;
    format_time_mmss (te_start r);
    format_time_mmss (te_end r);
    format_time_mmss (te_duration r) ].

Definition dot_product_figure (td : track_data) : dot_product_fig :=
  let data := reversal_table_data (times td) (reversals td) in
  let has_table := negb (bool_decide (data = [])) in
  let base :=
    ("Track " +:+ pretty (track_num td) +:+ " - Dot Product Over Time")%string in
  {| dp_figsize := if has_table then (10, 8)%nat else (10, 6)%nat;
     dp_lines :=
       PlotLine (times td) (SpeedRunVel td) "b-" "SpeedRun"
       :: omap (fun '(i, r) => highlight (times td) (SpeedRunVel td) i r)
            (imap (fun i r => (i, r)) data);
     dp_title :=
       if has_table then base else (base +:+ " (no reversals >3s)")%string;
     dp_table := if has_table then Some (imap table_row data) else None |}.

(** ** [plot_trajectory]: speeds, normalisation range and segment colours *)

(** The six stops of the black-to-white gradient, as RGB triples. *)
Definition create_speed_colormap : list (Q * Q * Q) :=
  [ (0.0, 0.0, 0.0); (0.3, 0.0, 0.0); (1.0, 0.0, 0.0);
    (1.0, 0.5, 0.0); (1.0, 1.0, 0.0); (1.0, 1.0, 1.0) ]%Q.

(** A line colour: [speed_cmap v] is the colour the gradient gives the
    normalised speed [v] (the interpolation is matplotlib's);
    [uv_color] is the fixed colour [(0.5, 0, 1)] of reversal segments. *)
Inductive color :=
| speed_cmap (speed_norm : Q)
| uv_color.

Record segment := Segment {
  seg_index : nat;
  seg_x : Q * Q;
  seg_y : Q * Q;
  seg_color : color;
}.

Record trajectory_fig := TrajectoryFig {
  tr_segments : list segment;
  tr_title : string;
}.

(** [speeds[speeds > 0].min() if np.any(speeds > 0) else 0] *)
Definition speed_min (speeds : list Q) : Q :=
  match List.filter (Qlt_bool 0) speeds with
  | [] => 0
  | s :: rest => foldl Qmin s rest
  end.

(** [speeds.max() if len(speeds) > 0 else 1] *)
Definition speed_max (speeds : list Q) : Q :=
  match speeds with
  | [] => 1
  | s :: rest => foldl Qmax s rest
  end.

(** [(speeds[i] - speed_min) / (speed_max - speed_min + 1e-10)] *)
Definition normalize (speeds : list Q) (s : Q) : Q :=
  ((s - speed_min speeds) / (speed_max speeds - speed_min speeds + 1e-10))%Q.

(** The inner loop over [reversals] (lines 171-174): does some window
    contain segment [i]?  The default of [end_idx] is [len(xpos)]. *)
Definition in_reversal (revs : list reversal) (n_xpos : nat) (i : Z) : bool :=
  existsb (fun rev => (rev_start_idx rev <=? i) && (i <? rev_end_idx rev n_xpos))
    revs.

Section Trajectory.

(** [np.sqrt]. *)
Variable np_sqrt : Q -> Q.

(** The body of the speed loop (lines 154-156). *)
Definition speed_step (xpos ypos eti : list Q) (i : nat) : result Q :=
  let i := Z.of_nat i in
  (let? x1 := np_index xpos (i + 1) in
   let? x0 := np_index xpos i in
   let? y1 := np_index ypos (i + 1) in
   let? y0 := np_index ypos i in
   let dx := (x1 - x0)%Q in
   let dy := (y1 - y0)%Q in
   let? dt :=
     (if i + 1 <? Z.of_nat (length eti) then
        let? t1 := np_index eti (i + 1) in
        let? t0 := np_index eti i in
        ok (t1 - t0)%Q
      else ok 1%Q) in
   ok (if Qlt_bool 0 dt then (np_sqrt (dx ^ 2 + dy ^ 2) / dt * 10)%Q else 0%Q)
  )%result.

(** The speed loop (lines 152-156). *)
Definition compute_speeds (xpos ypos eti : list Q) : result (list Q) :=
  rmap (speed_step xpos ypos eti) (seq 0 (length xpos - 1)).

(** The body of the plotting loop (lines 167-175): what is drawn for
    segment [i], if anything. *)
Definition draw_segment (td : track_data) (speeds : list Q) (i : nat)
  : result (option segment) :=
  match speeds !! i with
  | Some s =>
      if Qlt_bool 0 s then
        let speed_norm := normalize speeds s in
        let line_color :=
          if in_reversal (reversals td) (length (xpos td)) (Z.of_nat i)
          then uv_color else speed_cmap speed_norm in
        (let? x0 := np_index (xpos td) (Z.of_nat i) in
         let? x1 := np_index (xpos td) (Z.of_nat i + 1) in
         let? y0 := np_index (ypos td) (Z.of_nat i) in
         let? y1 := np_index (ypos td) (Z.of_nat i + 1) in
         ok (Some (Segment i (x0, x1) (y0, y1) line_color)))%result
      else ok None
  | None => ok None
  end.

Definition trajectory_figure (td : track_data) : result trajectory_fig :=
  (let? speeds := compute_speeds (xpos td) (ypos td) (eti td) in
   let? drawn := rmap (draw_segment td speeds) (seq 0 (length (xpos td) - 1)) in
   ok {| tr_segments := omap id drawn;
         tr_title := ("Track " +:+ pretty (track_num td) +:+ " - Trajectory")%string |}
  )%result.

End Trajectory.

(** ** [plot_reversal_closeup]: the figure *)

Record closeup_fig := CloseupFig {
  cu_view : plot_line;            (* the padded window of the signal *)
  cu_fill : list Q * list Q;      (* the shaded reversal span *)
  cu_title : string;
}.

Definition closeup_figure (td : track_data) (reversal_idx : Z) (rev : reversal)
  : closeup_fig :=
  let start_idx := rev_start_idx rev in
  let end_idx := rev_end_idx rev (length (times td)) in
  let padding := py_int (0.1 * inject_Z (end_idx - start_idx)) in
  let view_start := Z.max 0 (start_idx - padding) in
  let view_end := Z.min (Z.of_nat (length (times td))) (end_idx + padding) in
  {| cu_view :=
       PlotLine (py_slice (times td) view_start view_end)
         (py_slice (SpeedRunVel td) view_start view_end) "b-" EmptyString;
     cu_fill :=
       (py_slice (times td) start_idx end_idx,
        py_slice (SpeedRunVel td) start_idx end_idx);
     cu_title :=
       ("Track " +:+ pretty (track_num td) +:+ " - Reversal "
        +:+ pretty (reversal_idx + 1))%string |}.

Inductive figure :=
| DotProduct (f : dot_product_fig)
| Trajectory (f : trajectory_fig)
| Closeup (f : closeup_fig).

(** ** The data store: what an [.h5] file holds *)

Inductive h5_attr :=
| AttrScalar (v : Q)
| AttrArray (vs : list Q).

Inductive h5_text :=
| TextStr (s : string)
| TextBytes (s : string).   (* the text the bytes decode to *)

Record h5file := H5File {
  h5_datasets : gmap string (list Q);      (* each dataset, ravelled *)
  h5_eset_name : option h5_text;
  h5_lengthPerPixel : option Q;
  (* the group [reversals], in the order its keys are iterated *)
  h5_reversals : option (list (string * gmap string h5_attr));
}.

(** ** Outcomes and the run summary *)

Inductive status := success | not_found | error | exception.

#[global] Instance status_eq_dec : EqDecision status.
Proof. solve_decision. Defined.

(** The dictionary a unit returns; the key [reversals] is [o_reversals]. *)
Record outcome := Outcome {
  o_track_num : Z;
  o_status : status;
  o_error : option string;
  o_reversals : nat;
}.

(** What [json.dump] writes. *)
Record summary := Summary {
  s_tracks : list outcome;
  s_total_reversals : nat;
}.

(** ** The file tree and the world *)

Abbreviation path := (list string).

Inductive content :=
| H5 (f : h5file)
| Png (fig : figure)
| Json (s : summary)
| Other.

Inductive node :=
| Dir
| File (c : content).

Inductive event :=
| EvLoad (p : path)     (* [load_track_data] was called on [p] *)
| EvMkdir (p : path)    (* directory [p] was created *)
| EvWrite (p : path).   (* file [p] was written *)

#[global] Instance event_eq_dec : EqDecision event.
Proof. solve_decision. Defined.

Record world := World {
  fs : gmap path node;
  trace : list event;
}.

(** [Path(a) / b] *)
Definition child (p : path) (name : string) : path := p ++ [name].

(** [p.parent] *)
Definition parent (p : path) : path := removelast p.

(** [str(p)] *)
Definition path_str (p : path) : string := String.concat "/" p.

(** The node at [p]; the empty path is the working directory. *)
Definition lookup_node (w : world) (p : path) : option node :=
  match p with
  | [] => Some Dir
  | _ => fs w !! p
  end.

(** [p.exists()] *)
Definition path_exists (w : world) (p : path) : bool :=
  match lookup_node w p with
  | Some _ => true
  | None => false
  end.

(** [p.is_dir()] *)
Definition is_dir (w : world) (p : path) : bool :=
  match lookup_node w p with
  | Some Dir => true
  | _ => false
  end.

(** ** The state-and-error monad *)

Definition M (A : Type) : Type := world -> result A * world.

Definition mret {A} (a : A) : M A := fun w => (ok a, w).

Definition mbind {A B} (c : M A) (f : A -> M B) : M B :=
  fun w =>
    match c w with
    | (inl e, w') => (inl e, w')
    | (inr a, w') => f a w'
    end.

Definition lift {A} (r : result A) : M A := fun w => (r, w).

Definition mraise {A} (k : exn_kind) (msg : string) : M A :=
  lift (raise k msg).

Definition emit (ev : event) : M unit :=
  fun w => (ok tt, World (fs w) (trace w ++ [ev])).

Declare Scope M_scope.
Delimit Scope M_scope with M.
Notation "x <- c ; k" := (mbind c (fun x => k))
  (at level 20, c at level 100, k at level 200, only parsing) : M_scope.

(** A [for] loop run for its effects. *)
Fixpoint mfor {A} (l : list A) (body : A -> M unit) : M unit :=
  match l with
  | [] => mret tt
  | a :: l' => (_ <- body a; mfor l' body)%M
  end.

(** ** File-tree operations *)

(** [os.mkdir(p)], tolerating an existing directory. *)
Definition mkdir_exist_ok (p : path) : M unit :=
  fun w =>
    match lookup_node w p with
    | Some Dir => (ok tt, w)
    | Some (File _) =>
        (raise FileExistsError ("File exists: " +:+ path_str p), w)
    | None =>
        match lookup_node w (parent p) with
        | Some Dir =>
            (ok tt, World (<[p := Dir]> (fs w)) (trace w ++ [EvMkdir p]))
        | Some (File _) =>
            (raise NotADirectoryError ("Not a directory: " +:+ path_str p), w)
        | None =>
            (raise FileNotFoundError
               ("No such file or directory: " +:+ path_str p), w)
        end
    end.

(** [p.mkdir(parents=True, exist_ok=True)]: every missing ancestor is
    created, outermost first. *)
Definition mkdir_parents (p : path) : M unit :=
  mfor (seq 1 (length p)) (fun n => mkdir_exist_ok (take n p)).

(** Opening [p] for writing and storing [c]: [savefig] and
    [open(p, 'w')] followed by [json.dump]. *)
Definition write_file (p : path) (c : content) : M unit :=
  fun w =>
    match lookup_node w p with
    | Some Dir => (raise IsADirectoryError ("Is a directory: " +:+ path_str p), w)
    | _ =>
        match lookup_node w (parent p) with
        | Some Dir =>
            (ok tt, World (<[p := File c]> (fs w)) (trace w ++ [EvWrite p]))
        | Some (File _) =>
            (raise NotADirectoryError ("Not a directory: " +:+ path_str p), w)
        | None =>
            (raise FileNotFoundError
               ("No such file or directory: " +:+ path_str p), w)
        end
    end.

(** [plt.savefig(output_path, ...)].  matplotlib takes the format of the
    image from the extension of the name; every call of this program
    passes a name that ends in [.png], and for such a name the image is
    stored under the name given. *)
Definition savefig (output_path : path) (fig : figure) : M unit :=
  write_file output_path (Png fig).

(** ** String helpers: [str.replace], [str.startswith], [int(str)] *)

Fixpoint drop_str (n : nat) (s : string) : string :=
  match n, s with
  | S n', String _ s' => drop_str n' s'
  | _, _ => s
  end.

(** [s.replace(old, new)] for a non-empty [old]; every step consumes a
    character, so [fuel = len(s)] is enough. *)
Fixpoint str_replace_go (fuel : nat) (old new s : string) : string :=
  match fuel with
  | O => s
  | S fuel' =>
      match s with
      | EmptyString => EmptyString
      | String c s' =>
          if String.prefix old s
          then new +:+ str_replace_go fuel' old new (drop_str (String.length old) s)
          else String c (str_replace_go fuel' old new s')
      end
  end.

Definition str_replace (old new s : string) : string :=
  str_replace_go (String.length s) old new s.

(** The white space [int] strips from an ASCII text: the space and the
    characters [\t], [\n], [\v], [\f] and [\r]. *)
Definition is_space (c : Ascii.ascii) : bool :=
  let n := Ascii.nat_of_ascii c in
  ((9 <=? n) && (n <=? 13) || (n =? 32))%nat.

Fixpoint lstrip (s : string) : string :=
  match s with
  | String c s' => if is_space c then lstrip s' else s
  | EmptyString => EmptyString
  end.

Definition strip (s : string) : string :=
  String.rev (lstrip (String.rev (lstrip s))).

Definition digit_of (c : Ascii.ascii) : option Z :=
  let n := Ascii.nat_of_ascii c in
  if ((48 <=? n) && (n <=? 57))%nat then Some (Z.of_nat (n - 48)) else None.

(** Decimal digits with single underscores between them. *)
Fixpoint digits_value (acc : Z) (after_digit : bool) (s : string) : option Z :=
  match s with
  | EmptyString => if after_digit then Some acc else None
  | String c s' =>
      match digit_of c with
      | Some d => digits_value (10 * acc + d) true s'
      | None =>
          if Ascii.eqb c "_"%char && after_digit
          then digits_value acc false s'
          else None
      end
  end.

(** [int(s)] for a string [s]. *)
Definition int_of_str (s : string) : result Z :=
  let bad :=
    raise ValueError ("invalid literal for int() with base 10: '" +:+ s +:+ "'") in
  match strip s with
  | String "-"%char s' =>
      match digits_value 0 false s' with Some z => ok (- z) | None => bad end
  | String "+"%char s' =>
      match digits_value 0 false s' with Some z => ok z | None => bad end
  | s' =>
      match digits_value 0 false s' with Some z => ok z | None => bad end
  end.

(** [sorted(l, key=...)] on pairs that carry their key: an insertion sort
    that keeps elements with equal keys in their order ([sorted] is
    stable). *)
Fixpoint insert_by_key {A} (x : Z * A) (l : list (Z * A)) : list (Z * A) :=
  match l with
  | [] => [x]
  | y :: l' => if x.1 <=? y.1 then x :: l else y :: insert_by_key x l'
  end.

Definition sorted_by_key {A} (l : list (Z * A)) : list (Z * A) :=
  foldr insert_by_key [] l.

(** ** [load_track_data] *)

(** [f[name][:].ravel()] *)
Definition h5_dataset (f : h5file) (name : string) : result (list Q) :=
  match h5_datasets f !! name with
  | Some d => ok d
  | None =>
      raise KeyError
        ("Unable to open object (object '" +:+ name +:+ "' doesn't exist)")
  end.

(** [float(np.asarray(val).flat[0]) if hasattr(val, '__iter__') else float(val)] *)
Definition attr_float (a : h5_attr) : result Q :=
  match a with
  | AttrScalar v => ok v
  | AttrArray (v :: _) => ok v
  | AttrArray [] => raise IndexError "index 0 is out of bounds for size 0"
  end.

(** The loop over [rev_data.attrs] (lines 49-52). *)
Definition rev_dict_of (attrs : gmap string h5_attr) : result reversal :=
  (let? fields :=
     rmap (fun kv : string * h5_attr =>
             let? v := attr_float kv.2 in ok (kv.1, v))
       (map_to_list attrs) in
   ok (list_to_map fields))%result.

(** The body of [with h5py.File(...) as f] (lines 29-55). *)
Definition read_track (f : h5file) : result track_data :=
  (let? tn := h5_dataset f "track_num" in
   let? tn0 := np_index tn 0 in
   let? srv := h5_dataset f "SpeedRunVel" in
   let? ts := h5_dataset f "times" in
   let? xs := h5_dataset f "xpos" in
   let? ys := h5_dataset f "ypos" in
   let? et := h5_dataset f "eti" in
   let name :=
     match h5_eset_name f with
     | Some (TextStr s) | Some (TextBytes s) => s
     | None => "unknown"%string
     end in
   let lpp := default 0.01%Q (h5_lengthPerPixel f) in
   let? revs :=
     match h5_reversals f with
     | None => ok []
     | Some rev_group =>
         let? keyed :=
           rmap (fun kv : string * gmap string h5_attr =>
                   let? n := int_of_str (str_replace "reversal_" EmptyString kv.1) in
                   ok (n, kv.2))
             rev_group in
         rmap (fun kv : Z * gmap string h5_attr => rev_dict_of kv.2)
           (sorted_by_key keyed)
     end in
   ok (TrackData (py_int tn0) srv ts xs ys et name lpp revs))%result.

Definition load_track_data (track_dir : path) : M track_data :=
  (_ <- emit (EvLoad track_dir);
   let h5_file := child track_dir "track_data.h5" in
   fun w =>
     if negb (path_exists w h5_file) then
       (raise FileNotFoundError
          ("No track_data.h5 found in " +:+ path_str track_dir), w)
     else
       match lookup_node w h5_file with
       | Some (File (H5 f)) => (read_track f, w)
       | _ =>
           (raise OSError
              ("Unable to open file (file signature not found): "
               +:+ path_str h5_file), w)
       end)%M.

(** ** The renderers *)

(** [ax.plot(x, y, ...)]: matplotlib refuses two sequences of different
    length. *)
Definition ax_plot (x y : list Q) : result unit :=
  if (length x =? length y)%nat then ok tt
  else
    raise ValueError
      ("x and y must have same first dimension, but have shapes ("
       +:+ pretty (length x) +:+ ",) and (" +:+ pretty (length y) +:+ ",)").

(** [ax.fill_between(x, y1, 0, ...)]: the two sequences are broadcast
    against each other, which numpy refuses unless they have the same
    length or one of them has length 1. *)
Definition ax_fill_between (x y1 : list Q) : result unit :=
  if ((length x =? length y1) || (length x =? 1) || (length y1 =? 1))%nat
  then ok tt
  else
    raise ValueError
      ("operands could not be broadcast together with shapes ("
       +:+ pretty (length x) +:+ ",) (" +:+ pretty (length y1) +:+ ",) ").

(** The signal is plotted (line 105) before anything else is drawn; the
    overlays of the reversals (lines 109-115) are cut to a common length
    by the code itself. *)
Definition plot_dot_product (td : track_data) (output_path : path) : M unit :=
  (_ <- lift (ax_plot (times td) (SpeedRunVel td));
   savefig output_path (DotProduct (dot_product_figure td)))%M.

Definition plot_reversal_closeup (td : track_data) (reversal_idx : Z)
    (output_path : path) : M unit :=
  if Z.of_nat (length (reversals td)) <=? reversal_idx then mret tt
  else
    (rev <- lift (list_index (reversals td) reversal_idx);
     let fig := closeup_figure td reversal_idx rev in
     _ <- lift (ax_plot (pl_x (cu_view fig)) (pl_y (cu_view fig)));
     _ <- lift (ax_fill_between (cu_fill fig).1 (cu_fill fig).2);
     savefig output_path (Closeup fig))%M.

Section Pipeline.

Variable np_sqrt : Q -> Q.

Definition plot_trajectory (td : track_data) (output_path : path) : M unit :=
  (fig <- lift (trajectory_figure np_sqrt td);
   savefig output_path (Trajectory fig))%M.

(** ** [process_single_track] *)

(** The body of the [try] block (lines 229-245); its value is the
    loaded record. *)
Definition process_body (track_num : Z) (track_dir figures_dir : path)
  : M track_data :=
  (data <- load_track_data track_dir;
   let track_fig_dir := child figures_dir ("track" +:+ pretty track_num) in
   _ <- mkdir_exist_ok track_fig_dir;
   _ <- plot_dot_product data (child track_fig_dir "dot_product.png");
   _ <- plot_trajectory data (child track_fig_dir "trajectory.png");
   _ <- mfor (seq 0 (length (reversals data)))
          (fun r_idx =>
             plot_reversal_closeup data (Z.of_nat r_idx)
               (child track_fig_dir
                  ("reversal" +:+ pretty (r_idx + 1)%nat +:+ "_dot_product.png")));
   mret data)%M.

Definition process_single_track (args : Z * path * path)
  : world -> outcome * world :=
  let '(track_num, results_dir, figures_dir) := args in
  let track_dir := child results_dir ("track" +:+ pretty track_num) in
  fun w =>
    if negb (path_exists w track_dir) then
      (Outcome track_num not_found None 0, w)
    else
      match process_body track_num track_dir figures_dir w with
      | (inr data, w') =>
          (Outcome track_num success None (length (reversals data)), w')
      | (inl e, w') =>
          (Outcome track_num error (Some (str e)) 0, w')
      end.

(** ** [generate_all_figures] *)

(** The auto-detection of tracks (lines 265-269). *)
Definition discover_tracks (results_dir : path) : M (list Z) :=
  fun w =>
    match lookup_node w results_dir with
    | None =>
        (raise FileNotFoundError
           ("No such file or directory: " +:+ path_str results_dir), w)
    | Some (File _) =>
        (raise NotADirectoryError
           ("Not a directory: " +:+ path_str results_dir), w)
    | Some Dir =>
        let entries :=
          List.filter
            (fun d : path =>
               negb (bool_decide (d = [])) && bool_decide (parent d = results_dir))
            (map fst (map_to_list (fs w))) in
        let named :=
          List.filter
            (fun d : path =>
               is_dir w d && String.prefix "track" (List.last d EmptyString))
            entries in
        (rbind
           (rmap (fun d : path =>
                    int_of_str (str_replace "track" EmptyString (List.last d EmptyString)))
              named)
           (fun nums => ok (merge_sort Z.le nums)), w)
    end.

(** One future the pool completes: the index of its unit in the
    submission order, and whether [future.result()] delivered the
    unit's outcome or raised. *)
Record completion := Completion {
  c_task : nat;
  c_collected : bool;
}.

#[global] Instance completion_eq_dec : EqDecision completion.
Proof. solve_decision. Defined.

(** One iteration of the [as_completed] loop (lines 286-296).  A unit
    whose worker was lost leaves no mark on the file tree. *)
Definition collect (args_list : list (Z * path * path)) (c : completion)
    (acc : list outcome * world) : list outcome * world :=
  let '(results, w) := acc in
  match args_list !! c_task c with
  | None => (results, w)
  | Some args =>
      if c_collected c then
        let '(result, w') := process_single_track args w in
        (results ++ [result], w')
      else
        (results ++ [Outcome args.1.1 exception None 0], w)
  end.

(** The [as_completed] loop (lines 281-296), from an empty [results]. *)
Definition collect_all (args_list : list (Z * path * path))
    (schedule : list completion) (w : world) : list outcome * world :=
  foldl (flip (collect args_list)) ([], w) schedule.

(** [sum(1 for r in results if r['status'] == 'success')] *)
Definition success_count (results : list outcome) : nat :=
  length (List.filter (fun r => bool_decide (o_status r = success)) results).

(** [sum(r['reversals'] for r in results)] *)
Definition total_revs (results : list outcome) : nat :=
  foldr Nat.add 0%nat (map o_reversals results).

(** The orchestrator.  [schedule] is the order in which the pool
    completes the submitted units. *)
Definition generate_all_figures (results_dir figures_dir : path)
    (tracks : option (list Z)) (schedule : list completion) : M unit :=
  (_ <- mkdir_parents figures_dir;
   tracks <- match tracks with
             | None => discover_tracks results_dir
             | Some ts => mret ts
             end;
   match tracks with
   | [] => mret tt
   | _ =>
       let args_list := map (fun t => (t, results_dir, figures_dir)) tracks in
       fun w =>
         let '(results, w') := collect_all args_list schedule w in
         let total := total_revs results in
         write_file (child figures_dir "summary.json")
           (Json (Summary results total)) w'
   end)%M.

End Pipeline.

(** * The words of the specification, and concrete inputs

    Predicates that say in Rocq what the specification says in prose, and
    a few concrete tracks and file trees to run the code on. *)

(** [a[i]] where the sample exists (no wrap-around). *)
Definition sample (a : list Q) (i : Z) : option Q :=
  if 0 <=? i then a !! Z.to_nat i else None.

(** The invariant of [elapsed_time]: the samples never decrease. *)
Definition non_decreasing (a : list Q) : Prop :=
  forall (i j : nat) (u v : Q),
    (i <= j)%nat -> a !! i = Some u -> a !! j = Some v -> (u <= v)%Q.

(** The window [(s, e)] has a row in the table. *)
Definition has_row (times : list Q) (revs : list reversal) (s e : Z) : Prop :=
  exists row, row ∈ reversal_table_data times revs
              /\ te_start_idx row = s /\ te_end_idx row = e.

(** [elapsed_time[e-1] - elapsed_time[s] >= 3.0] *)
Definition span_qualifies (times : list Q) (s e : Z) : Prop :=
  exists u v, sample times s = Some u /\ sample times (e - 1) = Some v
              /\ (3.0 <= v - u)%Q.

(** A decidable form of [non_decreasing], to check concrete series. *)
Fixpoint non_decreasingb (a : list Q) : bool :=
  match a with
  | [] => true
  | x :: a' => forallb (Qle_bool x) a' && non_decreasingb a'
  end.

(** A window given by its two bounds. *)
Definition window (start_idx end_idx : Q) : reversal :=
  <["start_idx"%string := start_idx]> (<["end_idx"%string := end_idx]> ∅).

(** A track with five time samples one second apart and two windows. *)
Definition track_five : track_data :=
  {| track_num := 7;
     SpeedRunVel := [1; -2; -3; -4; 5]%Q;
     times := [0; 1; 2; 3; 4]%Q;
     xpos := [0; 3; 3]%Q;
     ypos := [0; 4; 4]%Q;
     eti := [0; 1; 2]%Q;
     eset_name := "unknown";
     lengthPerPixel := 0.01%Q;
     reversals := [window 1 3; window 1 5] |}.

(** [a[i]] for an index known to be in range. *)
Definition at_ (a : list Q) (i : nat) : Q := nth i a 0%Q.

(** The speed of segment [i] in the words of the specification. *)
Definition spec_speed (np_sqrt : Q -> Q) (xpos ypos eti : list Q) (i : nat)
  : Q :=
  let dx := (at_ xpos (i + 1) - at_ xpos i)%Q in
  let dy := (at_ ypos (i + 1) - at_ ypos i)%Q in
  let dt := if (i + 1 <? length eti)%nat
            then (at_ eti (i + 1) - at_ eti i)%Q else 1%Q in
  if Qlt_bool 0 dt then (np_sqrt (dx ^ 2 + dy ^ 2) / dt * 10)%Q else 0%Q.

(** The colour the plotting loop gives a drawn segment. *)
Definition segment_color (td : track_data) (speeds : list Q) (i : nat) (s : Q)
  : color :=
  if in_reversal (reversals td) (length (xpos td)) (Z.of_nat i)
  then uv_color else speed_cmap (normalize speeds s).

(** The segment the plotting loop draws at [i] for a positive speed [s]. *)
Definition segment_at (td : track_data) (speeds : list Q) (i : nat) (s : Q)
  : segment :=
  Segment i (at_ (xpos td) i, at_ (xpos td) (i + 1))
    (at_ (ypos td) i, at_ (ypos td) (i + 1)) (segment_color td speeds i s).

(** A square root to run the renderer with: exact on the squares of
    multiples of [10^-6], rounded down elsewhere. *)
Definition approx_sqrt (q : Q) : Q :=
  Qred (Z.sqrt (Qfloor (q * 1000000000000)) # 1000000).

(** The figure [plot_trajectory] saves for [track_five]. *)
Definition trajectory_five : trajectory_fig :=
  Eval vm_compute in
    match trajectory_figure approx_sqrt track_five with
    | inr fig => fig
    | inl _ => TrajectoryFig [] EmptyString
    end.

(** C4 as the specification words it: every segment [0 .. M-2] of the
    track is drawn. *)
Definition draws_every_segment (np_sqrt : Q -> Q) (td : track_data) : Prop :=
  exists fig,
    trajectory_figure np_sqrt td = ok fig
    /\ forall i, (i < length (xpos td) - 1)%nat ->
         exists seg, seg ∈ tr_segments fig /\ seg_index seg = i.

(** [w'] is [w] after some effects that left path [S] alone: the node at
    [S] is the same, no directory was lost, and the trace grew by events
    none of which writes [S]. *)
Definition preserves (S : path) (w w' : world) : Prop :=
  fs w' !! S = fs w !! S
  /\ (forall p, is_dir w p = true -> is_dir w' p = true)
  /\ exists evs, trace w' = trace w ++ evs /\ EvWrite S ∉ evs.

(** A computation that leaves [S] alone, whatever it returns or raises. *)
Definition keeps {A} (S : path) (c : M A) : Prop :=
  forall w, preserves S w (c w).2.

(** Two worlds hold the same nodes at the paths in [P]. *)
Definition agree (P : path -> Prop) (w w' : world) : Prop :=
  forall p, P p -> fs w !! p = fs w' !! p.

(** What [c] returns, and what it leaves at the paths in [P], depend
    only on what the world holds at the paths in [P]. *)
Definition determined {X} (P : path -> Prop) (c : world -> X * world) : Prop :=
  forall w w', agree P w w' -> (c w).1 = (c w').1 /\ agree P (c w).2 (c w').2.

(** The name of the directory of track [n]. *)
Definition track_name (n : Z) : string := "track" +:+ pretty n.

(** The names of the figures a unit writes. *)
Definition figure_name (x : string) : bool :=
  bool_decide (x = "dot_product.png") || bool_decide (x = "trajectory.png")
  || String.prefix "reversal" x.

(** The paths the unit of track [n] may create or write under the output
    root [F]. *)
Definition unit_writes (n : Z) (F p : path) : Prop :=
  p = child F (track_name n)
  \/ exists x, figure_name x = true /\ p = child (child F (track_name n)) x.

(** [unit_writes], decided. *)
Definition unit_writesb (n : Z) (F p : path) : bool :=
  bool_decide (p = child F (track_name n))
  || bool_decide (p = child (child F (track_name n)) (List.last p EmptyString))
     && figure_name (List.last p EmptyString).

(** The paths the unit of track [n] looks at. *)
Definition footprint (n : Z) (R F p : path) : Prop :=
  p = child R (track_name n)
  \/ p = child (child R (track_name n)) "track_data.h5"
  \/ p = F
  \/ unit_writes n F p.

(** A completed future, by the track of its unit: [(n, true)] delivers
    the outcome of the unit of track [n], [(n, false)] stands for a lost
    worker. *)
Definition job : Type := Z * bool.

(** What one iteration of the [as_completed] loop adds for a job. *)
Definition run_job (np_sqrt : Q -> Q) (R F : path) (j : job) (w : world)
  : outcome * world :=
  if j.2 then process_single_track np_sqrt (j.1, R, F) w
  else (Outcome j.1 exception None 0, w).

Fixpoint run_jobs (np_sqrt : Q -> Q) (R F : path) (jobs : list job) (w : world)
  : list outcome * world :=
  match jobs with
  | [] => ([], w)
  | j :: jobs' =>
      let '(o, w1) := run_job np_sqrt R F j w in
      let '(os, w2) := run_jobs np_sqrt R F jobs' w1 in
      (o :: os, w2)
  end.

(** The jobs a schedule stands for, in the order of completion. *)
Definition jobs_of (tracks : list Z) (schedule : list completion) : list job :=
  omap (fun c => (fun t => (t, c_collected c)) <$> tracks !! c_task c) schedule.

(** C5 as the specification words it: an existing track directory
    without its data artifact gives the status [not_found]. *)
Definition missing_artifact_is_not_found (np_sqrt : Q -> Q) (n : Z)
    (R F : path) (w : world)
  : Prop :=
  let track_dir := child R ("track" +:+ pretty n) in
  path_exists w track_dir = true ->
  path_exists w (child track_dir "track_data.h5") = false ->
  o_status (process_single_track np_sqrt (n, R, F) w).1 = not_found.

(** C8 as the specification words it: the reversal count of a successful
    outcome is the number of qualified windows. *)
Definition counts_only_qualified (np_sqrt : Q -> Q) (n : Z) (R F : path)
    (w : world) : Prop :=
  forall data w',
    process_body np_sqrt n (child R ("track" +:+ pretty n)) F w = (inr data, w') ->
    o_reversals (process_single_track np_sqrt (n, R, F) w).1
    = length (reversal_table_data (times data) (reversals data)).

(** The data store of [track_five]. *)
Definition h5_five : h5file :=
  {| h5_datasets :=
       list_to_map
         [("track_num"%string, [7]%Q);
          ("SpeedRunVel"%string, [1; -2; -3; -4; 5]%Q);
          ("times"%string, [0; 1; 2; 3; 4]%Q);
          ("xpos"%string, [0; 3; 3]%Q);
          ("ypos"%string, [0; 4; 4]%Q);
          ("eti"%string, [0; 1; 2]%Q)];
     h5_eset_name := None;
     h5_lengthPerPixel := None;
     h5_reversals :=
       Some [("reversal_2"%string,
              {[ "start_idx"%string := AttrScalar 1;
                 "end_idx"%string := AttrArray [5%Q] ]});
             ("reversal_1"%string,
              {[ "start_idx"%string := AttrScalar 1;
                 "end_idx"%string := AttrScalar 3 ]})] |}.

(** A data store without the series [times]. *)
Definition h5_broken : h5file :=
  {| h5_datasets :=
       list_to_map
         [("track_num"%string, [3]%Q);
          ("SpeedRunVel"%string, [1; 2]%Q)];
     h5_eset_name := None;
     h5_lengthPerPixel := None;
     h5_reversals := None |}.

(** A results directory with track 3 (unreadable data), track 7
    (complete) and track 8 (directory only), and an output root. *)
Definition demo_world : world :=
  {| fs :=
       list_to_map
         [(["res"], Dir);
          (["res"; "track3"], Dir);
          (["res"; "track3"; "track_data.h5"], File (H5 h5_broken));
          (["res"; "track7"], Dir);
          (["res"; "track7"; "track_data.h5"], File (H5 h5_five));
          (["res"; "track8"], Dir);
          (["fig"], Dir)]%string;
     trace := [] |}.

(** A results directory without tracks, and an output root. *)
Definition world_empty : world :=
  {| fs := list_to_map [(["res"], Dir); (["fig"], Dir)]%string;
     trace := [] |}.

(** The world after the unit of track 7 ran in [demo_world]. *)
Definition world_seven : world :=
  Eval vm_compute in
    (process_single_track approx_sqrt (7, ["res"], ["fig"])%string demo_world).2.

(** A file name that matplotlib takes for a PNG image: a stem that does
    not start with a dot, followed by [.png]. *)
Definition png_name (name : string) : Prop :=
  exists c stem, name = String c stem +:+ ".png" /\ c <> "."%char.

(** C7 as the specification words it: the run writes the summary. *)
Definition summary_always_written (np_sqrt : Q -> Q) (R F : path)
    (arg : option (list Z)) (schedule : list completion) (w : world) : Prop :=
  EvWrite (child F "summary.json")
  ∈ trace (generate_all_figures np_sqrt R F arg schedule w).2.

(** ** Vocabulary for texts, for the marks of a run, and more inputs *)

(** Every character of [s] passes the test [p]. *)
Fixpoint all_chars (p : Ascii.ascii -> bool) (s : string) : bool :=
  match s with
  | EmptyString => true
  | String c s' => p c && all_chars p s'
  end.

(** A decimal digit. *)
Definition is_digit (c : Ascii.ascii) : bool :=
  match digit_of c with Some _ => true | None => false end.

(** [w'] is [w] after effects that changed nodes at paths in [P] only
    and added events in [E] only. *)
Definition changes_within (P : path -> Prop) (E : event -> Prop)
    (w w' : world) : Prop :=
  (forall p, ~ P p -> fs w' !! p = fs w !! p)
  /\ exists evs, trace w' = trace w ++ evs /\ Forall E evs.

(** A computation whose effects stay within [P] and [E], whatever it
    returns or raises. *)
Definition confined {X} (P : path -> Prop) (E : event -> Prop)
    (c : world -> X * world) : Prop :=
  forall w, changes_within P E w (c w).2.

(** The paths a run with the output root [F] may create or write: the
    root, the directories above it and what lies beneath it. *)
Definition run_paths (F p : path) : Prop := p `prefix_of` F \/ F `prefix_of` p.

(** The events of a run over the results directory [R] with the output
    root [F]: loading a track directory of [R], creating a directory at,
    above or beneath [F], writing a file beneath [F]. *)
Definition run_event (R F : path) (ev : event) : Prop :=
  match ev with
  | EvLoad d => exists n : Z, d = child R (track_name n)
  | EvMkdir p => run_paths F p
  | EvWrite p => F `prefix_of` p /\ p <> F
  end.

(** A data store whose signal is one sample short of its time series. *)
Definition h5_short : h5file :=
  {| h5_datasets :=
       list_to_map
         [("track_num"%string, [5]%Q);
          ("SpeedRunVel"%string, [1; -2; -3; -4]%Q);
          ("times"%string, [0; 1; 2; 3; 4]%Q);
          ("xpos"%string, [0; 3; 3]%Q);
          ("ypos"%string, [0; 4; 4]%Q);
          ("eti"%string, [0; 1; 2]%Q)];
     h5_eset_name := None;
     h5_lengthPerPixel := None;
     h5_reversals := None |}.

(** A results directory with track 5 (signal too short), track 7
    (complete) and a directory [track_old], and an output root. *)
Definition world_stray : world :=
  {| fs :=
       list_to_map
         [(["res"], Dir);
          (["res"; "track5"], Dir);
          (["res"; "track5"; "track_data.h5"], File (H5 h5_short));
          (["res"; "track7"], Dir);
          (["res"; "track7"; "track_data.h5"], File (H5 h5_five));
          (["res"; "track_old"], Dir);
          (["fig"], Dir)]%string;
     trace := [] |}.

(** * Properties *)

(** ** Slices and indices *)

Lemma slice_bound_in_range (n i : Z) : 0 <= i <= n -> slice_bound n i = i.
Proof.
  intros [Hlo Hhi]. unfold slice_bound.
  destruct (Z.ltb_spec i 0); lia.
Qed.

Lemma py_slice_in_range {A} (l : list A) (a b : Z) :
  0 <= a <= Z.of_nat (length l) ->
  0 <= b <= Z.of_nat (length l) ->
  py_slice l a b = take (Z.to_nat (b - a)) (drop (Z.to_nat a) l).
Proof.
  intros Ha Hb. unfold py_slice.
  by rewrite !slice_bound_in_range.
Qed.

Lemma length_py_slice_in_range {A} (l : list A) (a b : Z) :
  0 <= a <= Z.of_nat (length l) ->
  0 <= b <= Z.of_nat (length l) ->
  length (py_slice l a b) = Z.to_nat (b - a).
Proof.
  intros Ha Hb. rewrite py_slice_in_range by done.
  rewrite length_take, length_drop. lia.
Qed.

Lemma py_index_nonneg {A} (l : list A) (i : Z) :
  0 <= i -> py_index l i = l !! Z.to_nat i.
Proof.
  intros Hi. unfold py_index.
  destruct (Z.leb_spec 0 i); [done | lia].
Qed.

Lemma py_index_last {A} (l : list A) :
  l <> [] -> py_index l (-1) = l !! (length l - 1)%nat.
Proof.
  intros Hl. unfold py_index.
  assert (0 < length l)%nat by (destruct l; [done | simpl; lia]).
  destruct (Z.leb_spec 0 (-1)); [lia |].
  destruct (Z.leb_spec (- Z.of_nat (length l)) (-1)); [| lia].
  f_equal. lia.
Qed.

(** The first and the last sample of a non-empty slice [l[a:b]]. *)
Lemma py_slice_first {A} (l : list A) (a b : Z) :
  0 <= a -> a < b -> b <= Z.of_nat (length l) ->
  py_index (py_slice l a b) 0 = l !! Z.to_nat a.
Proof.
  intros Ha Hab Hb. rewrite py_index_nonneg by lia.
  rewrite py_slice_in_range by lia.
  rewrite lookup_take_lt by lia. rewrite lookup_drop. f_equal. lia.
Qed.

Lemma py_slice_last {A} (l : list A) (a b : Z) :
  0 <= a -> a < b -> b <= Z.of_nat (length l) ->
  py_index (py_slice l a b) (-1) = l !! Z.to_nat (b - 1).
Proof.
  intros Ha Hab Hb.
  assert (Hlen : length (py_slice l a b) = Z.to_nat (b - a))
    by (apply length_py_slice_in_range; lia).
  rewrite py_index_last by (intros E; rewrite E in Hlen; simpl in Hlen; lia).
  rewrite Hlen. rewrite py_slice_in_range by lia.
  rewrite lookup_take_lt by lia. rewrite lookup_drop. f_equal. lia.
Qed.

(** ** The reversal table *)

(** What the loop body does, in terms of the bounds alone. *)
Lemma table_entry_of_Some (times : list Q) (rev : reversal) (row : table_entry) :
  table_entry_of times rev = Some row <->
  let s := rev_start_idx rev in
  let e := rev_end_idx rev (length times) in
  0 <= s /\ s < e /\ e <= Z.of_nat (length times) /\
  exists u v, times !! Z.to_nat s = Some u /\ times !! Z.to_nat (e - 1) = Some v
              /\ (3.0 <= v - u)%Q /\ row = TableEntry u v (v - u)%Q s e.
Proof.
  unfold table_entry_of. cbv zeta.
  set (s := rev_start_idx rev). set (e := rev_end_idx rev (length times)).
  destruct (Z.leb_spec 0 s); simpl; [| split; [done | lia]].
  destruct (Z.ltb_spec s (Z.of_nat (length times))); simpl;
    [| split; [done | lia]].
  destruct (Z.leb_spec 0 e); simpl; [| split; [done | lia]].
  destruct (Z.leb_spec e (Z.of_nat (length times))); simpl;
    [| split; [done | lia]].
  rewrite length_py_slice_in_range by lia.
  destruct (Nat.ltb_spec 0 (Z.to_nat (e - s))); [| split; [done | lia]].
  rewrite py_slice_first, py_slice_last by lia.
  destruct (times !! Z.to_nat s) as [u|] eqn:Hu;
    [| split; [done | intros (_ & _ & _ & ? & ? & ? & _); done]].
  destruct (times !! Z.to_nat (e - 1)) as [v|] eqn:Hv;
    [| split; [done | intros (_ & _ & _ & ? & ? & _ & ? & _); done]].
  destruct (Qle_bool 3.0 (v - u)) eqn:Hd.
  - split.
    + intros [= <-]. repeat split; try lia.
      exists u, v. repeat split; try done. by apply Qle_bool_iff.
    + intros (_ & _ & _ & u' & v' & [= <-] & [= <-] & _ & ->). done.
  - split; [done |].
    intros (_ & _ & _ & u' & v' & [= <-] & [= <-] & Hge & _).
    apply Qle_bool_iff in Hge. congruence.
Qed.

Lemma non_decreasingb_sound (a : list Q) :
  non_decreasingb a = true -> non_decreasing a.
Proof.
  induction a as [|x a IH]; intros Hb i j u v Hij Hi Hj.
  - done.
  - simpl in Hb. apply andb_true_iff in Hb as [Hx Ha].
    destruct i as [|i], j as [|j]; simpl in *; simplify_eq.
    + lra.
    + rewrite forallb_forall in Hx. apply Qle_bool_iff, Hx.
      apply list_elem_of_In, list_elem_of_lookup. eauto.
    + lia.
    + apply (IH Ha i j); [lia | done | done].
Qed.

Lemma sample_Some (a : list Q) (i : Z) (u : Q) :
  sample a i = Some u <-> 0 <= i /\ a !! Z.to_nat i = Some u.
Proof.
  unfold sample. destruct (Z.leb_spec 0 i); split; try done.
  - intros [_ ?]; done.
  - intros [? _]; lia.
Qed.

(** C1.  Let a reversal window of a track have both bounds within
    [[0, N]], [N] the number of time samples.  If [start_idx < end_idx]
    the window has a row in the event table of the time-series figure if
    and only if [elapsed_time[end_idx-1] - elapsed_time[start_idx] >= 3.0];
    a window with [start_idx = end_idx] (or [end_idx < start_idx]) has no
    row.  When the elapsed times never decrease, as the data model has
    it, the equivalence holds for every window within the bounds.  (The
    table of the figure has one row per entry of [reversal_table_data],
    see [dot_product_table_rows].) *)
Theorem table_row_iff_span (td : track_data) (rev : reversal) :
  let s := rev_start_idx rev in
  let e := rev_end_idx rev (length (times td)) in
  let n := Z.of_nat (length (times td)) in
  rev ∈ reversals td ->
  0 <= s <= n ->
  0 <= e <= n ->
  (s < e ->
   (has_row (times td) (reversals td) s e <-> span_qualifies (times td) s e))
  /\ (e <= s -> ~ has_row (times td) (reversals td) s e)
  /\ (non_decreasing (times td) ->
      (has_row (times td) (reversals td) s e <-> span_qualifies (times td) s e)).
Proof.
  intros s e n Hin Hs He.
  assert (Hrow : has_row (times td) (reversals td) s e ->
                 s < e /\ span_qualifies (times td) s e).
  { intros (row & Hrow & Hrs & Hre).
    apply list_elem_of_omap in Hrow as (rev' & _ & Hrev').
    apply table_entry_of_Some in Hrev'
      as (Hs' & Hlt & _ & u & v & Hu & Hv & Hge & ->).
    simpl in Hrs, Hre. rewrite Hrs, Hre in *.
    split; [done |]. exists u, v.
    rewrite !sample_Some. repeat split; try done; lia. }
  assert (Hspan : s < e -> span_qualifies (times td) s e ->
                  has_row (times td) (reversals td) s e).
  { intros Hlt (u & v & Hu & Hv & Hge).
    apply sample_Some in Hu as [Hs0 Hu]. apply sample_Some in Hv as [He0 Hv].
    exists (TableEntry u v (v - u)%Q s e). split; [| done].
    apply list_elem_of_omap. exists rev. split; [done |].
    apply table_entry_of_Some. fold s e. repeat split; try lia.
    exists u, v. done. }
  split; [| split].
  - intros Hlt. split; [by intros H; apply Hrow | by apply Hspan].
  - intros Hes Hr. apply Hrow in Hr as [? _]. lia.
  - intros Hmono. split; [by intros H; apply Hrow |].
    intros Hq. apply Hspan; [| done].
    destruct Hq as (u & v & Hu & Hv & Hge).
    apply sample_Some in Hu as [Hs0 Hu]. apply sample_Some in Hv as [He0 Hv].
    destruct (Z.lt_ge_cases s e) as [|Hes]; [done |].
    assert (v <= u)%Q
      by (apply (Hmono (Z.to_nat (e - 1)) (Z.to_nat s)); [lia | done..]).
    lra.
Qed.

Lemma table_row_iff_span_witness :
  has_row (times track_five) (reversals track_five) 1 5
  <-> span_qualifies (times track_five) 1 5.
Proof.
  apply (table_row_iff_span track_five (window 1 5)).
  - set_solver.
  - vm_compute. split; discriminate.
  - vm_compute. split; discriminate.
  - apply non_decreasingb_sound. reflexivity.
Defined.

(** The threshold is exact: a window that spans 2.999 s has no row, one
    that spans 3.000 s has one. *)
Example threshold_excludes_2999 :
  reversal_table_data [0; 1.5; 2.999]%Q [window 0 3] = [].
Proof. reflexivity. Qed.

Example threshold_includes_3000 :
  reversal_table_data [0; 1.5; 3.000]%Q [window 0 3]
  = [TableEntry 0 3.000 (3.000 - 0) 0 3].
Proof. reflexivity. Qed.

(** The table of the figure has one row per entry, in order. *)
Lemma dot_product_table_rows (td : track_data) :
  dp_table (dot_product_figure td)
  = match reversal_table_data (times td) (reversals td) with
    | [] => None
    | data => Some (imap table_row data)
    end.
Proof.
  unfold dot_product_figure. simpl.
  destruct (reversal_table_data (times td) (reversals td)); done.
Qed.

(** ** The derived speeds *)

Lemma Qlt_bool_iff (a b : Q) : Qlt_bool a b = true <-> (a < b)%Q.
Proof.
  unfold Qlt_bool. rewrite negb_true_iff.
  destruct (Qle_bool b a) eqn:E.
  - apply Qle_bool_iff in E. split; [done | lra].
  - split; [| done]. intros _. apply Qnot_le_lt. intros H.
    apply Qle_bool_iff in H. congruence.
Qed.

Lemma Qlt_bool_false (a b : Q) : Qlt_bool a b = false <-> (b <= a)%Q.
Proof.
  destruct (Qlt_bool a b) eqn:E.
  - apply Qlt_bool_iff in E. split; [done | lra].
  - split; [| done]. intros _. apply Qnot_lt_le. intros H.
    apply Qlt_bool_iff in H. congruence.
Qed.

Lemma rmap_ok {A B} (f : A -> result B) (g : A -> B) (l : list A) :
  (forall a, a ∈ l -> f a = ok (g a)) -> rmap f l = ok (map g l).
Proof.
  induction l as [|a l IH]; intros Hf; simpl; [done |].
  rewrite Hf by set_solver. unfold ok at 1.
  rewrite IH by (intros; apply Hf; set_solver). done.
Qed.

Lemma np_index_in_range (a : list Q) (i : nat) :
  (i < length a)%nat -> np_index a (Z.of_nat i) = ok (at_ a i).
Proof.
  intros Hi. unfold np_index. rewrite py_index_nonneg by lia.
  rewrite Nat2Z.id.
  destruct (lookup_lt_is_Some_2 a i Hi) as [v Hv]. rewrite Hv.
  unfold at_. by rewrite (nth_lookup_Some _ _ _ _ Hv).
Qed.

Section Speeds.

Variable np_sqrt : Q -> Q.
Hypothesis np_sqrt_nonneg : forall q, (0 <= q)%Q -> (0 <= np_sqrt q)%Q.

Lemma speed_step_in_range (xpos ypos eti : list Q) (i : nat) :
  (i + 1 < length xpos)%nat -> (i + 1 < length ypos)%nat ->
  speed_step np_sqrt xpos ypos eti i = ok (spec_speed np_sqrt xpos ypos eti i).
Proof.
  intros Hx Hy. unfold speed_step, spec_speed.
  replace (Z.of_nat i + 1) with (Z.of_nat (i + 1)) by lia.
  rewrite !np_index_in_range by lia. simpl.
  destruct (Z.ltb_spec (Z.of_nat (i + 1)) (Z.of_nat (length eti)));
    destruct (Nat.ltb_spec (i + 1) (length eti)); try lia.
  - rewrite !np_index_in_range by lia. done.
  - done.
Qed.

Lemma spec_speed_nonneg (xpos ypos eti : list Q) (i : nat) :
  (0 <= spec_speed np_sqrt xpos ypos eti i)%Q.
Proof.
  unfold spec_speed. cbv zeta.
  set (dx := (at_ xpos (i + 1) - at_ xpos i)%Q).
  set (dy := (at_ ypos (i + 1) - at_ ypos i)%Q).
  set (dt := if (i + 1 <? length eti)%nat then _ else _).
  destruct (Qlt_bool 0 dt) eqn:Hdt; [| lra].
  apply Qlt_bool_iff in Hdt.
  assert (0 <= np_sqrt (dx ^ 2 + dy ^ 2))%Q.
  { apply np_sqrt_nonneg. simpl. nra. }
  apply Qmult_le_0_compat; [| lra].
  apply Qle_shift_div_l; [done | lra].
Qed.

(** C2.  For position series of length [M] the speed loop returns
    exactly [M - 1] values (none for an empty track); value [i] is
    [sqrt(dx^2 + dy^2) / dt * 10] when [dt > 0] and [0] otherwise,
    with [dt] the difference of the position times when sample [i + 1]
    has one and [1] otherwise; and no value is negative. *)
Theorem compute_speeds_spec (xpos ypos eti : list Q) (M : nat) :
  length xpos = M -> length ypos = M ->
  exists speeds,
    compute_speeds np_sqrt xpos ypos eti = ok speeds
    /\ length speeds = (M - 1)%nat
    /\ (forall i, (i < M - 1)%nat ->
          speeds !! i = Some (spec_speed np_sqrt xpos ypos eti i))
    /\ (forall s, s ∈ speeds -> (0 <= s)%Q).
Proof.
  intros Hx Hy.
  exists (map (spec_speed np_sqrt xpos ypos eti) (seq 0 (M - 1))).
  split; [| split; [| split]].
  - unfold compute_speeds. rewrite Hx. apply rmap_ok.
    intros i Hi. apply elem_of_seq in Hi.
    apply speed_step_in_range; lia.
  - by rewrite length_map, length_seq.
  - intros i Hi. rewrite list_lookup_fmap, lookup_seq_lt by done. done.
  - intros s Hs. apply list_elem_of_fmap in Hs as (i & -> & _).
    apply spec_speed_nonneg.
Qed.

End Speeds.

(** ** The normalisation range *)

Lemma Qmin_cases (a b : Q) :
  (Qmin a b = a /\ (a <= b)%Q) \/ (Qmin a b = b /\ (b <= a)%Q).
Proof.
  unfold Qmin, GenericMinMax.gmin.
  destruct (Qcompare_spec a b) as [H|H|H]; [left | left | right];
    split; try done; lra.
Qed.

Lemma Qmax_cases (a b : Q) :
  (Qmax a b = a /\ (b <= a)%Q) \/ (Qmax a b = b /\ (a <= b)%Q).
Proof.
  unfold Qmax, GenericMinMax.gmax.
  destruct (Qcompare_spec a b) as [H|H|H]; [left | right | left];
    split; try done; lra.
Qed.

(** [min()] returns an element that no element is below. *)
Lemma foldl_Qmin_spec (rest : list Q) (s : Q) :
  foldl Qmin s rest ∈ s :: rest
  /\ forall x, x ∈ s :: rest -> (foldl Qmin s rest <= x)%Q.
Proof.
  revert s. induction rest as [|y rest IH]; intros s; simpl.
  - split; [set_solver |]. intros x Hx.
    apply list_elem_of_singleton in Hx as ->. lra.
  - destruct (IH (Qmin s y)) as [Hin Hle]. split.
    + apply elem_of_cons in Hin as [Hin | Hin]; [| set_solver].
      rewrite Hin. destruct (Qmin_cases s y) as [[-> _] | [-> _]]; set_solver.
    + intros x Hx.
      assert (Hm : (foldl Qmin (Qmin s y) rest <= Qmin s y)%Q)
        by (apply Hle; set_solver).
      apply elem_of_cons in Hx as [-> | Hx];
        [| apply elem_of_cons in Hx as [-> | Hx]].
      * pose proof (Q.le_min_l s y). lra.
      * pose proof (Q.le_min_r s y). lra.
      * apply Hle. set_solver.
Qed.

(** [max()] returns an element that no element is above. *)
Lemma foldl_Qmax_spec (rest : list Q) (s : Q) :
  foldl Qmax s rest ∈ s :: rest
  /\ forall x, x ∈ s :: rest -> (x <= foldl Qmax s rest)%Q.
Proof.
  revert s. induction rest as [|y rest IH]; intros s; simpl.
  - split; [set_solver |]. intros x Hx.
    apply list_elem_of_singleton in Hx as ->. lra.
  - destruct (IH (Qmax s y)) as [Hin Hle]. split.
    + apply elem_of_cons in Hin as [Hin | Hin]; [| set_solver].
      rewrite Hin. destruct (Qmax_cases s y) as [[-> _] | [-> _]]; set_solver.
    + intros x Hx.
      assert (Hm : (Qmax s y <= foldl Qmax (Qmax s y) rest)%Q)
        by (apply Hle; set_solver).
      apply elem_of_cons in Hx as [-> | Hx];
        [| apply elem_of_cons in Hx as [-> | Hx]].
      * pose proof (Q.le_max_l s y). lra.
      * pose proof (Q.le_max_r s y). lra.
      * apply Hle. set_solver.
Qed.

Lemma elem_of_positive (speeds : list Q) (s : Q) :
  s ∈ List.filter (Qlt_bool 0) speeds <-> s ∈ speeds /\ (0 < s)%Q.
Proof.
  rewrite !list_elem_of_In, filter_In, Qlt_bool_iff. done.
Qed.

(** [speed_min] is the least strictly positive speed, or [0] when no
    speed is strictly positive. *)
Lemma speed_min_spec (speeds : list Q) :
  ((forall s, s ∈ speeds -> ~ (0 < s)%Q) -> speed_min speeds = 0%Q)
  /\ ((exists s, s ∈ speeds /\ (0 < s)%Q) ->
      speed_min speeds ∈ speeds /\ (0 < speed_min speeds)%Q
      /\ forall s, s ∈ speeds -> (0 < s)%Q -> (speed_min speeds <= s)%Q).
Proof.
  unfold speed_min.
  destruct (List.filter (Qlt_bool 0) speeds) as [|p rest] eqn:Hpos.
  - split; [done |]. intros (s & Hs & Hs0).
    assert (s ∈ List.filter (Qlt_bool 0) speeds) by by apply elem_of_positive.
    rewrite Hpos in *. set_solver.
  - destruct (foldl_Qmin_spec rest p) as [Hin Hle].
    rewrite <- Hpos in Hin, Hle. split.
    + intros Hnone. exfalso.
      assert (Hp : p ∈ List.filter (Qlt_bool 0) speeds)
        by (rewrite Hpos; set_solver).
      apply elem_of_positive in Hp as [Hp Hp0]. by apply (Hnone p).
    + intros _. apply elem_of_positive in Hin as [Hin Hin0].
      repeat split; try done.
      intros s Hs Hs0. apply Hle. by apply elem_of_positive.
Qed.

(** [speed_max] is the greatest speed, or [1] for an empty sequence. *)
Lemma speed_max_spec (speeds : list Q) :
  (speeds = [] -> speed_max speeds = 1%Q)
  /\ (speeds <> [] ->
      speed_max speeds ∈ speeds
      /\ forall s, s ∈ speeds -> (s <= speed_max speeds)%Q).
Proof.
  unfold speed_max. destruct speeds as [|s rest]; [done |].
  split; [done |]. intros _. apply foldl_Qmax_spec.
Qed.

Lemma eps_pos : (0 < 1e-10)%Q.
Proof. reflexivity. Qed.

(** The divisor of the normalisation is positive as soon as no speed is
    negative. *)
Lemma normalize_divisor_pos (speeds : list Q) :
  (forall s, s ∈ speeds -> (0 <= s)%Q) ->
  (0 < speed_max speeds - speed_min speeds + 1e-10)%Q.
Proof.
  intros Hnonneg. pose proof eps_pos as Heps. set (eps := 1e-10%Q) in *.
  destruct (speed_min_spec speeds) as [Hnone Hsome].
  destruct (speed_max_spec speeds) as [Hempty Hmax].
  destruct speeds as [|s0 rest].
  - rewrite Hempty by done. rewrite Hnone by set_solver. lra.
  - destruct (Hmax ltac:(done)) as [Hmax_in Hmax_ge].
    destruct (List.filter (Qlt_bool 0) (s0 :: rest)) as [|p ps] eqn:Hpos.
    + rewrite Hnone.
      * specialize (Hnonneg _ Hmax_in). lra.
      * intros s Hs Hs0.
        assert (s ∈ List.filter (Qlt_bool 0) (s0 :: rest))
          by by apply elem_of_positive.
        rewrite Hpos in *. set_solver.
    + assert (Hp : p ∈ List.filter (Qlt_bool 0) (s0 :: rest))
        by (rewrite Hpos; set_solver).
      apply elem_of_positive in Hp as [Hp Hp0].
      destruct (Hsome (ex_intro _ p (conj Hp Hp0))) as (Hmin_in & _ & _).
      specialize (Hmax_ge _ Hmin_in). lra.
Qed.

(** ** The drawn segments *)

Lemma rmap_inv {A B} (f : A -> result B) (l : list A) (bs : list B) :
  rmap f l = ok bs -> Forall2 (fun a b => f a = ok b) l bs.
Proof.
  revert bs. induction l as [|a l IH]; intros bs; simpl.
  - intros [= <-]. constructor.
  - destruct (f a) as [e|b] eqn:Hf; [done |].
    destruct (rmap f l) as [e|bs'] eqn:Hl; [done |].
    intros [= <-]. constructor; [done | by apply IH].
Qed.

Lemma in_reversal_spec (revs : list reversal) (n : nat) (i : Z) :
  in_reversal revs n i = true <->
  exists rev, rev ∈ revs /\ rev_start_idx rev <= i < rev_end_idx rev n.
Proof.
  unfold in_reversal. rewrite existsb_exists. split.
  - intros (rev & Hin & Hb). exists rev. apply list_elem_of_In in Hin.
    apply andb_true_iff in Hb as [H1 H2]. split; [done | lia].
  - intros (rev & Hin & H1 & H2). exists rev. apply list_elem_of_In in Hin.
    split; [done |]. apply andb_true_iff. split; lia.
Qed.

Lemma draw_segment_in_range (td : track_data) (speeds : list Q) (i : nat) :
  (i + 1 < length (xpos td))%nat -> (i + 1 < length (ypos td))%nat ->
  draw_segment td speeds i
  = ok (match speeds !! i with
        | Some s => if Qlt_bool 0 s then Some (segment_at td speeds i s) else None
        | None => None
        end).
Proof.
  intros Hx Hy. unfold draw_segment.
  destruct (speeds !! i) as [s|]; [| done].
  destruct (Qlt_bool 0 s); [| done].
  replace (Z.of_nat i + 1) with (Z.of_nat (i + 1)) by lia.
  rewrite !np_index_in_range by lia. done.
Qed.

(** Whatever [draw_segment] draws is the segment of a positive speed. *)
Lemma draw_segment_Some (td : track_data) (speeds : list Q) (i : nat)
    (seg : segment) :
  draw_segment td speeds i = ok (Some seg) ->
  exists s, speeds !! i = Some s /\ (0 < s)%Q
            /\ seg_index seg = i /\ seg_color seg = segment_color td speeds i s.
Proof.
  unfold draw_segment. destruct (speeds !! i) as [s|]; [| done].
  destruct (Qlt_bool 0 s) eqn:Hs; [| done].
  apply Qlt_bool_iff in Hs. unfold rbind.
  repeat (destruct (np_index _ _); [done |]).
  intros [= <-]. exists s. done.
Qed.

Section Figures.

Variable np_sqrt : Q -> Q.
Hypothesis np_sqrt_nonneg : forall q, (0 <= q)%Q -> (0 <= np_sqrt q)%Q.

Lemma speed_step_nonneg (xpos ypos eti : list Q) (i : nat) (v : Q) :
  speed_step np_sqrt xpos ypos eti i = ok v -> (0 <= v)%Q.
Proof.
  unfold speed_step, rbind.
  repeat (destruct (np_index _ _); [done |]).
  assert (Hval : forall dx dy dt : Q,
    (0 <= (if Qlt_bool 0 dt then np_sqrt (dx ^ 2 + dy ^ 2) / dt * 10 else 0))%Q).
  { intros dx dy dt. destruct (Qlt_bool 0 dt) eqn:Hdt; [| lra].
    apply Qlt_bool_iff in Hdt.
    assert (0 <= np_sqrt (dx ^ 2 + dy ^ 2))%Q
      by (apply np_sqrt_nonneg; simpl; nra).
    apply Qmult_le_0_compat; [| lra].
    apply Qle_shift_div_l; [done | lra]. }
  destruct (_ <? _).
  - repeat (destruct (np_index _ _); [done |]). intros [= <-]. apply Hval.
  - intros [= <-]. exact (Hval _ _ 1%Q).
Qed.

Lemma compute_speeds_nonneg (xpos ypos eti speeds : list Q) :
  compute_speeds np_sqrt xpos ypos eti = ok speeds ->
  forall s, s ∈ speeds -> (0 <= s)%Q.
Proof.
  intros Hc s Hs. apply rmap_inv in Hc.
  apply list_elem_of_lookup in Hs as [k Hk].
  destruct (Forall2_lookup_r _ _ _ _ _ Hc Hk) as (i & _ & Hi).
  by apply speed_step_nonneg in Hi.
Qed.

Lemma trajectory_figure_inv (td : track_data) (fig : trajectory_fig) :
  trajectory_figure np_sqrt td = ok fig ->
  exists speeds drawn,
    compute_speeds np_sqrt (xpos td) (ypos td) (eti td) = ok speeds
    /\ rmap (draw_segment td speeds) (seq 0 (length (xpos td) - 1)) = ok drawn
    /\ tr_segments fig = omap id drawn.
Proof.
  unfold trajectory_figure, rbind.
  destruct (compute_speeds _ _ _ _) as [e|speeds]; [done |].
  destruct (rmap _ _) as [e|drawn] eqn:Hdr; [done |].
  intros [= <-]. exists speeds, drawn. done.
Qed.

(** C3.  Whenever the trajectory renderer builds its figure, the speeds
    it derived have this normalisation range: [speed_min] is the least
    strictly positive speed, or [0] when there is none; [speed_max] is
    the greatest speed, or [1] when there is no speed at all.  The
    divisor [speed_max - speed_min + 1e-10] is strictly positive, so
    no division by zero happens, and the gradient colour of a drawn
    segment [i] is that of
    [(speed[i] - speed_min) / (speed_max - speed_min + 1e-10)]. *)
Theorem normalization_spec (td : track_data) (fig : trajectory_fig) :
  trajectory_figure np_sqrt td = ok fig ->
  exists speeds,
    compute_speeds np_sqrt (xpos td) (ypos td) (eti td) = ok speeds
    /\ ((forall s, s ∈ speeds -> ~ (0 < s)%Q) -> speed_min speeds = 0%Q)
    /\ ((exists s, s ∈ speeds /\ (0 < s)%Q) ->
        speed_min speeds ∈ speeds /\ (0 < speed_min speeds)%Q
        /\ forall s, s ∈ speeds -> (0 < s)%Q -> (speed_min speeds <= s)%Q)
    /\ (speeds = [] -> speed_max speeds = 1%Q)
    /\ (speeds <> [] ->
        speed_max speeds ∈ speeds
        /\ forall s, s ∈ speeds -> (s <= speed_max speeds)%Q)
    /\ (0 < speed_max speeds - speed_min speeds + 1e-10)%Q
    /\ (forall seg v,
          seg ∈ tr_segments fig -> seg_color seg = speed_cmap v ->
          exists s, speeds !! seg_index seg = Some s
            /\ v = ((s - speed_min speeds)
                    / (speed_max speeds - speed_min speeds + 1e-10))%Q).
Proof.
  intros Hfig.
  apply trajectory_figure_inv in Hfig as (speeds & drawn & Hsp & Hdr & Hsegs).
  exists speeds. split; [done |].
  destruct (speed_min_spec speeds) as [Hmin0 Hmin].
  destruct (speed_max_spec speeds) as [Hmax1 Hmax].
  do 4 (split; [done |]). split.
  - apply normalize_divisor_pos. by eapply compute_speeds_nonneg.
  - intros seg v Hseg Hcol. rewrite Hsegs in Hseg.
    apply list_elem_of_omap in Hseg as (d & Hd & Hid). simpl in Hid. subst d.
    apply rmap_inv in Hdr. apply list_elem_of_lookup in Hd as [k Hk].
    destruct (Forall2_lookup_r _ _ _ _ _ Hdr Hk) as (i & _ & Hi).
    apply draw_segment_Some in Hi as (s & Hs & _ & Hidx & Hc).
    exists s. rewrite Hidx. split; [done |].
    rewrite Hc in Hcol. unfold segment_color in Hcol.
    destruct (in_reversal _ _ _); [done |]. by injection Hcol as <-.
Qed.

(** C4, as the code has it.  For position series of length [M] the
    trajectory renderer builds its figure, and of the segments
    [0 .. M-2] it draws exactly those whose speed is strictly positive:
    such a segment is drawn in the fixed reversal colour when some
    reversal window, qualified or not, has [start_idx <= i < end_idx],
    and in the gradient colour of its normalised speed otherwise; a
    segment whose speed is zero is not drawn. *)
Theorem trajectory_segments_spec (td : track_data) (M : nat) :
  length (xpos td) = M -> length (ypos td) = M ->
  exists speeds fig,
    compute_speeds np_sqrt (xpos td) (ypos td) (eti td) = ok speeds
    /\ trajectory_figure np_sqrt td = ok fig
    /\ (forall i s,
          (i < M - 1)%nat -> speeds !! i = Some s -> (0 < s)%Q ->
          exists seg, seg ∈ tr_segments fig /\ seg_index seg = i
            /\ ((exists rev, rev ∈ reversals td
                   /\ rev_start_idx rev <= Z.of_nat i < rev_end_idx rev M) ->
                seg_color seg = uv_color)
            /\ (~ (exists rev, rev ∈ reversals td
                   /\ rev_start_idx rev <= Z.of_nat i < rev_end_idx rev M) ->
                seg_color seg = speed_cmap (normalize speeds s)))
    /\ (forall seg,
          seg ∈ tr_segments fig ->
          (seg_index seg < M - 1)%nat
          /\ exists s, speeds !! seg_index seg = Some s /\ (0 < s)%Q
               /\ seg = segment_at td speeds (seg_index seg) s).
Proof.
  intros Hx Hy.
  set (speeds := map (spec_speed np_sqrt (xpos td) (ypos td) (eti td))
                   (seq 0 (M - 1))).
  set (spec := fun i =>
         match speeds !! i with
         | Some s => if Qlt_bool 0 s then Some (segment_at td speeds i s) else None
         | None => None
         end).
  assert (Hsp : compute_speeds np_sqrt (xpos td) (ypos td) (eti td) = ok speeds).
  { unfold compute_speeds. rewrite Hx. apply rmap_ok.
    intros i Hi. apply elem_of_seq in Hi. apply speed_step_in_range; lia. }
  assert (Hdr : rmap (draw_segment td speeds) (seq 0 (M - 1))
                = ok (map spec (seq 0 (M - 1)))).
  { apply rmap_ok. intros i Hi. apply elem_of_seq in Hi.
    apply draw_segment_in_range; lia. }
  exists speeds,
    (TrajectoryFig (omap id (map spec (seq 0 (M - 1))))
       ("Track " +:+ pretty (track_num td) +:+ " - Trajectory")).
  split; [done |]. split.
  { unfold trajectory_figure. rewrite Hsp. simpl. rewrite Hx, Hdr. done. }
  simpl. split.
  - intros i s Hi Hs Hpos. exists (segment_at td speeds i s).
    split; [| split; [done |]].
    + apply list_elem_of_omap. exists (Some (segment_at td speeds i s)).
      split; [| done]. apply list_elem_of_fmap. exists i.
      split; [| apply elem_of_seq; lia].
      unfold spec. rewrite Hs.
      apply Qlt_bool_iff in Hpos. by rewrite Hpos.
    + simpl. unfold segment_color. rewrite Hx.
      destruct (in_reversal (reversals td) M (Z.of_nat i)) eqn:Hin.
      * split; [done |]. intros Hno. exfalso. apply Hno.
        by apply in_reversal_spec.
      * split; [| done]. intros Hyes.
        apply in_reversal_spec in Hyes. congruence.
  - intros seg Hseg.
    apply list_elem_of_omap in Hseg as (d & Hd & Hid). simpl in Hid. subst d.
    apply list_elem_of_fmap in Hd as (i & Hi & Hrange).
    apply elem_of_seq in Hrange. unfold spec in Hi.
    destruct (speeds !! i) as [s|] eqn:Hs; [| done].
    destruct (Qlt_bool 0 s) eqn:Hpos; [| done].
    injection Hi as ->. simpl. split; [lia |].
    exists s. apply Qlt_bool_iff in Hpos. done.
Qed.

End Figures.

(** ** Concrete runs of the renderer *)

Lemma approx_sqrt_nonneg (q : Q) : (0 <= q)%Q -> (0 <= approx_sqrt q)%Q.
Proof.
  intros _. unfold approx_sqrt. rewrite Qred_correct.
  pose proof (Z.sqrt_nonneg (Qfloor (q * 1000000000000))).
  unfold Qle. cbn [Qnum Qden]. lia.
Qed.

Lemma compute_speeds_spec_witness :
  exists speeds,
    compute_speeds approx_sqrt [0; 3; 3]%Q [0; 4; 4]%Q [0; 1; 2]%Q = ok speeds
    /\ length speeds = (3 - 1)%nat
    /\ (forall i, (i < 3 - 1)%nat ->
          speeds !! i
          = Some (spec_speed approx_sqrt [0; 3; 3]%Q [0; 4; 4]%Q [0; 1; 2]%Q i))
    /\ (forall s, s ∈ speeds -> (0 <= s)%Q).
Proof.
  apply (compute_speeds_spec approx_sqrt approx_sqrt_nonneg
           [0; 3; 3]%Q [0; 4; 4]%Q [0; 1; 2]%Q 3); reflexivity.
Defined.

Example speeds_of_track_five :
  compute_speeds approx_sqrt [0; 3; 3]%Q [0; 4; 4]%Q [0; 1; 2]%Q = ok [50; 0]%Q.
Proof. reflexivity. Qed.

Lemma normalization_spec_witness :
  exists speeds,
    compute_speeds approx_sqrt (xpos track_five) (ypos track_five)
      (eti track_five) = ok speeds
    /\ (0 < speed_max speeds - speed_min speeds + 1e-10)%Q.
Proof.
  destruct (normalization_spec approx_sqrt approx_sqrt_nonneg
              track_five trajectory_five) as (speeds & Hsp & H);
    [reflexivity |].
  exists speeds. split; [exact Hsp |]. apply H.
Defined.

Lemma trajectory_segments_spec_witness :
  exists speeds fig,
    compute_speeds approx_sqrt (xpos track_five) (ypos track_five)
      (eti track_five) = ok speeds
    /\ trajectory_figure approx_sqrt track_five = ok fig.
Proof.
  destruct (trajectory_segments_spec approx_sqrt track_five 3) as (speeds & fig & Hsp & Hfig & _);
    [reflexivity | reflexivity |].
  exists speeds, fig. split; [exact Hsp | exact Hfig].
Defined.

(** In [track_five] the position does not change between samples 1 and
    2: segment 1 has speed [0] and is left out of the figure. *)
Lemma not_every_segment_is_drawn :
  ~ draws_every_segment approx_sqrt track_five.
Proof.
  intros (fig & Hfig & Hall).
  assert (Hrun : trajectory_figure approx_sqrt track_five = ok trajectory_five)
    by reflexivity.
  rewrite Hrun in Hfig. injection Hfig as <-.
  destruct (Hall 1%nat) as (seg & Hin & Hidx); [simpl; lia |].
  unfold trajectory_five in Hin. simpl in Hin.
  apply list_elem_of_singleton in Hin. subst seg. simpl in Hidx. lia.
Qed.

(** ** Effects on the file tree *)

Lemma preserves_refl (S : path) (w : world) : preserves S w w.
Proof.
  split; [done |]. split; [done |].
  exists []. split; [by rewrite app_nil_r | set_solver].
Qed.

Lemma preserves_trans (S : path) (w1 w2 w3 : world) :
  preserves S w1 w2 -> preserves S w2 w3 -> preserves S w1 w3.
Proof.
  intros (Hfs1 & Hd1 & evs1 & Ht1 & Hn1) (Hfs2 & Hd2 & evs2 & Ht2 & Hn2).
  split; [congruence |]. split; [auto |].
  exists (evs1 ++ evs2). split.
  - by rewrite Ht2, Ht1, app_assoc.
  - set_solver.
Qed.

Lemma keeps_mret {A} (S : path) (a : A) : keeps S (mret a).
Proof. intros w. apply preserves_refl. Qed.

Lemma keeps_lift {A} (S : path) (r : result A) : keeps S (lift r).
Proof. intros w. apply preserves_refl. Qed.

Lemma keeps_mbind {A B} (S : path) (c : M A) (f : A -> M B) :
  keeps S c -> (forall a, keeps S (f a)) -> keeps S (mbind c f).
Proof.
  intros Hc Hf w. unfold mbind. specialize (Hc w).
  destruct (c w) as [[e|a] w1]; simpl in *; [done |].
  eapply preserves_trans; [done | apply Hf].
Qed.

Lemma keeps_mfor {A} (S : path) (l : list A) (body : A -> M unit) :
  (forall a, keeps S (body a)) -> keeps S (mfor l body).
Proof.
  intros Hbody. induction l as [|a l IH]; simpl.
  - apply keeps_mret.
  - apply keeps_mbind; [apply Hbody | done].
Qed.

Lemma keeps_emit_load (S d : path) : keeps S (emit (EvLoad d)).
Proof.
  intros w. simpl. split; [done |]. split; [done |].
  exists [EvLoad d]. split; [done | set_solver].
Qed.

Lemma is_dir_insert_Dir (w : world) (p q : path) (evs : list event) :
  is_dir w q = true -> is_dir (World (<[p := Dir]> (fs w)) evs) q = true.
Proof.
  unfold is_dir, lookup_node. destruct q as [|x q]; [done |]. cbn [fs].
  intros Hq. destruct (decide (p = x :: q)) as [-> | Hne].
  - by rewrite lookup_insert_eq.
  - by rewrite lookup_insert_ne.
Qed.

Lemma keeps_mkdir_exist_ok (S p : path) : p <> S -> keeps S (mkdir_exist_ok p).
Proof.
  intros Hne w. unfold mkdir_exist_ok.
  destruct (lookup_node w p) as [[|c]|]; simpl; try apply preserves_refl.
  destruct (lookup_node w (parent p)) as [[|c]|]; simpl;
    try apply preserves_refl.
  split; [cbn [fs]; by rewrite lookup_insert_ne |].
  split; [intros q; apply is_dir_insert_Dir |].
  exists [EvMkdir p]. split; [done | set_solver].
Qed.

Lemma keeps_write_file (S p : path) (c : content) :
  p <> S -> keeps S (write_file p c).
Proof.
  intros Hne w. unfold write_file.
  assert (Hw : lookup_node w p <> Some Dir ->
    preserves S w
      (match lookup_node w (parent p) with
       | Some Dir =>
           (ok tt, World (<[p := File c]> (fs w)) (trace w ++ [EvWrite p]))
       | Some (File _) =>
           (raise NotADirectoryError ("Not a directory: " +:+ path_str p), w)
       | None =>
           (raise FileNotFoundError
              ("No such file or directory: " +:+ path_str p), w)
       end).2).
  { intros Hnd.
    destruct (lookup_node w (parent p)) as [[|c']|]; simpl;
      try apply preserves_refl.
    split; [cbn [fs]; by rewrite lookup_insert_ne |]. split.
    - intros q Hq. unfold is_dir, lookup_node in *.
      destruct q as [|x q]; [done |]. cbn [fs].
      destruct (decide (p = x :: q)) as [-> | Hpq].
      + exfalso. apply Hnd. by destruct (fs w !! (x :: q)) as [[|]|].
      + by rewrite lookup_insert_ne.
    - exists [EvWrite p]. split; [done |].
      intros Hin. apply list_elem_of_singleton in Hin. congruence. }
  destruct (lookup_node w p) as [[|c']|] eqn:Hp.
  - apply preserves_refl.
  - by apply Hw.
  - by apply Hw.
Qed.

Lemma keeps_load_track_data (S d : path) : keeps S (load_track_data d).
Proof.
  unfold load_track_data. apply keeps_mbind; [apply keeps_emit_load |].
  intros _ w.
  destruct (negb _); [apply preserves_refl |].
  destruct (lookup_node w _) as [[|[]]|]; apply preserves_refl.
Qed.

Lemma grandchild_ne_child (F : path) (a b c : string) :
  child (child F a) b <> child F c.
Proof.
  unfold child. intros H. apply (f_equal length) in H.
  rewrite !length_app in H. simpl in H. lia.
Qed.

Lemma track_dir_ne_summary (F : path) (name : string) :
  child F ("track" +:+ name) <> child F "summary.json".
Proof.
  unfold child. intros H. apply app_inv_head in H.
  injection H as H. cbv in H. discriminate H.
Qed.

Lemma keeps_plot_reversal_closeup (S : path) (td : track_data) (idx : Z)
    (out : path) :
  out <> S -> keeps S (plot_reversal_closeup td idx out).
Proof.
  intros Hne. unfold plot_reversal_closeup.
  destruct (_ <=? _); [apply keeps_mret |].
  apply keeps_mbind; [apply keeps_lift |]. intros rev.
  apply keeps_mbind; [apply keeps_lift |]. intros _.
  apply keeps_mbind; [apply keeps_lift |]. intros _.
  by apply keeps_write_file.
Qed.

Lemma unit_writesb_spec (n : Z) (F p : path) :
  unit_writesb n F p = true <-> unit_writes n F p.
Proof.
  unfold unit_writesb, unit_writes. rewrite orb_true_iff, andb_true_iff.
  rewrite !bool_decide_eq_true. split.
  - intros [-> | [Hp Hx]]; [by left | right]. eauto.
  - intros [-> | (x & Hx & ->)]; [by left | right].
    assert (Hl : List.last (child (child F (track_name n)) x) EmptyString = x)
      by (unfold child; apply last_last).
    by rewrite Hl.
Qed.

Lemma prefix_app (s t : string) : String.prefix s (s +:+ t) = true.
Proof.
  induction s as [|c s IH]; [by destruct t |].
  change (String.prefix (String c s) (String c (s +:+ t)) = true).
  simpl. destruct (ascii_dec c c); [exact IH | done].
Qed.

Lemma figure_name_closeup (t : string) :
  figure_name ("reversal" +:+ t) = true.
Proof. unfold figure_name. apply orb_true_iff. right. apply prefix_app. Qed.


Section Frame.

Variable np_sqrt : Q -> Q.

Lemma keeps_process_body_outside (S F : path) (n : Z) (d : path) :
  ~ unit_writes n F S -> keeps S (process_body np_sqrt n d F).
Proof.
  intros Hout.
  assert (Hdir : child F (track_name n) <> S)
    by (intros <-; apply Hout; by left).
  assert (Hfig : forall x, figure_name x = true ->
                 child (child F (track_name n)) x <> S).
  { intros x Hx <-. apply Hout. right. eauto. }
  unfold process_body.
  apply keeps_mbind; [apply keeps_load_track_data |]. intros data.
  apply keeps_mbind; [by apply keeps_mkdir_exist_ok |]. intros _.
  apply keeps_mbind.
  { unfold plot_dot_product. apply keeps_mbind; [apply keeps_lift |].
    intros _. by apply keeps_write_file, Hfig. }
  intros _. apply keeps_mbind.
  { unfold plot_trajectory. apply keeps_mbind; [apply keeps_lift |].
    intros fig. by apply keeps_write_file, Hfig. }
  intros _. apply keeps_mbind; [| intros _; apply keeps_mret].
  apply keeps_mfor. intros r_idx.
  apply keeps_plot_reversal_closeup, Hfig, figure_name_closeup.
Qed.

Lemma keeps_process_body (F : path) (n : Z) (d : path) :
  keeps (child F "summary.json") (process_body np_sqrt n d F).
Proof.
  apply keeps_process_body_outside. intros [H | (x & _ & H)].
  - symmetry in H. by apply track_dir_ne_summary in H.
  - symmetry in H. by apply grandchild_ne_child in H.
Qed.

Lemma preserves_process_single_track (R F : path) (n : Z) (w : world) :
  preserves (child F "summary.json") w
    (process_single_track np_sqrt (n, R, F) w).2.
Proof.
  unfold process_single_track.
  destruct (negb _); [apply preserves_refl |].
  pose proof (keeps_process_body F n (child R ("track" +:+ pretty n)) w) as H.
  destruct (process_body _ _ _ _ _) as [[e|data] w']; exact H.
Qed.

Lemma preserves_collect (R F : path) (tracks : list Z) (c : completion)
    (results : list outcome) (w : world) :
  preserves (child F "summary.json") w
    (collect np_sqrt (map (fun t => (t, R, F)) tracks) c (results, w)).2.
Proof.
  unfold collect. rewrite list_lookup_fmap.
  destruct (tracks !! c_task c) as [t|]; cbn -[process_single_track];
    [| apply preserves_refl].
  destruct (c_collected c); [| apply preserves_refl].
  pose proof (preserves_process_single_track R F t w) as H.
  destruct (process_single_track _ _ _) as [o w']; exact H.
Qed.

Lemma preserves_collect_all (R F : path) (tracks : list Z)
    (schedule : list completion) (results : list outcome) (w : world) :
  preserves (child F "summary.json") w
    (foldl (flip (collect np_sqrt (map (fun t => (t, R, F)) tracks)))
       (results, w) schedule).2.
Proof.
  revert results w. induction schedule as [|c schedule IH]; intros results w.
  - apply preserves_refl.
  - cbn [foldl]. unfold flip at 2.
    pose proof (preserves_collect R F tracks c results w) as H.
    destruct (collect _ _ _ _) as [results' w'].
    eapply preserves_trans; [exact H | apply IH].
Qed.

End Frame.

(** ** Creating the output root and writing files *)

Lemma parent_child (p : path) (name : string) : parent (child p name) = p.
Proof. unfold parent, child. apply removelast_last. Qed.

Lemma lookup_node_child (w : world) (p : path) (name : string) :
  lookup_node w (child p name) = fs w !! child p name.
Proof. unfold lookup_node, child. by destruct p. Qed.

Lemma write_file_ok (p : path) (c : content) (w : world) :
  lookup_node w p <> Some Dir ->
  is_dir w (parent p) = true ->
  write_file p c w
  = (ok tt, World (<[p := File c]> (fs w)) (trace w ++ [EvWrite p])).
Proof.
  intros Hp Hparent. unfold write_file, is_dir in *.
  destruct (lookup_node w (parent p)) as [[|c']|]; try done.
  by destruct (lookup_node w p) as [[|c']|].
Qed.

Lemma mkdir_exist_ok_is_dir (p : path) (w w' : world) :
  mkdir_exist_ok p w = (ok tt, w') -> is_dir w' p = true.
Proof.
  unfold mkdir_exist_ok, is_dir.
  destruct (lookup_node w p) as [[|c]|] eqn:Hp.
  - intros [= <-]. by rewrite Hp.
  - done.
  - destruct (lookup_node w (parent p)) as [[|c]|]; try done.
    intros [= <-]. unfold lookup_node in *. destruct p as [|x p]; [done |].
    cbn [fs]. by rewrite lookup_insert_eq.
Qed.

Lemma mfor_app {A} (l1 l2 : list A) (body : A -> M unit) (w : world) :
  mfor (l1 ++ l2) body w = mbind (mfor l1 body) (fun _ => mfor l2 body) w.
Proof.
  revert w. induction l1 as [|a l1 IH]; intros w; simpl.
  - done.
  - unfold mbind. destruct (body a w) as [[e|[]] w1]; [done |].
    by rewrite IH.
Qed.

Lemma mkdir_parents_is_dir (p : path) (w w' : world) :
  mkdir_parents p w = (ok tt, w') -> is_dir w' p = true.
Proof.
  unfold mkdir_parents. destruct (length p) as [|n] eqn:Hlen.
  - destruct p; [| done]. done.
  - rewrite seq_S, mfor_app. unfold mbind at 1.
    destruct (mfor (seq 1 n) _ w) as [[e|[]] w1]; [done |].
    simpl. unfold mbind.
    destruct (mkdir_exist_ok _ w1) as [[e|[]] w2] eqn:Hmk; [done |].
    intros [= <-]. apply mkdir_exist_ok_is_dir in Hmk.
    by rewrite <- Hlen, firstn_all in Hmk.
Qed.

Lemma keeps_mkdir_parents (F : path) (name : string) :
  keeps (child F name) (mkdir_parents F).
Proof.
  unfold mkdir_parents. apply keeps_mfor. intros n.
  apply keeps_mkdir_exist_ok. intros H. apply (f_equal length) in H.
  unfold child in H. rewrite length_app, length_take in H. simpl in H. lia.
Qed.

(** ** The orchestrator *)

Lemma omap_lookup_seq {A} (l pre : list A) (k : nat) :
  length pre = k ->
  omap (fun i => (pre ++ l) !! i) (seq k (length l)) = l.
Proof.
  revert pre k. induction l as [|x l IH]; intros pre k Hk; [done |].
  simpl. rewrite list_lookup_middle by done. f_equal.
  rewrite (cons_middle x pre l). rewrite app_assoc. apply IH.
  rewrite length_app. simpl. lia.
Qed.

Section Orchestrator.

Variable np_sqrt : Q -> Q.

Lemma process_single_track_track_num (n : Z) (R F : path) (w : world) :
  o_track_num (process_single_track np_sqrt (n, R, F) w).1 = n.
Proof.
  unfold process_single_track. destruct (negb _); [done |].
  by destruct (process_body _ _ _ _ _) as [[e|data] w'].
Qed.

(** Every completed future adds exactly one outcome, that of its unit. *)
Lemma collect_all_outcomes (R F : path) (tracks : list Z)
    (schedule : list completion) (results : list outcome) (w : world) :
  Forall (fun c => (c_task c < length tracks)%nat) schedule ->
  exists new,
    (foldl (flip (collect np_sqrt (map (fun t => (t, R, F)) tracks)))
       (results, w) schedule).1 = results ++ new
    /\ Forall2 (fun c o => tracks !! c_task c = Some (o_track_num o))
         schedule new.
Proof.
  revert results w. induction schedule as [|c schedule IH];
    intros results w Hvalid.
  - exists []. split; [by rewrite app_nil_r | constructor].
  - apply Forall_cons in Hvalid as [Hc Hvalid].
    cbn [foldl]. unfold flip at 2. unfold collect at 2.
    rewrite list_lookup_fmap.
    destruct (lookup_lt_is_Some_2 tracks (c_task c) Hc) as [t Ht].
    rewrite Ht. cbn -[process_single_track].
    destruct (c_collected c).
    + pose proof (process_single_track_track_num t R F w) as Hnum.
      destruct (process_single_track _ _ _) as [o w'].
      destruct (IH (results ++ [o]) w' Hvalid) as (new & Hnew & Hall).
      exists (o :: new). split.
      * by rewrite Hnew, <- app_assoc.
      * constructor; [by rewrite <- Hnum in Ht | done].
    + destruct (IH (results ++ [Outcome t exception None 0]) w Hvalid)
        as (new & Hnew & Hall).
      exists (Outcome t exception None 0 :: new). split.
      * by rewrite Hnew, <- app_assoc.
      * by constructor.
Qed.

Lemma outcomes_cover_tracks (tracks : list Z) (schedule : list completion)
    (new : list outcome) :
  map c_task schedule ≡ₚ seq 0 (length tracks) ->
  Forall2 (fun c o => tracks !! c_task c = Some (o_track_num o)) schedule new ->
  map o_track_num new ≡ₚ tracks.
Proof.
  intros Hperm Hall.
  assert (Hmap : omap (fun i => tracks !! i) (map c_task schedule)
                 = map o_track_num new).
  { clear Hperm. induction Hall as [|c o schedule new Hc _ IH]; [done |].
    simpl. rewrite Hc. f_equal. exact IH. }
  rewrite <- Hmap. rewrite Hperm.
  pose proof (omap_lookup_seq tracks [] 0 eq_refl) as Hseq.
  simpl in Hseq. by rewrite Hseq.
Qed.

(** Every outcome the loop collects is the outcome its unit returned, or
    the [exception] outcome of a unit whose worker was lost. *)
Lemma collect_all_units (R F : path) (tracks : list Z)
    (schedule : list completion) (results : list outcome) (w : world) :
  exists new,
    (foldl (flip (collect np_sqrt (map (fun t => (t, R, F)) tracks)))
       (results, w) schedule).1 = results ++ new
    /\ Forall (fun o =>
                 exists t, t ∈ tracks
                   /\ ((exists w0, o = (process_single_track np_sqrt (t, R, F) w0).1)
                       \/ o = Outcome t exception None 0)) new.
Proof.
  revert results w. induction schedule as [|c schedule IH]; intros results w.
  - exists []. split; [by rewrite app_nil_r | constructor].
  - cbn [foldl]. unfold flip at 2. unfold collect at 2.
    rewrite list_lookup_fmap.
    destruct (tracks !! c_task c) as [t|] eqn:Ht;
      cbn -[process_single_track]; [| apply IH].
    apply list_elem_of_lookup_2 in Ht.
    destruct (c_collected c).
    + destruct (process_single_track np_sqrt (t, R, F) w) as [o w'] eqn:Ho.
      destruct (IH (results ++ [o]) w') as (new & Hnew & Hall).
      exists (o :: new). split; [by rewrite Hnew, <- app_assoc |].
      constructor; [| done]. exists t. split; [done |]. left.
      exists w. by rewrite Ho.
    + destruct (IH (results ++ [Outcome t exception None 0]) w)
        as (new & Hnew & Hall).
      exists (Outcome t exception None 0 :: new).
      split; [by rewrite Hnew, <- app_assoc |].
      constructor; [| done]. exists t. split; [done |]. by right.
Qed.

(** C7, as the code has it.  Take a run whose output root can be created
    and whose track set resolves to [tracks].

    When [tracks] is empty the run returns at once, in the world the
    creation of the output root left: nothing was written to the summary
    path, which holds what it held before the run.

    When [tracks] is not empty and the summary path is not a directory,
    the run returns normally and its last effect is the one write to the
    summary path, after the loop over the completed units, so whatever
    was stored there before is replaced.  The summary holds the outcome
    sequence that loop built ([collect_all]), in the order of completion,
    together with the sum of its reversal counts; every outcome in it is
    the outcome of the unit of one of the tracks, or the [exception]
    outcome of a unit whose worker was lost; and when the pool completes
    every submitted unit once, in any order, there is one outcome per
    track. *)
Theorem summary_written_once (R F : path) (arg : option (list Z))
    (tracks : list Z) (schedule : list completion) (w w1 : world) :
  mkdir_parents F w = (ok tt, w1) ->
  arg = Some tracks \/ (arg = None /\ discover_tracks R w1 = (ok tracks, w1)) ->
  let out := child F "summary.json" in
  let run := generate_all_figures np_sqrt R F arg schedule w in
  let units :=
    collect_all np_sqrt (map (fun t => (t, R, F)) tracks) schedule w1 in
  let results := units.1 in
  (tracks = [] ->
   run = (ok tt, w1)
   /\ fs w1 !! out = fs w !! out
   /\ exists evs, trace w1 = trace w ++ evs /\ EvWrite out ∉ evs)
  /\ (tracks <> [] -> lookup_node w out <> Some Dir ->
      run = (ok tt,
             World (<[out := File (Json (Summary results (total_revs results)))]>
                      (fs units.2))
               (trace units.2 ++ [EvWrite out]))
      /\ (exists evs, trace units.2 = trace w ++ evs /\ EvWrite out ∉ evs)
      /\ Forall (fun o =>
                   exists t, t ∈ tracks
                     /\ ((exists w0,
                            o = (process_single_track np_sqrt (t, R, F) w0).1)
                         \/ o = Outcome t exception None 0)) results
      /\ (map c_task schedule ≡ₚ seq 0 (length tracks) ->
          length results = length tracks
          /\ map o_track_num results ≡ₚ tracks)).
Proof.
  intros Hmk Harg. cbv zeta.
  set (out := child F "summary.json").
  pose proof (keeps_mkdir_parents F "summary.json" w) as Hroot.
  rewrite Hmk in Hroot. simpl in Hroot. fold out in Hroot.
  assert (Hresolved :
    (match arg with
     | Some ts => mret ts
     | None => discover_tracks R
     end) w1 = (ok tracks, w1)).
  { destruct Harg as [-> | [-> Hd]]; [done | exact Hd]. }
  split.
  - intros ->. split; [| split].
    + unfold generate_all_figures, mbind. rewrite Hmk, Hresolved. done.
    + apply Hroot.
    + apply Hroot.
  - intros Hne Hnd.
    pose proof (preserves_collect_all np_sqrt R F tracks schedule [] w1)
      as Hunits.
    fold out in Hunits.
    destruct (collect_all_units R F tracks schedule [] w1)
      as (new & Hnew & Hall).
    unfold collect_all.
    destruct (foldl _ _ schedule) as [results w2] eqn:Hfold.
    cbn [fst snd] in *. rewrite app_nil_l in Hnew. subst new.
    destruct (preserves_trans _ _ _ _ Hroot Hunits)
      as (Hfs & Hdirs & evs & Htr & Hno).
    split; [| split; [by exists evs | split; [done |]]].
    + unfold generate_all_figures, mbind. rewrite Hmk, Hresolved.
      destruct tracks as [|t tracks']; [done |].
      unfold ok, collect_all. cbv beta iota zeta. fold out. rewrite Hfold.
      apply write_file_ok.
      * unfold out in *. rewrite lookup_node_child in *. by rewrite Hfs.
      * unfold out. rewrite parent_child.
        destruct Hunits as (_ & Hd & _). apply Hd.
        by apply (mkdir_parents_is_dir F w).
    + intros Hperm.
      assert (Hvalid :
        Forall (fun c => (c_task c < length tracks)%nat) schedule).
      { apply Forall_forall. intros c Hc.
        assert (Hin : c_task c ∈ seq 0 (length tracks))
          by (rewrite <- Hperm; apply list_elem_of_fmap; eauto).
        apply elem_of_seq in Hin. lia. }
      destruct (collect_all_outcomes R F tracks schedule [] w1 Hvalid)
        as (new & Hres & Hcover).
      rewrite Hfold in Hres. cbn [fst] in Hres. rewrite app_nil_l in Hres.
      subst new.
      pose proof (outcomes_cover_tracks tracks schedule results Hperm Hcover)
        as Htracks.
      split; [| done].
      rewrite <- (length_map o_track_num results).
      by rewrite (Permutation_length Htracks).
Qed.

End Orchestrator.

(** ** The unit of work *)

Lemma mbind_inr {A B} (c : M A) (f : A -> M B) (w w' : world) (b : B) :
  mbind c f w = (inr b, w') ->
  exists a w1, c w = (inr a, w1) /\ f a w1 = (inr b, w').
Proof.
  unfold mbind. destruct (c w) as [[e|a] w1]; [done |].
  intros H. by exists a, w1.
Qed.

Lemma load_track_data_missing (d : path) (w : world) :
  path_exists w (child d "track_data.h5") = false ->
  load_track_data d w
  = (raise FileNotFoundError ("No track_data.h5 found in " +:+ path_str d),
     World (fs w) (trace w ++ [EvLoad d])).
Proof.
  intros Hmiss. unfold load_track_data, mbind, emit.
  unfold path_exists, lookup_node in *. cbn [fs].
  destruct (child d "track_data.h5") as [|x p] eqn:Hc; [done |].
  by destruct (fs w !! (x :: p)).
Qed.

Lemma length_omap_le {A B} (f : A -> option B) (l : list A) :
  (length (omap f l) <= length l)%nat.
Proof.
  induction l as [|a l IH]; simpl; [done |].
  destruct (f a); simpl; [apply le_n_S | apply le_S]; exact IH.
Qed.

Section Unit.

Variable np_sqrt : Q -> Q.

Lemma process_body_loads (n : Z) (d F : path) (w w' : world)
    (data : track_data) :
  process_body np_sqrt n d F w = (inr data, w') ->
  exists w0, load_track_data d w = (inr data, w0).
Proof.
  unfold process_body. intros H.
  apply mbind_inr in H as (data0 & w0 & Hload & H).
  do 4 apply mbind_inr in H as (? & ? & _ & H).
  injection H as <- _. by exists w0.
Qed.

(** C5, as the code has it.  A unit never raises: it returns an outcome.
    When the track directory is missing the outcome is [not_found] with
    no reversals and the world is untouched, so the loader was not
    called.  When the directory exists but holds no [track_data.h5], the
    loader is called and raises, and the outcome is [error] with the
    loader's message and no reversals.  Whatever exception the body of
    the unit raises, the outcome is [error] with the text of that
    exception and no reversals. *)
Theorem process_single_track_failures (n : Z) (R F : path) (w : world) :
  let track_dir := child R ("track" +:+ pretty n) in
  (path_exists w track_dir = false ->
   process_single_track np_sqrt (n, R, F) w = (Outcome n not_found None 0, w))
  /\ (path_exists w track_dir = true ->
      path_exists w (child track_dir "track_data.h5") = false ->
      process_single_track np_sqrt (n, R, F) w
      = (Outcome n error
           (Some ("No track_data.h5 found in " +:+ path_str track_dir)) 0,
         World (fs w) (trace w ++ [EvLoad track_dir])))
  /\ (forall e w',
        path_exists w track_dir = true ->
        process_body np_sqrt n track_dir F w = (inl e, w') ->
        process_single_track np_sqrt (n, R, F) w
        = (Outcome n error (Some (str e)) 0, w')).
Proof.
  intros track_dir. unfold process_single_track. fold track_dir.
  split; [| split].
  - by intros ->.
  - intros -> Hmiss. cbn [negb].
    unfold process_body, mbind at 1.
    by rewrite (load_track_data_missing _ _ Hmiss).
  - intros e w' -> Hbody. cbn [negb]. by rewrite Hbody.
Qed.

(** C8, as the code has it.  For a successfully processed track the
    reversal count of the outcome is the number of all reversal windows
    the loader returned for the track, whether they meet the 3-second
    threshold or not; the number of qualified windows is at most that. *)
Theorem reversal_count_is_all_windows (n : Z) (R F : path) (w w' : world)
    (data : track_data) :
  let track_dir := child R ("track" +:+ pretty n) in
  path_exists w track_dir = true ->
  process_body np_sqrt n track_dir F w = (inr data, w') ->
  process_single_track np_sqrt (n, R, F) w
  = (Outcome n success None (length (reversals data)), w')
  /\ (exists w0, load_track_data track_dir w = (inr data, w0))
  /\ (length (reversal_table_data (times data) (reversals data))
      <= length (reversals data))%nat.
Proof.
  intros track_dir Hdir Hbody. split; [| split].
  - unfold process_single_track. fold track_dir.
    rewrite Hdir. cbn [negb]. by rewrite Hbody.
  - by apply process_body_loads in Hbody.
  - unfold reversal_table_data. apply length_omap_le.
Qed.

End Unit.

(** ** What a unit looks at and what it changes *)

Lemma agree_lookup_node (P : path -> Prop) (w w' : world) (p : path) :
  agree P w w' -> P p -> lookup_node w p = lookup_node w' p.
Proof. intros Hag Hp. unfold lookup_node. destruct p; [done | by apply Hag]. Qed.

Lemma agree_insert (P : path -> Prop) (w w' : world) (p : path) (x : node)
    (t t' : list event) :
  agree P w w' ->
  agree P (World (<[p := x]> (fs w)) t) (World (<[p := x]> (fs w')) t').
Proof.
  intros Hag q Hq. cbn [fs]. destruct (decide (p = q)) as [-> | Hne].
  - by rewrite !lookup_insert_eq.
  - rewrite !lookup_insert_ne by done. by apply Hag.
Qed.

Lemma determined_mret {A} (P : path -> Prop) (a : A) : determined P (mret a).
Proof. by intros w w' Hag. Qed.

Lemma determined_lift {A} (P : path -> Prop) (r : result A) :
  determined P (lift r).
Proof. by intros w w' Hag. Qed.

Lemma determined_emit (P : path -> Prop) (ev : event) : determined P (emit ev).
Proof. by intros w w' Hag. Qed.

Lemma determined_mbind {A B} (P : path -> Prop) (c : M A) (f : A -> M B) :
  determined P c -> (forall a, determined P (f a)) -> determined P (mbind c f).
Proof.
  intros Hc Hf w w' Hag. unfold mbind.
  destruct (Hc w w' Hag) as [Hr Hag'].
  destruct (c w) as [[e|a] w1], (c w') as [[e'|a'] w1']; simpl in *;
    simplify_eq; [done |].
  by apply Hf.
Qed.

Lemma determined_mfor {A} (P : path -> Prop) (l : list A) (body : A -> M unit) :
  (forall a, determined P (body a)) -> determined P (mfor l body).
Proof.
  intros Hbody. induction l as [|a l IH]; simpl.
  - apply determined_mret.
  - apply determined_mbind; [apply Hbody | done].
Qed.

Lemma determined_mkdir_exist_ok (P : path -> Prop) (p : path) :
  P p -> P (parent p) -> determined P (mkdir_exist_ok p).
Proof.
  intros Hp Hpar w w' Hag. unfold mkdir_exist_ok.
  rewrite <- (agree_lookup_node P w w' p Hag Hp).
  rewrite <- (agree_lookup_node P w w' (parent p) Hag Hpar).
  destruct (lookup_node w p) as [[|c]|]; [done | done |].
  destruct (lookup_node w (parent p)) as [[|c]|]; [| done | done].
  split; [done |]. by apply agree_insert.
Qed.

Lemma determined_write_file (P : path -> Prop) (p : path) (c : content) :
  P p -> P (parent p) -> determined P (write_file p c).
Proof.
  intros Hp Hpar w w' Hag. unfold write_file.
  rewrite <- (agree_lookup_node P w w' p Hag Hp).
  rewrite <- (agree_lookup_node P w w' (parent p) Hag Hpar).
  destruct (lookup_node w p) as [[|c']|]; [done | |];
    (destruct (lookup_node w (parent p)) as [[|c'']|]; [| done | done];
     split; [done |]; by apply agree_insert).
Qed.

Lemma determined_load_track_data (P : path -> Prop) (d : path) :
  P (child d "track_data.h5") -> determined P (load_track_data d).
Proof.
  intros Hp. unfold load_track_data.
  apply determined_mbind; [apply determined_emit |]. intros _ w w' Hag.
  unfold path_exists.
  rewrite <- (agree_lookup_node P w w' _ Hag Hp).
  destruct (lookup_node w _) as [[|[]]|]; done.
Qed.


Section Independence.

Variable np_sqrt : Q -> Q.
Variables R F : path.

Lemma process_single_track_outside (S : path) (n : Z) (w : world) :
  ~ unit_writes n F S ->
  fs (process_single_track np_sqrt (n, R, F) w).2 !! S = fs w !! S.
Proof.
  intros Hout. unfold process_single_track.
  destruct (negb _); [done |].
  pose proof (keeps_process_body_outside np_sqrt S F n
                (child R ("track" +:+ pretty n)) Hout w) as (H & _).
  by destruct (process_body _ _ _ _ _) as [[e|data] w'].
Qed.

Lemma determined_process_body (P : path -> Prop) (n : Z) :
  (forall p, footprint n R F p -> P p) ->
  determined P (process_body np_sqrt n (child R (track_name n)) F).
Proof.
  intros HP.
  assert (Hh5 : P (child (child R (track_name n)) "track_data.h5"))
    by (apply HP; right; by left).
  assert (HF : P F) by (apply HP; do 2 right; by left).
  assert (Hdir : P (child F (track_name n)))
    by (apply HP; do 3 right; by left).
  assert (Hfig : forall x, figure_name x = true ->
                 P (child (child F (track_name n)) x)).
  { intros x Hx. apply HP. do 3 right. right. eauto. }
  assert (Hsave : forall x fig, figure_name x = true ->
    determined P (savefig (child (child F (track_name n)) x) fig)).
  { intros x fig Hx. apply determined_write_file; [by apply Hfig |].
    by rewrite parent_child. }
  unfold process_body.
  apply determined_mbind; [by apply determined_load_track_data |]. intros data.
  apply determined_mbind.
  { apply determined_mkdir_exist_ok; [done | by rewrite parent_child]. }
  intros _. apply determined_mbind.
  { unfold plot_dot_product. apply determined_mbind; [apply determined_lift |].
    intros _. by apply Hsave. }
  intros _. apply determined_mbind.
  { unfold plot_trajectory. apply determined_mbind; [apply determined_lift |].
    intros fig. by apply Hsave. }
  intros _. apply determined_mbind; [| intros _; apply determined_mret].
  apply determined_mfor. intros r_idx. unfold plot_reversal_closeup.
  destruct (_ <=? _); [apply determined_mret |].
  apply determined_mbind; [apply determined_lift |]. intros rev.
  apply determined_mbind; [apply determined_lift |]. intros _.
  apply determined_mbind; [apply determined_lift |]. intros _.
  apply Hsave, figure_name_closeup.
Qed.

Lemma determined_process_single_track (P : path -> Prop) (n : Z) :
  (forall p, footprint n R F p -> P p) ->
  determined P (process_single_track np_sqrt (n, R, F)).
Proof.
  intros HP w w' Hag. unfold process_single_track.
  fold (track_name n). unfold path_exists.
  rewrite <- (agree_lookup_node P w w' (child R (track_name n)) Hag)
    by (apply HP; by left).
  destruct (lookup_node w _); simpl; [| done].
  destruct (determined_process_body P n HP w w' Hag) as [Hr Hag'].
  destruct (process_body _ _ _ _ w) as [[e|data] w1],
    (process_body _ _ _ _ w') as [[e'|data'] w1']; simpl in *; by simplify_eq.
Qed.

End Independence.

(** ** Units of different tracks do not meet *)

Lemma pretty_N_go_ne_underscore (x : N) (s s' : string) :
  s <> String "_" s' -> pretty_N_go x s <> String "_" s'.
Proof.
  revert s. induction (N.lt_wf_0 x) as [x _ IH]; intros s Hs.
  assert (x = 0 \/ 0 < x)%N as [-> | Hx] by lia.
  - by rewrite pretty_N_go_0.
  - rewrite pretty_N_go_step by done. apply IH.
    { by apply N.div_lt. }
    unfold pretty_N_char. by repeat case_match.
Qed.

Lemma pretty_Z_ne_underscore (n : Z) (s' : string) :
  pretty n <> String "_" s'.
Proof.
  destruct n as [|p|p]; [done | | done].
  unfold pretty, pretty_Z, pretty, pretty_positive, pretty, pretty_N.
  case_decide; [done |]. by apply pretty_N_go_ne_underscore.
Qed.

Lemma track_name_inj (n m : Z) : track_name n = track_name m -> n = m.
Proof.
  unfold track_name. intros H.
  apply (inj (String.app "track")) in H. by apply (inj pretty) in H.
Qed.

Lemma track_name_ne_h5 (n : Z) : track_name n <> "track_data.h5".
Proof.
  unfold track_name. intros H.
  change "track_data.h5"%string with ("track" +:+ "_data.h5") in H.
  apply (inj (String.app "track")) in H.
  by apply pretty_Z_ne_underscore in H.
Qed.

Lemma figure_name_ne_track (x : string) (n : Z) :
  figure_name x = true -> x <> track_name n.
Proof.
  unfold track_name. generalize (pretty n). intros t Hx ->.
  by vm_compute in Hx.
Qed.

Lemma figure_name_ne_h5 (x : string) :
  figure_name x = true -> x <> "track_data.h5"%string.
Proof. intros Hx ->. by vm_compute in Hx. Qed.

Lemma child_inj (a b : path) (x y : string) :
  child a x = child b y -> a = b /\ x = y.
Proof. apply app_inj_tail. Qed.

Lemma child_ne (a : path) (x : string) : child a x <> a.
Proof.
  unfold child. intros H. apply (f_equal length) in H.
  rewrite length_app in H. simpl in H. lia.
Qed.

Lemma grandchild_ne (a : path) (x y : string) : child (child a x) y <> a.
Proof.
  unfold child. intros H. apply (f_equal length) in H.
  rewrite !length_app in H. simpl in H. lia.
Qed.

(** What the unit of one track writes, the unit of another track never
    looks at. *)
Lemma unit_writes_outside_footprint (n m : Z) (R F p : path) :
  n <> m -> unit_writes m F p -> ~ footprint n R F p.
Proof.
  intros Hnm [-> | (x & Hx & ->)] [H | [H | [H | [H | (y & Hy & H)]]]].
  - apply child_inj in H as [_ H]. by apply track_name_inj in H.
  - apply child_inj in H as [_ H]. by apply track_name_ne_h5 in H.
  - by apply child_ne in H.
  - apply child_inj in H as [_ H]. by apply track_name_inj in H.
  - apply child_inj in H as [H _]. symmetry in H. by apply child_ne in H.
  - apply child_inj in H as [_ H]. by apply figure_name_ne_track in H.
  - apply child_inj in H as [_ H]. by apply figure_name_ne_h5 in H.
  - by apply grandchild_ne in H.
  - apply child_inj in H as [H _]. by apply child_ne in H.
  - apply child_inj in H as [H _]. apply child_inj in H as [_ H].
    by apply track_name_inj in H.
Qed.

(** ** The order of completion does not matter *)

Section Order.

Variable np_sqrt : Q -> Q.
Variables R F : path.

Lemma run_job_fs (j : job) (w w' : world) :
  fs w = fs w' ->
  (run_job np_sqrt R F j w).1 = (run_job np_sqrt R F j w').1
  /\ fs (run_job np_sqrt R F j w).2 = fs (run_job np_sqrt R F j w').2.
Proof.
  intros Hfs. unfold run_job. destruct j as [n []]; simpl; [| done].
  destruct (determined_process_single_track np_sqrt R F (fun _ => True) n
              ltac:(done) w w') as [Ho Hag].
  { intros p _. by rewrite Hfs. }
  split; [done |]. apply map_eq. intros p. by apply Hag.
Qed.

Lemma run_jobs_fs (jobs : list job) (w w' : world) :
  fs w = fs w' ->
  (run_jobs np_sqrt R F jobs w).1 = (run_jobs np_sqrt R F jobs w').1
  /\ fs (run_jobs np_sqrt R F jobs w).2 = fs (run_jobs np_sqrt R F jobs w').2.
Proof.
  revert w w'. induction jobs as [|j jobs IH]; intros w w' Hfs; [done |].
  simpl. destruct (run_job_fs j w w' Hfs) as [Ho Hfs1].
  destruct (run_job np_sqrt R F j w) as [o w1], (run_job np_sqrt R F j w') as [o' w1'].
  simpl in Ho, Hfs1. subst o'.
  destruct (IH w1 w1' Hfs1) as [Hos Hfs2].
  destruct (run_jobs np_sqrt R F jobs w1) as [os w2], (run_jobs np_sqrt R F jobs w1') as [os' w2'].
  simpl in *. by subst os'.
Qed.

(** Two different units complete in either order with the same outcomes
    and the same file tree. *)
Lemma run_job_commute (j1 j2 : job) (w : world) :
  j1 <> j2 ->
  (run_job np_sqrt R F j1 (run_job np_sqrt R F j2 w).2).1 = (run_job np_sqrt R F j1 w).1
  /\ (run_job np_sqrt R F j2 (run_job np_sqrt R F j1 w).2).1 = (run_job np_sqrt R F j2 w).1
  /\ fs (run_job np_sqrt R F j2 (run_job np_sqrt R F j1 w).2).2 = fs (run_job np_sqrt R F j1 (run_job np_sqrt R F j2 w).2).2.
Proof.
  destruct j1 as [n b1], j2 as [m b2]. intros Hne.
  destruct b2; [| done]. destruct b1; [| done].
  assert (Hnm : n <> m) by congruence.
  unfold run_job. cbn [fst snd].
  set (fn := process_single_track np_sqrt (n, R, F)).
  set (fm := process_single_track np_sqrt (m, R, F)).
  assert (Hm_out : forall v p, ~ unit_writes m F p -> fs (fm v).2 !! p = fs v !! p)
    by (intros v p; apply process_single_track_outside).
  assert (Hn_out : forall v p, ~ unit_writes n F p -> fs (fn v).2 !! p = fs v !! p)
    by (intros v p; apply process_single_track_outside).
  assert (Hn_view : agree (footprint n R F) w (fm w).2).
  { intros p Hp. symmetry. apply Hm_out. intros Hw.
    by apply (unit_writes_outside_footprint n m R F p). }
  assert (Hm_view : agree (footprint m R F) w (fn w).2).
  { intros p Hp. symmetry. apply Hn_out. intros Hw.
    by apply (unit_writes_outside_footprint m n R F p). }
  destruct (determined_process_single_track np_sqrt R F (footprint n R F) n
              ltac:(done) _ _ Hn_view) as [Hon Hn_after].
  destruct (determined_process_single_track np_sqrt R F (footprint m R F) m
              ltac:(done) _ _ Hm_view) as [Hom Hm_after].
  fold fn in Hon, Hn_after. fold fm in Hom, Hm_after.
  split; [done |]. split; [done |].
  apply map_eq. intros p.
  destruct (unit_writesb m F p) eqn:Hwm.
  - apply unit_writesb_spec in Hwm.
    assert (~ unit_writes n F p).
    { intros Hwn. apply (unit_writes_outside_footprint n m R F p); [done.. |].
      by do 3 right. }
    rewrite Hn_out by done. symmetry. apply Hm_after. by do 3 right.
  - assert (Hnot : ~ unit_writes m F p)
      by (intros Hw; apply unit_writesb_spec in Hw; congruence).
    rewrite Hm_out by done.
    destruct (unit_writesb n F p) eqn:Hwn.
    + apply unit_writesb_spec in Hwn. apply Hn_after. by do 3 right.
    + assert (~ unit_writes n F p)
        by (intros Hw; apply unit_writesb_spec in Hw; congruence).
      by rewrite !Hn_out, Hm_out.
Qed.

(** Completing the same units in another order gives the same outcomes,
    in another order, and the same file tree. *)
Lemma run_jobs_permutation (jobs1 jobs2 : list job) :
  jobs1 ≡ₚ jobs2 ->
  forall w w', fs w = fs w' ->
    (run_jobs np_sqrt R F jobs1 w).1 ≡ₚ (run_jobs np_sqrt R F jobs2 w').1
    /\ fs (run_jobs np_sqrt R F jobs1 w).2 = fs (run_jobs np_sqrt R F jobs2 w').2.
Proof.
  induction 1 as [|j l l' _ IH|j1 j2 l|l1 l2 l3 _ IH1 _ IH2]; intros w w' Hfs.
  - done.
  - simpl. destruct (run_job_fs j w w' Hfs) as [Ho Hfs1].
    destruct (run_job np_sqrt R F j w) as [o w1], (run_job np_sqrt R F j w') as [o' w1'].
    simpl in Ho, Hfs1. subst o'.
    destruct (IH w1 w1' Hfs1) as [Hos Hfs2].
    destruct (run_jobs np_sqrt R F l w1) as [os w2], (run_jobs np_sqrt R F l' w1') as [os' w2'].
    simpl in *. split; [by constructor | done].
  - destruct (decide (j1 = j2)) as [-> | Hne].
    { destruct (run_jobs_fs (j2 :: j2 :: l) w w' Hfs) as [Hos Hfs'].
      by rewrite Hos. }
    cbn [run_jobs].
    pose proof (run_job_commute j1 j2 w Hne) as Hcomm.
    pose proof (run_job_fs j1 w w' Hfs) as Hj1.
    destruct (run_job np_sqrt R F j2 w) as [o2 w2] eqn:E2.
    destruct (run_job np_sqrt R F j1 w) as [o1 w1] eqn:E1.
    destruct (run_job np_sqrt R F j1 w') as [o1'' w1'] eqn:E1'.
    cbn [fst snd] in Hcomm, Hj1. destruct Hj1 as [<- Hfs1].
    pose proof (run_job_fs j2 w1 w1' Hfs1) as Hj2.
    destruct (run_job np_sqrt R F j1 w2) as [o1' w21] eqn:E21.
    destruct (run_job np_sqrt R F j2 w1) as [o2' w12] eqn:E12.
    destruct (run_job np_sqrt R F j2 w1') as [o2'' w12'] eqn:E12'.
    cbn [fst snd] in Hcomm, Hj2.
    destruct Hcomm as (-> & -> & Hfs12). destruct Hj2 as [<- Hfs2].
    assert (Hrest : fs w21 = fs w12') by congruence.
    destruct (run_jobs_fs l w21 w12' Hrest) as [Hos Hfs3].
    destruct (run_jobs np_sqrt R F l w21) as [os w3], (run_jobs np_sqrt R F l w12') as [os' w3'].
    simpl in *. subst os'. split; [apply perm_swap | done].
  - destruct (IH1 w w eq_refl) as [Hp1 Hf1].
    destruct (IH2 w w' Hfs) as [Hp2 Hf2].
    split; [by etrans | congruence].
Qed.

End Order.

(** ** The close-up renderer *)

(** C6.  For every track record with [k] reversal windows and every
    reversal index [>= k], the close-up renderer returns normally and
    leaves the world as it was: no file is written, nothing is raised. *)
Theorem closeup_out_of_range_noop (td : track_data) (reversal_idx : Z)
    (output_path : path) (w : world) :
  Z.of_nat (length (reversals td)) <= reversal_idx ->
  plot_reversal_closeup td reversal_idx output_path w = (ok tt, w).
Proof.
  intros Hge. unfold plot_reversal_closeup.
  destruct (Z.leb_spec (Z.of_nat (length (reversals td))) reversal_idx);
    [done | lia].
Qed.

(** The length of a slice depends on the length of the sequence only. *)
Lemma length_py_slice_eq {A B} (l : list A) (l' : list B) (a b : Z) :
  length l = length l' -> length (py_slice l a b) = length (py_slice l' a b).
Proof.
  intros H. unfold py_slice. by rewrite !length_take, !length_drop, H.
Qed.

Lemma ax_plot_same_length (x y : list Q) :
  length x = length y -> ax_plot x y = ok tt.
Proof. intros H. unfold ax_plot. by rewrite H, Nat.eqb_refl. Qed.

Lemma ax_fill_between_same_length (x y : list Q) :
  length x = length y -> ax_fill_between x y = ok tt.
Proof. intros H. unfold ax_fill_between. by rewrite H, Nat.eqb_refl. Qed.

Lemma ax_plot_error (x y : list Q) (e : exn) :
  ax_plot x y = inl e -> exn_type e = ValueError.
Proof. unfold ax_plot. destruct (_ =? _)%nat; [done |]. by intros [= <-]. Qed.

Lemma ax_fill_between_error (x y : list Q) (e : exn) :
  ax_fill_between x y = inl e -> exn_type e = ValueError.
Proof.
  unfold ax_fill_between. destruct (_ || _); [done |]. by intros [= <-].
Qed.

(** On a record whose signal has one value per time sample, matplotlib
    accepts what the close-up draws. *)
Lemma closeup_figure_drawable (td : track_data) (idx : Z) (rev : reversal) :
  length (SpeedRunVel td) = length (times td) ->
  let fig := closeup_figure td idx rev in
  ax_plot (pl_x (cu_view fig)) (pl_y (cu_view fig)) = ok tt
  /\ ax_fill_between (cu_fill fig).1 (cu_fill fig).2 = ok tt.
Proof.
  intros Hlen. cbv zeta. unfold closeup_figure. cbn [cu_view cu_fill pl_x pl_y fst snd].
  split.
  - apply ax_plot_same_length. by apply length_py_slice_eq.
  - apply ax_fill_between_same_length. by apply length_py_slice_eq.
Qed.

(** Past the guard and the indexing of the list, the renderer saves the
    close-up unless matplotlib refuses its series. *)
Lemma plot_reversal_closeup_step (td : track_data) (idx : Z)
    (output_path : path) (w : world) (rev : reversal) :
  (Z.of_nat (length (reversals td)) <=? idx) = false ->
  list_index (reversals td) idx = ok rev ->
  plot_reversal_closeup td idx output_path w
  = match (let fig := closeup_figure td idx rev in
           let? _ := ax_plot (pl_x (cu_view fig)) (pl_y (cu_view fig)) in
           ax_fill_between (cu_fill fig).1 (cu_fill fig).2)%result with
    | inl e => (inl e, w)
    | inr _ => savefig output_path (Closeup (closeup_figure td idx rev)) w
    end.
Proof.
  intros Hguard Hrev. unfold plot_reversal_closeup. rewrite Hguard.
  unfold mbind, lift. rewrite Hrev. unfold rbind, ok. cbv beta iota zeta.
  destruct (ax_plot _ _) as [e|[]]; [done |].
  by destruct (ax_fill_between _ _) as [e|[]].
Qed.

(** C10.  For a track record with [k > 0] reversal windows and a negative
    reversal index [idx], the guard does not fire.  When [-k <= idx] the
    renderer takes reversal [k + idx].  On a record of the data model,
    whose signal has one value per time sample, and for an output name
    that ends in [.png], it saves the close-up of that reversal (titled
    with [idx + 1]), which writes the artifact whenever the output path
    can be written.  On any record, when matplotlib refuses the series
    of the close-up because their lengths differ, the renderer raises
    that [ValueError] and writes nothing.  When [idx < -k] indexing the
    list raises [IndexError] and nothing is written. *)
Theorem closeup_negative_index (td : track_data) (idx : Z)
    (output_path : path) (w : world) :
  let k := Z.of_nat (length (reversals td)) in
  0 < k -> idx < 0 ->
  (- k <= idx ->
   exists rev,
     reversals td !! Z.to_nat (k + idx) = Some rev
     /\ (length (SpeedRunVel td) = length (times td) ->
         png_name (List.last output_path EmptyString) ->
         plot_reversal_closeup td idx output_path w
         = savefig output_path (Closeup (closeup_figure td idx rev)) w
         /\ (lookup_node w output_path <> Some Dir ->
             is_dir w (parent output_path) = true ->
             plot_reversal_closeup td idx output_path w
             = (ok tt,
                World (<[output_path
                         := File (Png (Closeup (closeup_figure td idx rev)))]>
                         (fs w))
                  (trace w ++ [EvWrite output_path]))))
     /\ (forall e,
           (let fig := closeup_figure td idx rev in
            let? _ := ax_plot (pl_x (cu_view fig)) (pl_y (cu_view fig)) in
            ax_fill_between (cu_fill fig).1 (cu_fill fig).2)%result = inl e ->
           plot_reversal_closeup td idx output_path w = (inl e, w)
           /\ exn_type e = ValueError))
  /\ (idx < - k ->
      plot_reversal_closeup td idx output_path w
      = (raise IndexError "list index out of range", w)).
Proof.
  intros k Hk Hneg.
  assert (Hguard : (k <=? idx) = false) by (apply Z.leb_gt; lia).
  split.
  - intros Hin.
    destruct (lookup_lt_is_Some_2 (reversals td) (Z.to_nat (k + idx)))
      as [rev Hrev]; [lia |].
    assert (Hidx : list_index (reversals td) idx = ok rev).
    { unfold list_index, py_index. fold k.
      destruct (Z.leb_spec 0 idx); [lia |].
      destruct (Z.leb_spec (- k) idx); [| lia].
      replace (idx + k) with (k + idx) by lia. by rewrite Hrev. }
    exists rev. split; [done |].
    rewrite (plot_reversal_closeup_step td idx output_path w rev Hguard Hidx).
    cbv zeta. split.
    + intros Hlen _.
      destruct (closeup_figure_drawable td idx rev Hlen) as [Hplot Hfill].
      cbv zeta in Hplot, Hfill. unfold rbind. rewrite Hplot, Hfill.
      split; [done |].
      intros Hnd Hparent. unfold savefig. by apply write_file_ok.
    + intros e He. rewrite He. split; [done |]. unfold rbind in He.
      destruct (ax_plot _ _) as [e'|[]] eqn:Hplot.
      * injection He as ->. by eapply ax_plot_error.
      * by eapply ax_fill_between_error.
  - intros Hout. unfold plot_reversal_closeup. fold k. rewrite Hguard.
    unfold mbind, lift, list_index, py_index. fold k.
    destruct (Z.leb_spec 0 idx); [lia |].
    destruct (Z.leb_spec (- k) idx); [lia | done].
Qed.

(** ** The aggregate totals *)

Lemma totals_permutation (results results' : list outcome) :
  results ≡ₚ results' ->
  total_revs results = total_revs results'
  /\ success_count results = success_count results'.
Proof.
  unfold total_revs, success_count.
  induction 1 as [|o l l' _ [IH1 IH2]|o1 o2 l|l1 l2 l3 _ [IH1 IH2] _ [IH3 IH4]].
  - done.
  - simpl. rewrite IH1. split; [done |].
    destruct (bool_decide (o_status o = success)); simpl; by rewrite IH2.
  - simpl. split; [lia |].
    destruct (bool_decide (o_status o1 = success)),
      (bool_decide (o_status o2 = success)); done.
  - split; congruence.
Qed.

Lemma omap_fmap_lookup_seq {A B} (f : A -> B) (l pre : list A) (k : nat) :
  length pre = k ->
  omap (fun i => f <$> (pre ++ l) !! i) (seq k (length l)) = map f l.
Proof.
  revert pre k. induction l as [|x l IH]; intros pre k Hk; [done |].
  simpl. rewrite list_lookup_middle by done. simpl. f_equal.
  rewrite (cons_middle x pre l). rewrite app_assoc. apply IH.
  rewrite length_app. simpl. lia.
Qed.

(** When every unit completes once and is delivered, the jobs are the
    tracks, in the order of completion. *)
Lemma jobs_of_delivered (tracks : list Z) (schedule : list completion) :
  map c_task schedule ≡ₚ seq 0 (length tracks) ->
  Forall (fun c => c_collected c = true) schedule ->
  jobs_of tracks schedule ≡ₚ map (fun t => (t, true)) tracks.
Proof.
  intros Hperm Hdel.
  assert (Hjobs : jobs_of tracks schedule
                  = omap (fun i => (fun t => (t, true)) <$> tracks !! i)
                      (map c_task schedule)).
  { clear Hperm. unfold jobs_of.
    induction Hdel as [|c schedule Hc _ IH]; [done |].
    simpl. rewrite Hc.
    destruct (tracks !! c_task c); simpl; [f_equal |]; exact IH. }
  rewrite Hjobs, Hperm.
  pose proof (omap_fmap_lookup_seq (fun t : Z => (t, true)) tracks [] 0 eq_refl)
    as Hseq.
  simpl in Hseq. by rewrite Hseq.
Qed.

Section Totals.

Variable np_sqrt : Q -> Q.
Variables R F : path.

(** The loop of the orchestrator runs the jobs of its schedule. *)
Lemma collect_run_jobs (tracks : list Z) (schedule : list completion)
    (results : list outcome) (w : world) :
  foldl (flip (collect np_sqrt (map (fun t => (t, R, F)) tracks)))
    (results, w) schedule
  = (results ++ (run_jobs np_sqrt R F (jobs_of tracks schedule) w).1,
     (run_jobs np_sqrt R F (jobs_of tracks schedule) w).2).
Proof.
  revert results w. induction schedule as [|c schedule IH]; intros results w.
  - simpl. by rewrite app_nil_r.
  - cbn [foldl]. unfold flip at 2. unfold collect at 2, jobs_of.
    rewrite list_lookup_fmap. cbn [omap list_omap].
    destruct (tracks !! c_task c) as [t|]; cbn -[process_single_track run_jobs];
      [| apply IH].
    cbn [run_jobs]. unfold run_job. cbn [fst snd].
    destruct (c_collected c).
    + destruct (process_single_track np_sqrt (t, R, F) w) as [o w1].
      rewrite IH. fold (jobs_of tracks schedule).
      destruct (run_jobs np_sqrt R F (jobs_of tracks schedule) w1) as [os w2].
      simpl. by rewrite <- app_assoc.
    + rewrite IH. fold (jobs_of tracks schedule).
      destruct (run_jobs np_sqrt R F (jobs_of tracks schedule) w) as [os w2].
      simpl. by rewrite <- app_assoc.
Qed.

(** Two runs that complete the same jobs, in any order, report the same
    totals. *)
Lemma totals_of_same_jobs (tracks tracks' : list Z)
    (schedule schedule' : list completion) (w : world) :
  jobs_of tracks schedule ≡ₚ jobs_of tracks' schedule' ->
  let results :=
    (collect_all np_sqrt (map (fun t => (t, R, F)) tracks) schedule w).1 in
  let results' :=
    (collect_all np_sqrt (map (fun t => (t, R, F)) tracks') schedule' w).1 in
  total_revs results = total_revs results'
  /\ success_count results = success_count results'.
Proof.
  intros Hjobs. unfold collect_all. rewrite !collect_run_jobs. simpl.
  apply totals_permutation.
  by apply (run_jobs_permutation np_sqrt R F _ _ Hjobs w w).
Qed.

(** C9.  The total of the reversal counts and the number of successful
    outcomes do not depend on the order of the outcome sequence.  So two
    runs of the orchestrator from the same file tree report the same
    totals when they differ in the order in which the pool completes the
    units, and when they differ in the order of the track identifiers
    (every unit completing once and being delivered). *)
Theorem totals_order_invariant :
  (forall results results' : list outcome,
     results ≡ₚ results' ->
     total_revs results = total_revs results'
     /\ success_count results = success_count results')
  /\ (forall (tracks : list Z) (schedule schedule' : list completion) (w : world),
       schedule ≡ₚ schedule' ->
       let args_list := map (fun t => (t, R, F)) tracks in
       let results := (collect_all np_sqrt args_list schedule w).1 in
       let results' := (collect_all np_sqrt args_list schedule' w).1 in
       total_revs results = total_revs results'
       /\ success_count results = success_count results')
  /\ (forall (tracks tracks' : list Z) (schedule schedule' : list completion)
         (w : world),
       tracks ≡ₚ tracks' ->
       map c_task schedule ≡ₚ seq 0 (length tracks) ->
       map c_task schedule' ≡ₚ seq 0 (length tracks') ->
       Forall (fun c => c_collected c = true) schedule ->
       Forall (fun c => c_collected c = true) schedule' ->
       let results :=
         (collect_all np_sqrt (map (fun t => (t, R, F)) tracks) schedule w).1 in
       let results' :=
         (collect_all np_sqrt (map (fun t => (t, R, F)) tracks') schedule' w).1 in
       total_revs results = total_revs results'
       /\ success_count results = success_count results').
Proof.
  split; [exact totals_permutation | split].
  - intros tracks schedule schedule' w Hperm. apply totals_of_same_jobs.
    unfold jobs_of. by rewrite Hperm.
  - intros tracks tracks' schedule schedule' w Htracks Hs Hs' Hd Hd'.
    apply totals_of_same_jobs.
    rewrite (jobs_of_delivered tracks schedule Hs Hd).
    rewrite (jobs_of_delivered tracks' schedule' Hs' Hd').
    by rewrite Htracks.
Qed.

End Totals.

(** ** Concrete runs of the unit and of the orchestrator *)

Example load_five :
  (load_track_data ["res"; "track7"]%string demo_world).1 = ok track_five.
Proof. vm_compute. reflexivity. Qed.

Lemma process_single_track_failures_witness :
  process_single_track approx_sqrt (9, ["res"], ["fig"])%string demo_world
  = (Outcome 9 not_found None 0, demo_world)
  /\ process_single_track approx_sqrt (8, ["res"], ["fig"])%string demo_world
     = (Outcome 8 error (Some "No track_data.h5 found in res/track8") 0,
        World (fs demo_world) [EvLoad ["res"; "track8"]%string])
  /\ process_single_track approx_sqrt (3, ["res"], ["fig"])%string demo_world
     = (Outcome 3 error
          (Some (String double_quote
                   ("Unable to open object (object 'times' doesn't exist)"
                    +:+ String double_quote EmptyString))) 0,
        World (fs demo_world) [EvLoad ["res"; "track3"]%string]).
Proof.
  split; [| split].
  - apply (proj1 (process_single_track_failures approx_sqrt 9
                    ["res"] ["fig"] demo_world))%string.
    reflexivity.
  - apply (proj1 (proj2 (process_single_track_failures approx_sqrt 8
                           ["res"] ["fig"] demo_world)))%string;
      reflexivity.
  - apply (proj2 (proj2 (process_single_track_failures approx_sqrt 3
                           ["res"] ["fig"] demo_world))
             (Exception KeyError
                "Unable to open object (object 'times' doesn't exist)"))%string.
    + reflexivity.
    + vm_compute. reflexivity.
Defined.

(** Track 8 has its directory but no data artifact: the status is
    [error], not [not_found]. *)
Lemma missing_artifact_is_error :
  ~ missing_artifact_is_not_found approx_sqrt 8 ["res"] ["fig"]%string demo_world.
Proof.
  intros H. specialize (H eq_refl eq_refl). vm_compute in H. discriminate H.
Qed.

Lemma reversal_count_is_all_windows_witness :
  process_single_track approx_sqrt (7, ["res"], ["fig"])%string demo_world
  = (Outcome 7 success None (length (reversals track_five)), world_seven).
Proof.
  apply (reversal_count_is_all_windows approx_sqrt 7 ["res"] ["fig"]
           demo_world world_seven track_five)%string.
  - reflexivity.
  - vm_compute. reflexivity.
Defined.

(** Track 7 has two windows, one of which spans less than 3 s: the
    outcome reports 2 reversals, the table has 1 row. *)
Lemma count_includes_short_windows :
  ~ counts_only_qualified approx_sqrt 7 ["res"] ["fig"]%string demo_world.
Proof.
  intros H.
  specialize (H track_five world_seven ltac:(vm_compute; reflexivity)).
  vm_compute in H. discriminate H.
Qed.

Lemma closeup_out_of_range_noop_witness :
  plot_reversal_closeup track_five 2
    ["fig"; "track7"; "reversal3_dot_product.png"]%string demo_world
  = (ok tt, demo_world).
Proof.
  apply (closeup_out_of_range_noop track_five 2). simpl. lia.
Defined.

Lemma closeup_negative_index_witness :
  (exists rev,
     reversals track_five !! Z.to_nat (2 + -1) = Some rev
     /\ plot_reversal_closeup track_five (-1) ["fig"; "x.png"]%string demo_world
        = savefig ["fig"; "x.png"]%string
            (Closeup (closeup_figure track_five (-1) rev)) demo_world)
  /\ (let short :=
        TrackData 5 [1; -2; -3; -4]%Q [0; 1; 2; 3; 4]%Q [] [] [] "unknown" 0.01
          [window 1 5] in
      plot_reversal_closeup short (-1) ["fig"; "x.png"]%string demo_world
      = (raise ValueError
           "x and y must have same first dimension, but have shapes (4,) and (3,)",
         demo_world)).
Proof.
  split.
  - pose proof (closeup_negative_index track_five (-1) ["fig"; "x.png"]%string
                  demo_world) as H.
    cbv zeta in H. destruct H as [Hin _]; [simpl; lia | lia |].
    destruct Hin as (rev & Hrev & Hplot & _); [simpl; lia |].
    exists rev. split; [exact Hrev |].
    assert (Hname : png_name (List.last ["fig"; "x.png"]%string EmptyString))
      by (by exists "x"%char, EmptyString).
    exact (proj1 (Hplot eq_refl Hname)).
  - cbv zeta.
    pose proof (closeup_negative_index
                  (TrackData 5 [1; -2; -3; -4]%Q [0; 1; 2; 3; 4]%Q [] [] []
                     "unknown" 0.01 [window 1 5])
                  (-1) ["fig"; "x.png"]%string demo_world) as H.
    cbv zeta in H. destruct H as [Hin _]; [simpl; lia | lia |].
    destruct Hin as (rev & Hrev & _ & Herr); [simpl; lia |].
    injection Hrev as <-.
    apply (Herr (Exception ValueError
             "x and y must have same first dimension, but have shapes (4,) and (3,)")).
    vm_compute. reflexivity.
Defined.

Lemma totals_order_invariant_witness :
  (total_revs [Outcome 7 success None 2; Outcome 8 error (Some "e") 0]
   = total_revs [Outcome 8 error (Some "e") 0; Outcome 7 success None 2]
   /\ success_count [Outcome 7 success None 2; Outcome 8 error (Some "e") 0]
      = success_count [Outcome 8 error (Some "e") 0; Outcome 7 success None 2])
  /\ (let args_list := map (fun t => (t, ["res"], ["fig"])%string) [7; 8; 3] in
      let results :=
        (collect_all approx_sqrt args_list
           [Completion 0 true; Completion 1 true; Completion 2 false]
           demo_world).1 in
      let results' :=
        (collect_all approx_sqrt args_list
           [Completion 2 false; Completion 1 true; Completion 0 true]
           demo_world).1 in
      total_revs results = total_revs results'
      /\ success_count results = success_count results').
Proof.
  split.
  - apply (proj1 (totals_order_invariant approx_sqrt ["res"] ["fig"]))%string.
    apply perm_swap.
  - apply (proj1 (proj2 (totals_order_invariant approx_sqrt ["res"] ["fig"])))%string.
    compute_done.
Defined.

Lemma summary_written_once_witness :
  (exists w',
     generate_all_figures approx_sqrt ["res"] ["fig"] (Some [7; 8; 9])
       [Completion 2 true; Completion 0 true; Completion 1 true] demo_world
     = (ok tt, w')
     /\ exists results,
          fs w' !! (["fig"; "summary.json"]%string)
          = Some (File (Json (Summary results (total_revs results))))
          /\ map o_track_num results ≡ₚ [7; 8; 9])
  /\ generate_all_figures approx_sqrt ["res"] ["fig"] None [] world_empty
     = (ok tt, world_empty).
Proof.
  split.
  - destruct (summary_written_once approx_sqrt ["res"] ["fig"] (Some [7; 8; 9])
                [7; 8; 9]
                [Completion 2 true; Completion 0 true; Completion 1 true]
                demo_world demo_world eq_refl (or_introl eq_refl))%string
      as [_ Hrun].
    destruct Hrun as (Hrun & _ & _ & Hone);
      [discriminate | vm_compute; discriminate |].
    eexists. split; [exact Hrun |].
    eexists. split; [apply lookup_insert_eq |].
    apply Hone. simpl. compute_done.
  - apply (summary_written_once approx_sqrt ["res"] ["fig"] None []
             [] world_empty world_empty eq_refl)%string; [| done].
    right. split; [done |]. vm_compute. reflexivity.
Defined.

(** No track is found under [res]: the run returns before the summary is
    written, and no summary exists afterwards. *)
Lemma empty_run_writes_no_summary :
  ~ summary_always_written approx_sqrt ["res"] ["fig"]%string None [] world_empty.
Proof.
  unfold summary_always_written. vm_compute. intros H. inversion H.
Qed.

(** The end-to-end case of the specification: a well-formed track with
    two reversal windows, a track without directory and a track whose
    data cannot be read, completed in the order 9, 7, 3. *)
Example end_to_end :
  exists w',
    generate_all_figures approx_sqrt ["res"] ["fig"]%string (Some [7; 9; 3])
      [Completion 1 true; Completion 0 true; Completion 2 true] demo_world
    = (ok tt, w')
    /\ fs w' !! (["fig"; "summary.json"]%string)
       = Some (File (Json
           {| s_tracks :=
                [Outcome 9 not_found None 0;
                 Outcome 7 success None 2;
                 Outcome 3 error
                   (Some (String double_quote
                            ("Unable to open object (object 'times' doesn't exist)"
                             +:+ String double_quote EmptyString))) 0];
              s_total_reversals := 2 |})).
Proof. eexists. split; vm_compute; reflexivity. Qed.

Example empty_run_leaves_no_artifact :
  generate_all_figures approx_sqrt ["res"] ["fig"]%string None [] world_empty
  = (ok tt, world_empty).
Proof. vm_compute. reflexivity. Qed.

(** * Further properties of the figure generator *)

(** ** [format_time_mmss] *)

Lemma py_int_nonneg (q : Q) : (0 <= q)%Q -> py_int q = Qfloor q.
Proof.
  destruct q as [n d]. unfold Qle, py_int, Qfloor. simpl. intros Hn.
  apply Z.quot_div_nonneg; lia.
Qed.

Lemma length_append (a b : string) :
  String.length (a +:+ b) = (String.length a + String.length b)%nat.
Proof.
  induction a as [|c a IH]; [done |].
  change (String c a +:+ b) with (String c (a +:+ b)). simpl. by rewrite IH.
Qed.

Lemma fmt_02d_two_digits (z : Z) :
  0 <= z < 100 -> String.length (fmt_02d z) = 2%nat.
Proof.
  intros Hz. rewrite <- (Z2Nat.id z) by lia.
  assert (Hn : (Z.to_nat z < 100)%nat) by lia.
  generalize dependent (Z.to_nat z). clear. intros n Hn.
  do 100 (destruct n as [|n]; [vm_compute; reflexivity |]). lia.
Qed.

(** The two fields of [format_time_mmss] for a time that is not
    negative: the whole minutes, rounded down, and the whole seconds
    left, which are never 60 or more. *)
Theorem format_time_mmss_fields (seconds : Q) :
  (0 <= seconds)%Q ->
  exists m s : Z,
    format_time_mmss seconds = fmt_02d m +:+ ":" +:+ fmt_02d s
    /\ 0 <= m
    /\ 0 <= s <= 59
    /\ (inject_Z (60 * m + s) <= seconds)%Q
    /\ (seconds < inject_Z (60 * m + s) + 1)%Q.
Proof.
  intros Hnonneg.
  set (m := Qfloor (seconds / 60)).
  set (rest := (seconds - 60 * inject_Z m)%Q).
  exists m, (py_int rest). split; [done |].
  pose proof (Qfloor_le (seconds / 60)) as Hlo.
  pose proof (Qlt_floor (seconds / 60)) as Hhi. fold m in Hlo, Hhi.
  rewrite inject_Z_plus in Hhi. change (inject_Z 1) with 1%Q in Hhi.
  assert (Hm : 0 <= m).
  { change 0 with (Qfloor 0). apply Qfloor_resp_le.
    apply Qle_shift_div_l; lra. }
  assert (Hrest : (0 <= rest < 60)%Q).
  { unfold rest. split.
    - apply (Qmult_le_r _ _ 60) in Hlo; [| lra].
      assert (seconds / 60 * 60 == seconds)%Q by (field; lra). lra.
    - apply (Qmult_lt_r _ _ 60) in Hhi; [| lra].
      assert (seconds / 60 * 60 == seconds)%Q by (field; lra). lra. }
  rewrite py_int_nonneg by apply Hrest.
  pose proof (Qfloor_le rest) as Hslo.
  pose proof (Qlt_floor rest) as Hshi.
  rewrite inject_Z_plus in Hshi. change (inject_Z 1) with 1%Q in Hshi.
  set (s := Qfloor rest) in *.
  assert (0 <= s).
  { change 0 with (Qfloor 0). apply Qfloor_resp_le, Hrest. }
  assert (s < 60).
  { rewrite Zlt_Qlt. change (inject_Z 60) with 60%Q. lra. }
  split; [done |]. split; [lia |].
  rewrite inject_Z_plus, inject_Z_mult. change (inject_Z 60) with 60%Q.
  unfold rest in *. split; lra.
Qed.

Lemma format_time_mmss_fields_witness :
  exists m s : Z,
    format_time_mmss 125.5 = fmt_02d m +:+ ":" +:+ fmt_02d s /\ 0 <= s <= 59.
Proof.
  destruct (format_time_mmss_fields 125.5) as (m & s & H & _ & Hs & _);
    [lra |].
  by exists m, s.
Defined.

(** Under a hundred minutes the text is exactly [MM:SS]. *)
Theorem format_time_mmss_length (seconds : Q) :
  (0 <= seconds)%Q -> (seconds < 6000)%Q ->
  String.length (format_time_mmss seconds) = 5%nat.
Proof.
  intros Hlo Hhi. unfold format_time_mmss.
  set (m := Qfloor (seconds / 60)).
  pose proof (Qfloor_le (seconds / 60)) as Hmlo.
  pose proof (Qlt_floor (seconds / 60)) as Hmhi. fold m in Hmlo, Hmhi.
  rewrite inject_Z_plus in Hmhi. change (inject_Z 1) with 1%Q in Hmhi.
  assert (Hsec : (seconds / 60 * 60 == seconds)%Q) by (field; lra).
  assert (Hq : (0 <= seconds / 60 < 100)%Q).
  { split.
    - apply Qle_shift_div_l; lra.
    - apply Qlt_shift_div_r; lra. }
  assert (0 <= m).
  { change 0 with (Qfloor 0). apply Qfloor_resp_le, Hq. }
  assert (m < 100).
  { rewrite Zlt_Qlt. change (inject_Z 100) with 100%Q. lra. }
  set (rest := (seconds - 60 * inject_Z m)%Q).
  assert (Hrest : (0 <= rest < 60)%Q).
  { unfold rest. split.
    - apply (Qmult_le_r _ _ 60) in Hmlo; [| lra]. lra.
    - apply (Qmult_lt_r _ _ 60) in Hmhi; [| lra]. lra. }
  rewrite py_int_nonneg by apply Hrest.
  pose proof (Qfloor_le rest) as Hslo.
  assert (0 <= Qfloor rest).
  { change 0 with (Qfloor 0). apply Qfloor_resp_le, Hrest. }
  assert (Qfloor rest < 60).
  { rewrite Zlt_Qlt. change (inject_Z 60) with 60%Q. lra. }
  rewrite !length_append, !fmt_02d_two_digits by lia. done.
Qed.

Lemma format_time_mmss_length_witness :
  String.length (format_time_mmss 3599.5) = 5%nat.
Proof. apply format_time_mmss_length; lra. Defined.

(** ** The reversal table, once more *)

Lemma omap_sublist {A B C} (f : A -> option B) (g : B -> C) (h : A -> C)
    (l : list A) :
  (forall a b, f a = Some b -> g b = h a) ->
  g <$> omap f l `sublist_of` h <$> l.
Proof.
  intros Hf. induction l as [|a l IH]; [done |].
  cbn [omap list_omap]. destruct (f a) as [b|] eqn:Hb.
  - fold (omap f l). rewrite !fmap_cons, (Hf a b Hb). by apply sublist_skip.
  - fold (omap f l). rewrite fmap_cons. by apply sublist_cons.
Qed.

(** Every row of the table comes from a window that lies within the time
    series and is not empty; it shows the first and the last time of the
    window, its duration is their difference and is at least three
    seconds; and the rows follow the order of the windows. *)
Theorem table_rows_follow_windows (times : list Q) (revs : list reversal) :
  let data := reversal_table_data times revs in
  Forall (fun row =>
            0 <= te_start_idx row < te_end_idx row
            /\ te_end_idx row <= Z.of_nat (length times)
            /\ times !! Z.to_nat (te_start_idx row) = Some (te_start row)
            /\ times !! Z.to_nat (te_end_idx row - 1) = Some (te_end row)
            /\ te_duration row = (te_end row - te_start row)%Q
            /\ (3.0 <= te_duration row)%Q) data
  /\ (fun row => (te_start_idx row, te_end_idx row)) <$> data
     `sublist_of`
     (fun rev => (rev_start_idx rev, rev_end_idx rev (length times))) <$> revs.
Proof.
  cbv zeta. split.
  - apply Forall_forall. intros row Hrow.
    apply list_elem_of_omap in Hrow as (rev & _ & Hrow).
    apply table_entry_of_Some in Hrow
      as (Hs & Hse & He & u & v & Hu & Hv & Hd & ->).
    simpl. repeat split; try done; lia.
  - apply omap_sublist. intros rev row Hrow.
    apply table_entry_of_Some in Hrow as (_ & _ & _ & u & v & _ & _ & _ & ->).
    done.
Qed.

(** ** The highlights of the time-series figure *)

Lemma omap_imap_Some {A B} (h : nat -> A -> option B) (g : nat -> A -> B)
    (l : list A) (k : nat) :
  (forall i a, l !! i = Some a -> h (k + i)%nat a = Some (g (k + i)%nat a)) ->
  omap (fun '(i, r) => h i r) (imap (fun i r => ((k + i)%nat, r)) l)
  = imap (fun i => g (k + i)%nat) l.
Proof.
  revert k. induction l as [|a l IH]; intros k Hh; [done |].
  rewrite !imap_cons.
  change (omap ?f (?x :: ?l'))
    with (match f x with Some y => y :: omap f l' | None => omap f l' end).
  cbv beta iota. rewrite (Hh 0%nat a eq_refl). f_equal.
  rewrite (imap_ext _ (fun i r => ((S k + i)%nat, r)) l)
    by (intros; simpl; f_equal; lia).
  rewrite (imap_ext (_ ∘ S) (fun i => g (S k + i)%nat) l)
    by (intros; simpl; f_equal; lia).
  apply IH. intros i b Hb.
  replace (S k + i)%nat with (k + S i)%nat by lia. by apply Hh.
Qed.

Lemma highlight_full (times SpeedRunVel : list Q) (i : nat) (row : table_entry) :
  length SpeedRunVel = length times ->
  0 <= te_start_idx row < te_end_idx row ->
  te_end_idx row <= Z.of_nat (length times) ->
  highlight times SpeedRunVel i row
  = Some (PlotLine (py_slice times (te_start_idx row) (te_end_idx row))
            (py_slice SpeedRunVel (te_start_idx row) (te_end_idx row)) "r-"
            (if (i =? 0)%nat then "Reversals (>3s)" else EmptyString)).
Proof.
  intros Hlen Hse He. unfold highlight.
  assert (Ht : length (py_slice times (te_start_idx row) (te_end_idx row))
               = Z.to_nat (te_end_idx row - te_start_idx row))
    by (apply length_py_slice_in_range; lia).
  assert (Hv : length (py_slice SpeedRunVel (te_start_idx row) (te_end_idx row))
               = Z.to_nat (te_end_idx row - te_start_idx row))
    by (apply length_py_slice_in_range; lia).
  rewrite Ht, Hv, Nat.min_id.
  destruct (Nat.ltb_spec 0 (Z.to_nat (te_end_idx row - te_start_idx row)));
    [| lia].
  rewrite <- Ht at 1. rewrite <- Hv at 1. by rewrite !firstn_all.
Qed.

(** When the signal has one value per time sample, the time-series
    figure holds the signal followed by one overlay per table row, in the
    order of the rows: the overlay of a row is the signal over the row's
    window, it is not empty, and the first overlay alone carries the
    legend entry. *)
Theorem highlights_match_rows (td : track_data) :
  length (SpeedRunVel td) = length (times td) ->
  let data := reversal_table_data (times td) (reversals td) in
  dp_lines (dot_product_figure td)
  = PlotLine (times td) (SpeedRunVel td) "b-" "SpeedRun"
    :: imap (fun i row =>
               PlotLine
                 (py_slice (times td) (te_start_idx row) (te_end_idx row))
                 (py_slice (SpeedRunVel td) (te_start_idx row) (te_end_idx row))
                 "r-" (if (i =? 0)%nat then "Reversals (>3s)" else EmptyString))
         data
  /\ Forall (fun row =>
               length (py_slice (times td) (te_start_idx row) (te_end_idx row))
               = Z.to_nat (te_end_idx row - te_start_idx row)
               /\ length (py_slice (SpeedRunVel td) (te_start_idx row)
                            (te_end_idx row))
                  = Z.to_nat (te_end_idx row - te_start_idx row)
               /\ (0 < Z.to_nat (te_end_idx row - te_start_idx row))%nat) data.
Proof.
  intros Hlen. cbv zeta.
  assert (Hrows : forall row,
            row ∈ reversal_table_data (times td) (reversals td) ->
            0 <= te_start_idx row < te_end_idx row
            /\ te_end_idx row <= Z.of_nat (length (times td))).
  { intros row Hrow. apply list_elem_of_omap in Hrow as (rev & _ & Hrow).
    apply table_entry_of_Some in Hrow
      as (Hs & Hse & He & u & v & _ & _ & _ & ->). simpl. lia. }
  split.
  - unfold dot_product_figure. cbn [dp_lines]. f_equal.
    apply (omap_imap_Some
             (highlight (times td) (SpeedRunVel td))
             (fun i row =>
                PlotLine
                  (py_slice (times td) (te_start_idx row) (te_end_idx row))
                  (py_slice (SpeedRunVel td) (te_start_idx row) (te_end_idx row))
                  "r-" (if (i =? 0)%nat then "Reversals (>3s)" else EmptyString))
             _ 0%nat).
    intros i row Hrow. simpl.
    destruct (Hrows row) as [Hse He]; [by eapply list_elem_of_lookup_2 |].
    by apply highlight_full.
  - apply Forall_forall. intros row Hrow.
    destruct (Hrows row Hrow) as [Hse He].
    rewrite !length_py_slice_in_range by lia. repeat split. lia.
Qed.

Lemma highlights_match_rows_witness :
  length (dp_lines (dot_product_figure track_five)) = 2%nat.
Proof.
  destruct (highlights_match_rows track_five eq_refl) as [-> _]. reflexivity.
Defined.

(** ** The close-up: the padded view around the reversal *)

Lemma py_int_tenth (d : Z) : py_int (0.1 * inject_Z d) = d ÷ 10.
Proof. unfold py_int. simpl. f_equal. lia. Qed.

Lemma take_plus_app {A} (n m : nat) (l : list A) :
  take (n + m) l = take n l ++ take m (drop n l).
Proof.
  revert l. induction n as [|n IH]; intros l; [done |].
  destruct l as [|x l]; simpl; [by rewrite take_nil | by rewrite IH].
Qed.

(** A slice cut at two inner points. *)
Lemma py_slice_split {A} (l : list A) (a' a b b' : Z) :
  0 <= a' <= a -> a <= b -> b <= b' <= Z.of_nat (length l) ->
  py_slice l a' b' = py_slice l a' a ++ py_slice l a b ++ py_slice l b b'.
Proof.
  intros Ha Hab Hb. rewrite !py_slice_in_range by lia.
  replace (Z.to_nat (b' - a'))
    with (Z.to_nat (a - a') + (Z.to_nat (b - a) + Z.to_nat (b' - b)))%nat by lia.
  rewrite !take_plus_app, !drop_drop.
  replace (Z.to_nat a' + Z.to_nat (a - a'))%nat with (Z.to_nat a) by lia.
  replace (Z.to_nat a + Z.to_nat (b - a))%nat with (Z.to_nat b) by lia.
  done.
Qed.

(** For a window that lies within the time series, the view of the
    close-up is the shaded span of the reversal with up to [padding]
    samples before it and after it, [padding] being a tenth of the
    window's length rounded down; the view is cut at the ends of the
    series. *)
Theorem closeup_view_extends_span (td : track_data) (reversal_idx : Z)
    (rev : reversal) :
  let s := rev_start_idx rev in
  let e := rev_end_idx rev (length (times td)) in
  let N := Z.of_nat (length (times td)) in
  let padding := (e - s) ÷ 10 in
  let fig := closeup_figure td reversal_idx rev in
  0 <= s <= e -> e <= N ->
  (exists pre post,
     pl_x (cu_view fig) = pre ++ (cu_fill fig).1 ++ post
     /\ length pre = Z.to_nat (Z.min s padding)
     /\ length post = Z.to_nat (Z.min (N - e) padding))
  /\ (length (SpeedRunVel td) = length (times td) ->
      exists pre post,
        pl_y (cu_view fig) = pre ++ (cu_fill fig).2 ++ post
        /\ length pre = Z.to_nat (Z.min s padding)
        /\ length post = Z.to_nat (Z.min (N - e) padding)).
Proof.
  cbv zeta. intros Hse He.
  set (s := rev_start_idx rev) in *.
  set (e := rev_end_idx rev (length (times td))) in *.
  set (N := Z.of_nat (length (times td))) in *.
  unfold closeup_figure. cbn [cu_view cu_fill pl_x pl_y fst snd].
  fold s e N. rewrite py_int_tenth.
  set (p := (e - s) ÷ 10).
  assert (Hp : 0 <= p) by (apply Z.quot_pos; lia).
  set (vs := Z.max 0 (s - p)). set (ve := Z.min N (e + p)).
  assert (Hvs : 0 <= vs <= s) by lia.
  assert (Hve : e <= ve <= N) by lia.
  split.
  - exists (py_slice (times td) vs s), (py_slice (times td) e ve).
    split; [apply py_slice_split; lia |].
    rewrite !length_py_slice_in_range by lia. split; lia.
  - intros Hlen.
    exists (py_slice (SpeedRunVel td) vs s), (py_slice (SpeedRunVel td) e ve).
    split; [apply py_slice_split; lia |].
    rewrite !length_py_slice_in_range by lia. split; lia.
Qed.

Lemma closeup_view_extends_span_witness :
  exists pre post,
    pl_x (cu_view (closeup_figure track_five 1 (window 1 5)))
    = pre ++ (cu_fill (closeup_figure track_five 1 (window 1 5))).1 ++ post
    /\ length pre = 0%nat /\ length post = 0%nat.
Proof.
  destruct (closeup_view_extends_span track_five 1 (window 1 5))
    as [(pre & post & H1 & H2 & H3) _]; [done | done |].
  by exists pre, post.
Defined.

(** ** The trajectory: when it can be drawn, and the range of the
    gradient *)

Lemma rmap_inl {A B} (f : A -> result B) (l : list A) (e : exn) :
  rmap f l = inl e -> exists a, a ∈ l /\ f a = inl e.
Proof.
  induction l as [|a l IH]; simpl; [done |].
  destruct (f a) as [e'|b] eqn:Ha.
  - intros [= <-]. exists a. split; [left | done].
  - destruct (rmap f l) as [e'|bs]; [| done].
    intros [= <-]. destruct (IH eq_refl) as (a' & Hin & Ha').
    exists a'. split; [by right | done].
Qed.

Lemma rmap_fails {A B} (f : A -> result B) (l : list A) (a : A) (e : exn) :
  a ∈ l -> f a = inl e -> exists e', rmap f l = inl e'.
Proof.
  intros Hin Ha. induction l as [|a' l IH]; [by apply elem_of_nil in Hin |].
  simpl. destruct (f a') as [e'|b] eqn:Ha'; [by eexists |].
  apply elem_of_cons in Hin as [-> | Hin]; [congruence |].
  destruct (IH Hin) as [e' ->]. by eexists.
Qed.

Lemma np_index_error (a : list Q) (i : Z) (e : exn) :
  np_index a i = inl e -> exn_type e = IndexError.
Proof. unfold np_index. destruct (py_index a i); [done |]. by intros [= <-]. Qed.

Lemma np_index_out_of_range (a : list Q) (i : nat) :
  (length a <= i)%nat -> exists e, np_index a (Z.of_nat i) = inl e.
Proof.
  intros Hi. unfold np_index. rewrite py_index_nonneg by lia.
  rewrite Nat2Z.id, lookup_ge_None_2 by done. by eexists.
Qed.

Section Drawable.

Variable np_sqrt : Q -> Q.

Lemma speed_step_error (xpos ypos eti : list Q) (i : nat) (e : exn) :
  speed_step np_sqrt xpos ypos eti i = inl e -> exn_type e = IndexError.
Proof.
  unfold speed_step, rbind, ok.
  destruct (np_index xpos (Z.of_nat i + 1)) eqn:?;
    [intros [= <-]; by eapply np_index_error |].
  destruct (np_index xpos (Z.of_nat i)) eqn:?;
    [intros [= <-]; by eapply np_index_error |].
  destruct (np_index ypos (Z.of_nat i + 1)) eqn:?;
    [intros [= <-]; by eapply np_index_error |].
  destruct (np_index ypos (Z.of_nat i)) eqn:?;
    [intros [= <-]; by eapply np_index_error |].
  destruct (_ <? _); [| done].
  destruct (np_index eti (Z.of_nat i + 1)) eqn:?;
    [intros [= <-]; by eapply np_index_error |].
  destruct (np_index eti (Z.of_nat i)) eqn:?;
    [intros [= <-]; by eapply np_index_error |].
  done.
Qed.

Lemma draw_segment_error (td : track_data) (speeds : list Q) (i : nat)
    (e : exn) :
  draw_segment td speeds i = inl e -> exn_type e = IndexError.
Proof.
  unfold draw_segment, rbind.
  destruct (speeds !! i); [| done]. destruct (Qlt_bool 0 _); [| done].
  destruct (np_index (xpos td) (Z.of_nat i)) eqn:?;
    [intros [= <-]; by eapply np_index_error |].
  destruct (np_index (xpos td) (Z.of_nat i + 1)) eqn:?;
    [intros [= <-]; by eapply np_index_error |].
  destruct (np_index (ypos td) (Z.of_nat i)) eqn:?;
    [intros [= <-]; by eapply np_index_error |].
  destruct (np_index (ypos td) (Z.of_nat i + 1)) eqn:?;
    [intros [= <-]; by eapply np_index_error |].
  done.
Qed.

(** The trajectory can be drawn exactly when the track has at most one
    position or at least as many [ypos] samples as [xpos] samples; when
    it cannot, the renderer raises [IndexError]. *)
Theorem trajectory_figure_succeeds_iff (td : track_data) :
  ((exists fig, trajectory_figure np_sqrt td = ok fig) <->
   (length (xpos td) <= 1)%nat \/ (length (xpos td) <= length (ypos td))%nat)
  /\ (forall e, trajectory_figure np_sqrt td = inl e ->
                exn_type e = IndexError).
Proof.
  split; [split |].
  - intros [fig Hfig].
    destruct (decide (length (xpos td) <= 1)%nat) as [| Hx]; [by left |].
    destruct (decide (length (xpos td) <= length (ypos td))%nat) as [| Hy];
      [by right |].
    exfalso. unfold trajectory_figure, rbind in Hfig.
    destruct (compute_speeds _ _ _ _) as [e|speeds] eqn:Hsp; [done |].
    clear Hfig. unfold compute_speeds in Hsp.
    set (i := (length (ypos td) - 1)%nat).
    assert (Hi : i ∈ seq 0 (length (xpos td) - 1)) by (apply elem_of_seq; lia).
    assert (Hfail : exists e, speed_step np_sqrt (xpos td) (ypos td) (eti td) i
                              = inl e).
    { unfold speed_step, rbind.
      replace (Z.of_nat i + 1) with (Z.of_nat (i + 1)) by lia.
      rewrite !np_index_in_range by lia.
      destruct (np_index_out_of_range (ypos td) (i + 1)) as [e ->]; [lia |].
      by eexists. }
    destruct Hfail as [e He].
    destruct (rmap_fails _ _ _ _ Hi He) as [e' He']. congruence.
  - intros Hlen. unfold trajectory_figure.
    assert (Hall : forall i, i ∈ seq 0 (length (xpos td) - 1) ->
                   (i + 1 < length (xpos td))%nat
                   /\ (i + 1 < length (ypos td))%nat).
    { intros i Hi. apply elem_of_seq in Hi. lia. }
    unfold compute_speeds.
    rewrite (rmap_ok _ (spec_speed np_sqrt (xpos td) (ypos td) (eti td)))
      by (intros i Hi; apply speed_step_in_range; by apply Hall).
    cbn [rbind ok].
    erewrite rmap_ok
      by (intros i Hi; apply draw_segment_in_range; by apply Hall).
    by eexists.
  - intros e. unfold trajectory_figure, rbind.
    destruct (compute_speeds _ _ _ _) as [e'|speeds] eqn:Hsp.
    { intros [= <-]. apply rmap_inl in Hsp as (i & _ & Hi).
      by apply speed_step_error in Hi. }
    destruct (rmap _ _) as [e'|drawn] eqn:Hdr; [| done].
    intros [= <-]. apply rmap_inl in Hdr as (i & _ & Hi).
    by apply draw_segment_error in Hi.
Qed.

Hypothesis np_sqrt_nonneg : forall q, (0 <= q)%Q -> (0 <= np_sqrt q)%Q.

(** The value handed to the gradient lies in the range of the gradient:
    the normalised speed of a drawn segment is at least 0 and at most
    1. *)
Theorem normalized_speed_in_unit_interval (td : track_data)
    (fig : trajectory_fig) (seg : segment) (v : Q) :
  trajectory_figure np_sqrt td = ok fig ->
  seg ∈ tr_segments fig -> seg_color seg = speed_cmap v ->
  (0 <= v)%Q /\ (v <= 1)%Q.
Proof.
  intros Hfig Hseg Hcol.
  apply trajectory_figure_inv in Hfig as (speeds & drawn & Hsp & Hdr & Hsegs).
  rewrite Hsegs in Hseg.
  apply list_elem_of_omap in Hseg as (d & Hd & Hid). simpl in Hid. subst d.
  apply rmap_inv in Hdr. apply list_elem_of_lookup in Hd as [k Hk].
  destruct (Forall2_lookup_r _ _ _ _ _ Hdr Hk) as (i & _ & Hi).
  apply draw_segment_Some in Hi as (s & Hs & Hs0 & _ & Hc).
  rewrite Hc in Hcol. unfold segment_color in Hcol.
  destruct (in_reversal _ _ _); [done |]. injection Hcol as <-.
  assert (Hin : s ∈ speeds) by by eapply list_elem_of_lookup_2.
  pose proof (normalize_divisor_pos speeds
                (compute_speeds_nonneg np_sqrt np_sqrt_nonneg _ _ _ _ Hsp))
    as Hdiv.
  destruct (speed_min_spec speeds) as [_ Hmin].
  destruct (Hmin (ex_intro _ s (conj Hin Hs0))) as (_ & _ & Hle).
  specialize (Hle s Hin Hs0).
  destruct (speed_max_spec speeds) as [_ Hmax].
  destruct Hmax as [_ Hge]; [intros ->; by apply elem_of_nil in Hin |].
  specialize (Hge s Hin).
  pose proof eps_pos as Heps. unfold normalize.
  set (eps := 1e-10%Q) in *.
  split.
  - apply Qle_shift_div_l; [done | lra].
  - apply Qle_shift_div_r; [done | lra].
Qed.

End Drawable.

Lemma trajectory_figure_succeeds_iff_witness :
  exists e,
    trajectory_figure approx_sqrt
      (TrackData 1 [] [] [0; 1; 2]%Q [0; 1]%Q [] "unknown" 0.01 []) = inl e
    /\ exn_type e = IndexError.
Proof.
  destruct (trajectory_figure approx_sqrt
              (TrackData 1 [] [] [0; 1; 2]%Q [0; 1]%Q [] "unknown" 0.01 []))
    as [e|fig] eqn:H.
  - exists e. split; [done |].
    exact (proj2 (trajectory_figure_succeeds_iff approx_sqrt _) e H).
  - vm_compute in H. discriminate H.
Defined.

Lemma normalized_speed_in_unit_interval_witness :
  (0 <= 0)%Q /\ (0 <= 1)%Q.
Proof.
  apply (normalized_speed_in_unit_interval approx_sqrt approx_sqrt_nonneg
           track_five trajectory_five
           (Segment 0 (0, 3)%Q (0, 4)%Q (speed_cmap 0)) 0%Q).
  - vm_compute. reflexivity.
  - unfold trajectory_five. cbn [tr_segments]. left.
  - reflexivity.
Defined.

(** ** Names and numbers: [str.replace] and [int] undo the naming *)

Lemma all_chars_impl (p q : Ascii.ascii -> bool) (s : string) :
  (forall c, p c = true -> q c = true) ->
  all_chars p s = true -> all_chars q s = true.
Proof.
  intros Hpq. induction s as [|c s IH]; simpl; [done |].
  rewrite !andb_true_iff. intros [Hc Hs]. split; [by apply Hpq | by apply IH].
Qed.

Lemma all_chars_rev_app (p : Ascii.ascii -> bool) (s t : string) :
  all_chars p s = true -> all_chars p t = true ->
  all_chars p (String.rev_app s t) = true.
Proof.
  revert t. induction s as [|c s IH]; intros t; simpl; [done |].
  rewrite andb_true_iff. intros [Hc Hs] Ht. apply IH; [done |].
  simpl. by rewrite Hc, Ht.
Qed.

Lemma rev_app_rev_app (s1 s2 s3 : string) :
  String.rev_app (String.rev_app s1 s2) s3
  = String.rev_app s2 (s1 +:+ s3).
Proof.
  revert s2. induction s1 as [|c s1 IH]; intros s2; [done |].
  simpl. rewrite IH. done.
Qed.

Lemma string_app_empty_r (s : string) : s +:+ EmptyString = s.
Proof.
  induction s as [|c s IH]; [done |].
  change (String c s +:+ EmptyString) with (String c (s +:+ EmptyString)).
  by rewrite IH.
Qed.

Lemma lstrip_id (s : string) :
  all_chars (fun c => negb (is_space c)) s = true -> lstrip s = s.
Proof.
  destruct s as [|c s]; simpl; [done |].
  rewrite andb_true_iff, negb_true_iff. by intros [-> _].
Qed.

(** Text without white space is what [strip] leaves alone. *)
Lemma strip_id (s : string) :
  all_chars (fun c => negb (is_space c)) s = true -> strip s = s.
Proof.
  intros Hs. unfold strip. rewrite (lstrip_id s Hs).
  rewrite lstrip_id by (by apply all_chars_rev_app).
  unfold String.rev. rewrite rev_app_rev_app. simpl.
  apply string_app_empty_r.
Qed.

Lemma is_digit_not_space (c : Ascii.ascii) :
  is_digit c = true -> negb (is_space c) = true.
Proof.
  destruct c as [[] [] [] [] [] [] [] []]; vm_compute; congruence.
Qed.

Lemma digit_of_pretty_N_char (d : N) :
  (d < 10)%N -> digit_of (pretty_N_char d) = Some (Z.of_N d).
Proof.
  intros Hd.
  assert (d = 0 \/ d = 1 \/ d = 2 \/ d = 3 \/ d = 4 \/ d = 5 \/ d = 6
          \/ d = 7 \/ d = 8 \/ d = 9)%N as H by lia.
  repeat (destruct H as [-> | H]; [reflexivity |]). by subst.
Qed.

(** Reading back the digits [pretty] wrote. *)
Lemma digits_value_pretty_N_go (x : N) (s : string) (b : bool) :
  (0 < x)%N ->
  digits_value 0 b (pretty_N_go x s) = digits_value (Z.of_N x) true s.
Proof.
  revert s b. induction (N.lt_wf_0 x) as [x _ IH]; intros s b Hx.
  rewrite pretty_N_go_step by done.
  pose proof (N.mod_lt x 10 ltac:(done)) as Hmod.
  pose proof (N.div_mod x 10 ltac:(done)) as Hdiv.
  assert (x `div` 10 = 0 \/ 0 < x `div` 10)%N as [H0 | Hpos] by lia.
  - rewrite H0, pretty_N_go_0. simpl.
    rewrite digit_of_pretty_N_char by done. f_equal. lia.
  - rewrite IH; [| by apply N.div_lt | done]. simpl.
    rewrite digit_of_pretty_N_char by done. f_equal. lia.
Qed.

Lemma all_chars_pretty_N_go (x : N) (s : string) :
  all_chars is_digit s = true -> all_chars is_digit (pretty_N_go x s) = true.
Proof.
  revert s. induction (N.lt_wf_0 x) as [x _ IH]; intros s Hs.
  assert (x = 0 \/ 0 < x)%N as [-> | Hx] by lia.
  - by rewrite pretty_N_go_0.
  - rewrite pretty_N_go_step by done. apply IH; [by apply N.div_lt |].
    simpl. rewrite Hs, andb_true_r. unfold is_digit.
    by rewrite digit_of_pretty_N_char by (by apply N.mod_lt).
Qed.

Lemma all_chars_pretty_N (x : N) : all_chars is_digit (pretty x) = true.
Proof.
  unfold pretty, pretty_N. case_decide; [done |].
  by apply all_chars_pretty_N_go.
Qed.

Lemma digits_value_pretty_N (x : N) :
  digits_value 0 false (pretty x) = Some (Z.of_N x).
Proof.
  unfold pretty, pretty_N. case_decide as Hx; [by subst |].
  rewrite digits_value_pretty_N_go by lia. done.
Qed.

(** [int] on a string of digits. *)
Lemma int_of_str_digits (s : string) (z : Z) :
  all_chars is_digit s = true -> digits_value 0 false s = Some z ->
  int_of_str s = ok z.
Proof.
  intros Hs Hz. unfold int_of_str.
  rewrite strip_id by (eapply all_chars_impl, Hs; apply is_digit_not_space).
  destruct s as [|c s']; [done |].
  simpl in Hs. apply andb_true_iff in Hs as [Hc _].
  destruct c as [[] [] [] [] [] [] [] []]; try (by vm_compute in Hc);
    by rewrite Hz.
Qed.

Lemma int_of_str_pretty_N (x : N) : int_of_str (pretty x) = ok (Z.of_N x).
Proof.
  apply int_of_str_digits;
    [apply all_chars_pretty_N | apply digits_value_pretty_N].
Qed.

Lemma int_of_str_pretty (n : Z) : int_of_str (pretty n) = ok n.
Proof.
  destruct n as [|p|p].
  - reflexivity.
  - apply (int_of_str_pretty_N (Npos p)).
  - change (pretty (Z.neg p)) with (String "-" (pretty (Npos p))).
    unfold int_of_str. rewrite strip_id.
    + rewrite digits_value_pretty_N. done.
    + simpl. eapply all_chars_impl, all_chars_pretty_N.
      apply is_digit_not_space.
Qed.

Lemma drop_str_app (old t : string) :
  drop_str (String.length old) (old +:+ t) = t.
Proof.
  induction old as [|c old IH]; [by destruct t |].
  change (String c old +:+ t) with (String c (old +:+ t)). simpl. exact IH.
Qed.

(** Nothing is replaced in a text that does not hold the first character
    of [old]. *)
Lemma str_replace_go_absent (c0 : Ascii.ascii) (old' new s : string)
    (fuel : nat) :
  all_chars (fun c => negb (Ascii.eqb c c0)) s = true ->
  str_replace_go fuel (String c0 old') new s = s.
Proof.
  revert fuel. induction s as [|c s IH]; intros fuel Hs.
  - by destruct fuel.
  - simpl in Hs. apply andb_true_iff in Hs as [Hc Hs].
    apply negb_true_iff, Ascii.eqb_neq in Hc.
    destruct fuel as [|fuel]; [done |]. simpl.
    destruct (ascii_dec c0 c) as [-> | _]; [done |].
    by rewrite IH.
Qed.

(** [(old + t).replace(old, '')] is [t] when [t] does not hold the first
    character of [old]. *)
Lemma str_replace_prefix (c0 : Ascii.ascii) (old' t : string) :
  all_chars (fun c => negb (Ascii.eqb c c0)) t = true ->
  str_replace (String c0 old') EmptyString (String c0 old' +:+ t) = t.
Proof.
  intros Ht. unfold str_replace.
  pose proof (prefix_app (String c0 old') t) as Hpre.
  pose proof (drop_str_app (String c0 old') t) as Hdrop.
  change (String c0 old' +:+ t) with (String c0 (old' +:+ t)) in *.
  cbn [String.length str_replace_go]. cbn [String.length] in Hdrop.
  rewrite Hpre, Hdrop.
  rewrite str_replace_go_absent by done. done.
Qed.

Lemma all_chars_pretty_Z (p : Ascii.ascii -> bool) (n : Z) :
  p "-"%char = true -> (forall c, is_digit c = true -> p c = true) ->
  all_chars p (pretty n) = true.
Proof.
  intros Hdash Hdigit. destruct n as [|x|x].
  - simpl. rewrite Hdigit; done.
  - eapply all_chars_impl, (all_chars_pretty_N (Npos x)). done.
  - change (pretty (Z.neg x)) with (String "-" (pretty (Npos x))).
    simpl. rewrite Hdash. simpl.
    eapply all_chars_impl, (all_chars_pretty_N (Npos x)). done.
Qed.

(** The number of a track is read back from the name of its directory. *)
Lemma parse_track_name (n : Z) :
  int_of_str (str_replace "track" EmptyString (track_name n)) = ok n.
Proof.
  unfold track_name. rewrite str_replace_prefix; [apply int_of_str_pretty |].
  apply all_chars_pretty_Z; [done |].
  intros c. destruct c as [[] [] [] [] [] [] [] []]; by vm_compute.
Qed.

(** The number of a reversal is read back from its key. *)
Lemma parse_reversal_key (n : Z) :
  int_of_str (str_replace "reversal_" EmptyString ("reversal_" +:+ pretty n))
  = ok n.
Proof.
  rewrite str_replace_prefix; [apply int_of_str_pretty |].
  apply all_chars_pretty_Z; [done |].
  intros c. destruct c as [[] [] [] [] [] [] [] []]; by vm_compute.
Qed.

(** ** [sorted] *)

Lemma insert_by_key_perm {A} (x : Z * A) (l : list (Z * A)) :
  insert_by_key x l ≡ₚ x :: l.
Proof.
  induction l as [|y l IH]; simpl; [done |].
  destruct (x.1 <=? y.1); [done |]. rewrite IH. apply Permutation_swap.
Qed.

Lemma sorted_by_key_perm {A} (l : list (Z * A)) : sorted_by_key l ≡ₚ l.
Proof.
  induction l as [|x l IH]; simpl; [done |].
  by rewrite insert_by_key_perm, IH.
Qed.

Lemma insert_by_key_sorted {A} (x : Z * A) (l : list (Z * A)) :
  StronglySorted (fun a b => a.1 <= b.1) l ->
  StronglySorted (fun a b => a.1 <= b.1) (insert_by_key x l).
Proof.
  induction 1 as [|y l Hl IH Hy]; simpl.
  - repeat constructor.
  - destruct (Z.leb_spec x.1 y.1).
    + constructor; [by constructor |]. constructor; [done |].
      eapply Forall_impl; [exact Hy |]. simpl. intros; lia.
    + constructor; [done |].
      rewrite insert_by_key_perm. constructor; [lia | done].
Qed.

Lemma sorted_by_key_sorted {A} (l : list (Z * A)) :
  StronglySorted (fun a b => a.1 <= b.1) (sorted_by_key l).
Proof.
  induction l as [|x l IH]; simpl; [constructor |].
  by apply insert_by_key_sorted.
Qed.

Lemma length_rmap {A B} (f : A -> result B) (l : list A) (bs : list B) :
  rmap f l = ok bs -> length bs = length l.
Proof. intros H. apply rmap_inv in H. symmetry. by eapply Forall2_length. Qed.

(** ** The loader *)

Lemma attr_float_error (a : h5_attr) (e : exn) :
  attr_float a = inl e -> a = AttrArray [] /\ exn_type e = IndexError.
Proof. destruct a as [v|[|v vs]]; try done. by intros [= <-]. Qed.

(** The attributes of a reversal become the fields of its dictionary,
    under the same names: a scalar as it is, an array by its first
    element.  An empty array attribute makes the load fail with
    [IndexError]. *)
Theorem rev_dict_of_fields (attrs : gmap string h5_attr) :
  (forall m, rev_dict_of attrs = ok m ->
     forall k v, m !! k = Some v
                 <-> exists a, attrs !! k = Some a /\ attr_float a = ok v)
  /\ ((forall k a, attrs !! k = Some a -> a <> AttrArray []) ->
      exists m, rev_dict_of attrs = ok m)
  /\ (forall k, attrs !! k = Some (AttrArray []) ->
      exists e, rev_dict_of attrs = inl e /\ exn_type e = IndexError).
Proof.
  set (g := fun kv : string * h5_attr =>
              rbind (attr_float kv.2) (fun v => ok (kv.1, v))).
  assert (Hg : forall kv f, g kv = ok f ->
                 f.1 = kv.1 /\ attr_float kv.2 = ok f.2).
  { intros [k a] f. unfold g, rbind, ok. simpl.
    destruct (attr_float a) as [e|v]; [done |]. intros [= <-]. split; reflexivity. }
  split; [| split].
  - intros m Hm k v. unfold rev_dict_of in Hm. fold g in Hm.
    unfold rbind, ok in Hm.
    destruct (rmap g (map_to_list attrs)) as [e|fields] eqn:Hf; [done |].
    injection Hm as <-. apply rmap_inv in Hf.
    assert (Hfst : fields.*1 = (map_to_list attrs).*1).
    { clear -Hf Hg. induction Hf as [|kv fld l flds Hkv _ IH]; [done |].
      rewrite !fmap_cons, IH. f_equal. by apply Hg. }
    rewrite <- elem_of_list_to_map
      by (rewrite Hfst; apply NoDup_fst_map_to_list).
    split.
    + intros Hin. apply list_elem_of_lookup in Hin as [i Hi].
      destruct (Forall2_lookup_r _ _ _ _ _ Hf Hi) as ([k' a] & Hka & Hgk).
      apply Hg in Hgk as [Hk Ha]. simpl in Hk, Ha. subst k'.
      exists a. split; [| done].
      apply elem_of_map_to_list. by eapply list_elem_of_lookup_2.
    + intros (a & Hka & Ha). apply elem_of_map_to_list in Hka.
      apply list_elem_of_lookup in Hka as [i Hi].
      destruct (Forall2_lookup_l _ _ _ _ _ Hf Hi) as ([k' v'] & Hkv & Hgk).
      apply Hg in Hgk as [Hk Hv]. simpl in Hk, Hv. subst k'.
      rewrite Ha in Hv. injection Hv as <-.
      by eapply list_elem_of_lookup_2.
  - intros Hok. unfold rev_dict_of. fold g. unfold rbind.
    destruct (rmap g (map_to_list attrs)) as [e|fields] eqn:Hf; [| by eexists].
    exfalso. apply rmap_inl in Hf as ([k a] & Hin & Hgk).
    apply elem_of_map_to_list in Hin. unfold g, rbind, ok in Hgk. simpl in Hgk.
    destruct (attr_float a) as [e'|v] eqn:Ha; [| done].
    apply attr_float_error in Ha as [-> _]. by apply (Hok k _ Hin).
  - intros k Hk. unfold rev_dict_of. fold g. unfold rbind.
    apply elem_of_map_to_list in Hk.
    destruct (rmap g (map_to_list attrs)) as [e|fields] eqn:Hf.
    + exists e. split; [done |].
      apply rmap_inl in Hf as ([k' a] & _ & Hgk).
      unfold g, rbind, ok in Hgk. simpl in Hgk.
      destruct (attr_float a) as [e'|v] eqn:Ha; [| done].
      injection Hgk as <-. by apply attr_float_error in Ha as [_ ?].
    + exfalso. apply rmap_inv in Hf.
      apply list_elem_of_lookup in Hk as [i Hi].
      by destruct (Forall2_lookup_l _ _ _ _ _ Hf Hi) as (f & _ & Hgk).
Qed.

(** What a successful [read_track] did with the group of reversals. *)
Lemma read_track_reversals (f : h5file) (td : track_data)
    (rev_group : list (string * gmap string h5_attr)) :
  read_track f = ok td -> h5_reversals f = Some rev_group ->
  exists keyed,
    rmap (fun kv : string * gmap string h5_attr =>
            rbind (int_of_str (str_replace "reversal_" EmptyString kv.1))
              (fun n => ok (n, kv.2))) rev_group = ok keyed
    /\ rmap (fun kv : Z * gmap string h5_attr => rev_dict_of kv.2)
         (sorted_by_key keyed) = ok (reversals td).
Proof.
  intros Hread Hgroup. unfold read_track, rbind, ok in Hread.
  rewrite Hgroup in Hread.
  repeat (destruct (h5_dataset f _) as [?|?]; [done |]).
  destruct (np_index _ _) as [?|?]; [done |].
  repeat (destruct (h5_dataset f _) as [?|?]; [done |]).
  destruct (rmap _ rev_group) as [?|keyed] eqn:Hkeyed; [done |].
  destruct (rmap _ (sorted_by_key keyed)) as [?|revs] eqn:Hrevs; [done |].
  injection Hread as <-. exists keyed. done.
Qed.

(** The reversals of a loaded track come in the ascending order of the
    numbers in their keys, whatever the order of the keys in the data
    store, and there is one per key; a key [reversal_<n>] carries the
    number [n]. *)
Theorem read_track_reversals_in_key_order (f : h5file) (td : track_data)
    (rev_group : list (string * gmap string h5_attr)) :
  read_track f = ok td -> h5_reversals f = Some rev_group ->
  length (reversals td) = length rev_group
  /\ exists keyed ordered : list (Z * gmap string h5_attr),
       Forall2 (fun kv na =>
                  int_of_str (str_replace "reversal_" EmptyString kv.1) = ok na.1
                  /\ na.2 = kv.2
                  /\ forall n : Z, kv.1 = "reversal_" +:+ pretty n -> na.1 = n)
         rev_group keyed
       /\ ordered ≡ₚ keyed
       /\ StronglySorted (fun a b => a.1 <= b.1) ordered
       /\ Forall2 (fun na rev => rev_dict_of na.2 = ok rev)
            ordered (reversals td).
Proof.
  intros Hread Hgroup.
  destruct (read_track_reversals f td rev_group Hread Hgroup)
    as (keyed & Hkeyed & Hrevs).
  split.
  - rewrite (length_rmap _ _ _ Hrevs).
    rewrite (Permutation_length (sorted_by_key_perm keyed)).
    apply (length_rmap _ _ _ Hkeyed).
  - exists keyed, (sorted_by_key keyed).
    split; [| split; [apply sorted_by_key_perm |
                      split; [apply sorted_by_key_sorted |
                              by apply rmap_inv in Hrevs]]].
    apply rmap_inv in Hkeyed. eapply Forall2_impl; [exact Hkeyed |].
    intros [k attrs] [n attrs']. unfold rbind, ok. simpl.
    destruct (int_of_str _) as [e|n'] eqn:Hn; [done |].
    intros [= <- <-]. repeat split. intros n0 ->.
    rewrite parse_reversal_key in Hn. by injection Hn.
Qed.

Lemma read_track_reversals_in_key_order_witness :
  length (reversals track_five) = 2%nat.
Proof.
  apply (read_track_reversals_in_key_order h5_five track_five
           (default [] (h5_reversals h5_five))); reflexivity.
Defined.

(** A data store that lacks one of the six datasets cannot be loaded:
    [read_track] raises, and the error is a [KeyError] unless the dataset
    [track_num] is there but empty. *)
Theorem read_track_missing_dataset (f : h5file) (name : string) :
  name ∈ ["track_num"; "SpeedRunVel"; "times"; "xpos"; "ypos"; "eti"]%string ->
  h5_datasets f !! name = None ->
  exists e, read_track f = inl e
            /\ (exn_type e = KeyError
                \/ (exn_type e = IndexError
                    /\ h5_datasets f !! "track_num"%string = Some [])).
Proof.
  intros Hname Hnone. unfold read_track, rbind, h5_dataset, ok, raise.
  destruct (h5_datasets f !! "track_num"%string) as [tn|] eqn:Htn;
    [| eexists; split; [done | by left]].
  destruct (np_index tn 0) as [e|tn0] eqn:Hidx.
  { exists e. split; [done |]. right. split; [by eapply np_index_error |].
    by destruct tn. }
  destruct (h5_datasets f !! "SpeedRunVel"%string) eqn:Hsrv;
    [| eexists; split; [done | by left]].
  destruct (h5_datasets f !! "times"%string) eqn:Hts;
    [| eexists; split; [done | by left]].
  destruct (h5_datasets f !! "xpos"%string) eqn:Hxs;
    [| eexists; split; [done | by left]].
  destruct (h5_datasets f !! "ypos"%string) eqn:Hys;
    [| eexists; split; [done | by left]].
  destruct (h5_datasets f !! "eti"%string) eqn:Het;
    [| eexists; split; [done | by left]].
  exfalso. repeat (apply elem_of_cons in Hname as [-> | Hname]; [congruence |]).
  by apply elem_of_nil in Hname.
Qed.

Lemma read_track_missing_dataset_witness :
  exists e, read_track h5_broken = inl e.
Proof.
  destruct (read_track_missing_dataset h5_broken "times")
    as (e & He & _); [set_solver | done |].
  by exists e.
Defined.

(** ** The auto-detection of tracks *)


Lemma last_child (p : path) (name : string) :
  List.last (child p name) EmptyString = name.
Proof. apply last_last. Qed.

Lemma child_parent_last (d : path) :
  d <> [] -> d = child (parent d) (List.last d EmptyString).
Proof. intros Hd. by apply app_removelast_last. Qed.

(** The directories the auto-detection looks at: the children of
    [results_dir] that are directories and whose name starts with
    [track]. *)
Lemma discover_tracks_named (R : path) (w : world) (d : path) :
  d ∈ List.filter
        (fun d : path =>
           is_dir w d && String.prefix "track" (List.last d EmptyString))
        (List.filter
           (fun d : path =>
              negb (bool_decide (d = [])) && bool_decide (parent d = R))
           (map fst (map_to_list (fs w))))
  <-> exists name, d = child R name /\ is_dir w d = true
                   /\ String.prefix "track" name = true.
Proof.
  rewrite list_elem_of_In, !filter_In, <- list_elem_of_In.
  rewrite !andb_true_iff, negb_true_iff, bool_decide_eq_false,
    bool_decide_eq_true.
  split.
  - intros ((_ & Hne & Hpar) & Hdir & Hpre).
    exists (List.last d EmptyString). split; [| done].
    rewrite <- Hpar. by apply child_parent_last.
  - intros (name & -> & Hdir & Hpre).
    rewrite last_child, parent_child. repeat split; try done.
    + unfold is_dir in Hdir. rewrite lookup_node_child in Hdir.
      destruct (fs w !! child R name) as [nd|] eqn:Hnd; [| done].
      apply list_elem_of_fmap. exists (child R name, nd). split; [done |].
      by apply elem_of_map_to_list.
    + unfold child. by destruct R.
Qed.

(** When the auto-detection succeeds it leaves the world as it was, and
    the numbers it returns are in ascending order; they are the numbers
    read from the names of the sub-directories of [results_dir] whose
    name starts with [track].  In particular the directory the unit of
    track [n] reads, [track<n>], is found. *)
Theorem discover_tracks_spec (R : path) (w w' : world) (nums : list Z) :
  discover_tracks R w = (ok nums, w') ->
  w' = w
  /\ StronglySorted Z.le nums
  /\ (forall n, n ∈ nums <->
        exists name, is_dir w (child R name) = true
                     /\ String.prefix "track" name = true
                     /\ int_of_str (str_replace "track" EmptyString name) = ok n)
  /\ (forall n, is_dir w (child R (track_name n)) = true -> n ∈ nums).
Proof.
  unfold discover_tracks.
  destruct (lookup_node w R) as [[|c]|]; [| done | done].
  set (named := List.filter _ (List.filter _ _)).
  unfold rbind.
  destruct (rmap _ named) as [e|nums0] eqn:Hparse; [done |].
  intros [= <- <-].
  assert (Hnums : forall n, n ∈ merge_sort Z.le nums0 <->
            exists name, is_dir w (child R name) = true
                         /\ String.prefix "track" name = true
                         /\ int_of_str (str_replace "track" EmptyString name)
                            = ok n).
  { intros n. rewrite merge_sort_Permutation. apply rmap_inv in Hparse. split.
    - intros Hn. apply list_elem_of_lookup in Hn as [i Hi].
      destruct (Forall2_lookup_r _ _ _ _ _ Hparse Hi) as (d & Hd & Hint).
      apply list_elem_of_lookup_2, discover_tracks_named in Hd
        as (name & -> & Hdir & Hpre).
      rewrite last_child in Hint. by exists name.
    - intros (name & Hdir & Hpre & Hint).
      assert (Hd : child R name ∈ named)
        by (apply discover_tracks_named; by exists name).
      apply list_elem_of_lookup in Hd as [i Hi].
      destruct (Forall2_lookup_l _ _ _ _ _ Hparse Hi) as (n' & Hn' & Hint').
      rewrite last_child, Hint in Hint'. injection Hint' as <-.
      by eapply list_elem_of_lookup_2. }
  split; [done |]. split; [apply (StronglySorted_merge_sort _) |].
  split; [exact Hnums |].
  intros n Hdir. apply Hnums. exists (track_name n).
  split; [done |]. split; [apply prefix_app | apply parse_track_name].
Qed.

Lemma discover_tracks_spec_witness :
  7 ∈ [3; 7; 8].
Proof.
  apply (discover_tracks_spec ["res"%string] demo_world demo_world [3; 7; 8]).
  - vm_compute. reflexivity.
  - vm_compute. reflexivity.
Defined.


(** ** Where a run leaves its marks *)

Lemma changes_within_refl (P : path -> Prop) (E : event -> Prop) (w : world) :
  changes_within P E w w.
Proof. split; [done |]. exists []. by rewrite app_nil_r. Qed.

Lemma changes_within_trans (P : path -> Prop) (E : event -> Prop)
    (w1 w2 w3 : world) :
  changes_within P E w1 w2 -> changes_within P E w2 w3 ->
  changes_within P E w1 w3.
Proof.
  intros (Hfs1 & evs1 & Ht1 & He1) (Hfs2 & evs2 & Ht2 & He2). split.
  - intros p Hp. by rewrite Hfs2, Hfs1.
  - exists (evs1 ++ evs2). split; [by rewrite Ht2, Ht1, app_assoc |].
    by apply Forall_app.
Qed.

Lemma confined_weaken {X} (P P' : path -> Prop) (E E' : event -> Prop)
    (c : world -> X * world) :
  (forall p, P p -> P' p) -> (forall ev, E ev -> E' ev) ->
  confined P E c -> confined P' E' c.
Proof.
  intros HP HE Hc w. destruct (Hc w) as (Hfs & evs & Ht & He). split.
  - intros p Hp. apply Hfs. intros H. by apply Hp, HP.
  - exists evs. split; [done |]. eapply Forall_impl; [exact He | exact HE].
Qed.

Lemma confined_mret {A} (P : path -> Prop) (E : event -> Prop) (a : A) :
  confined P E (mret a).
Proof. intros w. apply changes_within_refl. Qed.

Lemma confined_lift {A} (P : path -> Prop) (E : event -> Prop) (r : result A) :
  confined P E (lift r).
Proof. intros w. apply changes_within_refl. Qed.

Lemma confined_mbind {A B} (P : path -> Prop) (E : event -> Prop)
    (c : M A) (f : A -> M B) :
  confined P E c -> (forall a, confined P E (f a)) -> confined P E (mbind c f).
Proof.
  intros Hc Hf w. unfold mbind. specialize (Hc w).
  destruct (c w) as [[e|a] w1]; simpl in *; [done |].
  eapply changes_within_trans; [done | apply Hf].
Qed.

Lemma confined_mfor {A} (P : path -> Prop) (E : event -> Prop)
    (l : list A) (body : A -> M unit) :
  (forall a, a ∈ l -> confined P E (body a)) -> confined P E (mfor l body).
Proof.
  induction l as [|a l IH]; intros Hbody; simpl.
  - apply confined_mret.
  - apply confined_mbind; [apply Hbody; left |].
    intros _. apply IH. intros a' Ha'. apply Hbody. by right.
Qed.

Lemma confined_emit (P : path -> Prop) (E : event -> Prop) (ev : event) :
  E ev -> confined P E (emit ev).
Proof.
  intros Hev w. split; [done |]. exists [ev]. split; [done |].
  by constructor.
Qed.

Lemma confined_mkdir_exist_ok (P : path -> Prop) (E : event -> Prop) (p : path) :
  P p -> E (EvMkdir p) -> confined P E (mkdir_exist_ok p).
Proof.
  intros HP HE w. unfold mkdir_exist_ok.
  destruct (lookup_node w p) as [[|c]|]; try apply changes_within_refl.
  destruct (lookup_node w (parent p)) as [[|c]|]; try apply changes_within_refl.
  split; cbn [snd fs trace].
  - intros q Hq. apply lookup_insert_ne. by intros ->.
  - exists [EvMkdir p]. split; [done |]. by constructor.
Qed.

Lemma confined_write_file (P : path -> Prop) (E : event -> Prop) (p : path)
    (c : content) :
  P p -> E (EvWrite p) -> confined P E (write_file p c).
Proof.
  intros HP HE w. unfold write_file.
  assert (Hwrite :
    changes_within P E w
      (World (<[p := File c]> (fs w)) (trace w ++ [EvWrite p]))).
  { split; cbn [fs trace].
    - intros q Hq. apply lookup_insert_ne. by intros ->.
    - exists [EvWrite p]. split; [done |]. by constructor. }
  destruct (lookup_node w p) as [[|c']|];
    destruct (lookup_node w (parent p)) as [[|c'']|];
    first [apply changes_within_refl | exact Hwrite].
Qed.

Lemma confined_load_track_data (P : path -> Prop) (E : event -> Prop)
    (d : path) :
  E (EvLoad d) -> confined P E (load_track_data d).
Proof.
  intros HE. unfold load_track_data.
  apply confined_mbind; [by apply confined_emit |]. intros _ w.
  destruct (negb _); [apply changes_within_refl |].
  destruct (lookup_node w _) as [[|[]]|]; apply changes_within_refl.
Qed.

Lemma confined_plot_reversal_closeup (P : path -> Prop) (E : event -> Prop)
    (td : track_data) (idx : Z) (p : path) :
  P p -> E (EvWrite p) -> confined P E (plot_reversal_closeup td idx p).
Proof.
  intros HP HE. unfold plot_reversal_closeup.
  destruct (_ <=? _); [apply confined_mret |].
  apply confined_mbind; [apply confined_lift |]. intros rev.
  apply confined_mbind; [apply confined_lift |]. intros _.
  apply confined_mbind; [apply confined_lift |]. intros _.
  by apply confined_write_file.
Qed.

Lemma prefix_of_child (F : path) (x : string) : F `prefix_of` child F x.
Proof. by apply prefix_app_r. Qed.

Lemma prefix_of_grandchild (F : path) (x y : string) :
  F `prefix_of` child (child F x) y.
Proof. unfold child. rewrite <- app_assoc. by apply prefix_app_r. Qed.

Lemma mkdir_parents_confined (F : path) :
  confined (fun p => p `prefix_of` F)
    (fun ev => exists p, ev = EvMkdir p /\ p `prefix_of` F)
    (mkdir_parents F).
Proof.
  unfold mkdir_parents. apply confined_mfor. intros n _.
  apply confined_mkdir_exist_ok; [apply prefix_take |].
  eexists. split; [done | apply prefix_take].
Qed.

Lemma confined_discover_tracks (P : path -> Prop) (E : event -> Prop)
    (R : path) :
  confined P E (discover_tracks R).
Proof.
  intros w. unfold discover_tracks.
  destruct (lookup_node w R) as [[|c]|]; apply changes_within_refl.
Qed.

Section Confined.

Variable np_sqrt : Q -> Q.
Variables R F : path.

Lemma confined_process_body (n : Z) :
  confined (run_paths F) (run_event R F)
    (process_body np_sqrt n (child R (track_name n)) F).
Proof.
  assert (Hdir : run_paths F (child F (track_name n)))
    by (right; apply prefix_of_child).
  assert (Hfile : forall x,
            run_paths F (child (child F (track_name n)) x)
            /\ run_event R F (EvWrite (child (child F (track_name n)) x))).
  { intros x. split; [right; apply prefix_of_grandchild |].
    split; [apply prefix_of_grandchild | apply grandchild_ne]. }
  unfold process_body. fold (track_name n).
  apply confined_mbind.
  { apply confined_load_track_data. by exists n. }
  intros data. apply confined_mbind.
  { by apply confined_mkdir_exist_ok. }
  intros _. apply confined_mbind.
  { unfold plot_dot_product. apply confined_mbind; [apply confined_lift |].
    intros _. apply confined_write_file; apply Hfile. }
  intros _. apply confined_mbind.
  { unfold plot_trajectory. apply confined_mbind; [apply confined_lift |].
    intros fig. apply confined_write_file; apply Hfile. }
  intros _. apply confined_mbind; [| intros _; apply confined_mret].
  apply confined_mfor. intros r_idx _.
  apply confined_plot_reversal_closeup; apply Hfile.
Qed.

Lemma confined_process_single_track (n : Z) :
  confined (run_paths F) (run_event R F)
    (process_single_track np_sqrt (n, R, F)).
Proof.
  intros w. unfold process_single_track.
  destruct (negb _); [apply changes_within_refl |].
  pose proof (confined_process_body n w) as H. unfold track_name in H.
  destruct (process_body _ _ _ _ _) as [[e|data] w']; exact H.
Qed.

Lemma changes_within_collect_all (tracks : list Z)
    (schedule : list completion) (results : list outcome) (w : world) :
  changes_within (run_paths F) (run_event R F) w
    (foldl (flip (collect np_sqrt (map (fun t => (t, R, F)) tracks)))
       (results, w) schedule).2.
Proof.
  revert results w. induction schedule as [|c schedule IH]; intros results w.
  - apply changes_within_refl.
  - cbn [foldl]. unfold flip at 2. unfold collect at 2.
    rewrite list_lookup_fmap.
    destruct (tracks !! c_task c) as [t|]; cbn -[process_single_track];
      [| apply IH].
    destruct (c_collected c); [| apply IH].
    pose proof (confined_process_single_track t w) as H.
    destruct (process_single_track _ _ _) as [o w'].
    eapply changes_within_trans; [exact H | apply IH].
Qed.

(** A run leaves its marks at the output root, above it and beneath it,
    and nowhere else: every other path of the file tree holds after the
    run what it held before.  The run loads track directories of the
    results directory only, creates directories at, above or beneath the
    output root only, and writes files beneath the output root only. *)
Theorem generate_all_figures_confined (arg : option (list Z))
    (schedule : list completion) (w : world) :
  let w' := (generate_all_figures np_sqrt R F arg schedule w).2 in
  (forall p, ~ p `prefix_of` F -> ~ F `prefix_of` p -> fs w' !! p = fs w !! p)
  /\ exists evs, trace w' = trace w ++ evs /\ Forall (run_event R F) evs.
Proof.
  cbv zeta.
  cut (confined (run_paths F) (run_event R F)
         (generate_all_figures np_sqrt R F arg schedule)).
  { intros H. destruct (H w) as [Hfs Hev]. split; [| done].
    intros p Hp1 Hp2. apply Hfs. by intros [? | ?]. }
  unfold generate_all_figures. apply confined_mbind.
  { eapply confined_weaken, mkdir_parents_confined.
    - intros p Hp. by left.
    - intros ev (p & -> & Hp). by left. }
  intros _. apply confined_mbind.
  { destruct arg; [apply confined_mret | apply confined_discover_tracks]. }
  intros [|t ts]; [apply confined_mret |]. intros w1.
  unfold collect_all.
  pose proof (changes_within_collect_all (t :: ts) schedule [] w1) as H.
  destruct (foldl _ _ _) as [results w2].
  eapply changes_within_trans; [exact H |].
  apply confined_write_file.
  - right. apply prefix_of_child.
  - split; [apply prefix_of_child | apply child_ne].
Qed.

End Confined.

Section Runs.

Variable np_sqrt : Q -> Q.
Variables R F : path.


Lemma lookup_node_fs (w w' : world) (p : path) :
  fs w = fs w' -> lookup_node w p = lookup_node w' p.
Proof. intros H. unfold lookup_node. by rewrite H. Qed.

(** The order in which the pool completes the units shows in the order
    of the outcomes within the summary and nowhere else: two runs from
    the same file tree whose schedules are permutations of each other
    return the same, leave the same node at every path but that of the
    summary, and their summaries hold the same outcomes, in the order of
    completion, with the same total. *)
Theorem completion_order_shows_in_summary_only (arg : option (list Z))
    (schedule schedule' : list completion) (w : world) :
  schedule ≡ₚ schedule' ->
  let r := generate_all_figures np_sqrt R F arg schedule w in
  let r' := generate_all_figures np_sqrt R F arg schedule' w in
  r.1 = r'.1
  /\ (forall p, p <> child F "summary.json" -> fs r.2 !! p = fs r'.2 !! p)
  /\ (forall s, fs r.2 !! child F "summary.json" = Some (File (Json s)) ->
      exists s', fs r'.2 !! child F "summary.json" = Some (File (Json s'))
                 /\ s_tracks s ≡ₚ s_tracks s'
                 /\ s_total_reversals s = s_total_reversals s').
Proof.
  intros Hperm. cbv zeta. unfold generate_all_figures, mbind.
  destruct (mkdir_parents F w) as [[e|[]] w1].
  { repeat split; try done. intros s Hs. by exists s. }
  destruct (match arg with
            | Some ts => mret ts
            | None => discover_tracks R
            end w1) as [[e|tracks] w2].
  { repeat split; try done. intros s Hs. by exists s. }
  destruct tracks as [|t ts].
  { repeat split; try done. intros s Hs. by exists s. }
  set (tracks := t :: ts). unfold collect_all. rewrite !collect_run_jobs.
  assert (Hjobs : jobs_of tracks schedule ≡ₚ jobs_of tracks schedule')
    by (unfold jobs_of; by rewrite Hperm).
  destruct (run_jobs_permutation np_sqrt R F _ _ Hjobs w2 w2 eq_refl)
    as [Hres Hfs].
  destruct (run_jobs np_sqrt R F (jobs_of tracks schedule) w2) as [os w3].
  destruct (run_jobs np_sqrt R F (jobs_of tracks schedule') w2) as [os' w3'].
  cbn [fst snd app] in *.
  destruct (totals_permutation os os' Hres) as [Htot _].
  unfold write_file.
  rewrite (lookup_node_fs w3 w3' (child F "summary.json") Hfs).
  rewrite (lookup_node_fs w3 w3' (parent (child F "summary.json")) Hfs).
  assert (Hsame : forall s,
            fs w3 !! child F "summary.json" = Some (File (Json s)) ->
            exists s', fs w3' !! child F "summary.json" = Some (File (Json s'))
                       /\ s_tracks s ≡ₚ s_tracks s'
                       /\ s_total_reversals s = s_total_reversals s').
  { intros s Hs. exists s. by rewrite <- Hfs. }
  assert (Hwritten :
    (forall p, p <> child F "summary.json" ->
       <[child F "summary.json" := File (Json (Summary os (total_revs os)))]>
         (fs w3) !! p
       = <[child F "summary.json" := File (Json (Summary os' (total_revs os')))]>
           (fs w3') !! p)
    /\ (forall s,
          <[child F "summary.json" := File (Json (Summary os (total_revs os)))]>
            (fs w3) !! child F "summary.json" = Some (File (Json s)) ->
          exists s',
            <[child F "summary.json"
              := File (Json (Summary os' (total_revs os')))]>
              (fs w3') !! child F "summary.json" = Some (File (Json s'))
            /\ s_tracks s ≡ₚ s_tracks s'
            /\ s_total_reversals s = s_total_reversals s')).
  { split.
    - intros p Hp. rewrite !lookup_insert_ne by done. by rewrite Hfs.
    - intros s. rewrite !lookup_insert_eq. intros [= <-].
      eexists. split; [done |]. done. }
  destruct (lookup_node w3' (child F "summary.json")) as [[|c]|];
    destruct (lookup_node w3' (parent (child F "summary.json"))) as [[|c']|];
    cbn [fst snd fs];
    first [ by (split; [done | split; [intros p _; by rewrite Hfs | exact Hsame]])
          | by (split; [done | exact Hwritten]) ].
Qed.

End Runs.

(** ** What a successful unit leaves behind *)

Lemma write_file_inv (p : path) (c : content) (w w' : world) :
  write_file p c w = (ok tt, w') ->
  w' = World (<[p := File c]> (fs w)) (trace w ++ [EvWrite p]).
Proof.
  unfold write_file.
  destruct (lookup_node w p) as [[|c']|];
    destruct (lookup_node w (parent p)) as [[|c'']|]; try done;
    by intros [= <-].
Qed.

Lemma string_app_inj_r (s1 s2 t : string) : s1 +:+ t = s2 +:+ t -> s1 = s2.
Proof.
  revert s2. induction s1 as [|c s1 IH]; intros [|c' s2] H.
  - done.
  - apply (f_equal String.length) in H.
    change (String c' s2 +:+ t) with (String c' (s2 +:+ t)) in H.
    change (EmptyString +:+ t) with t in H.
    simpl in H. rewrite length_append in H. lia.
  - apply (f_equal String.length) in H.
    change (String c s1 +:+ t) with (String c (s1 +:+ t)) in H.
    change (EmptyString +:+ t) with t in H.
    simpl in H. rewrite length_append in H. lia.
  - change (String c s1 +:+ t) with (String c (s1 +:+ t)) in H.
    change (String c' s2 +:+ t) with (String c' (s2 +:+ t)) in H.
    injection H as -> H. f_equal. by apply IH.
Qed.

(** The close-ups of different reversals have different names. *)
Lemma closeup_name_inj (a b : nat) :
  "reversal" +:+ pretty (a + 1)%nat +:+ "_dot_product.png"
  = "reversal" +:+ pretty (b + 1)%nat +:+ "_dot_product.png" ->
  a = b.
Proof.
  intros H. apply (inj (String.app "reversal")) in H.
  apply string_app_inj_r in H. apply (inj pretty) in H. lia.
Qed.

Lemma closeup_name_ne (k : nat) (x : string) :
  String.prefix "reversal" x = false ->
  "reversal" +:+ pretty (k + 1)%nat +:+ "_dot_product.png" <> x.
Proof. intros Hx <-. by rewrite prefix_app in Hx. Qed.

Lemma plot_reversal_closeup_inv (td : track_data) (k : nat) (p : path)
    (w w1 : world) :
  plot_reversal_closeup td (Z.of_nat k) p w = (ok tt, w1) ->
  (forall q, q <> p -> fs w1 !! q = fs w !! q)
  /\ (forall rev, reversals td !! k = Some rev ->
        fs w1 !! p
        = Some (File (Png (Closeup (closeup_figure td (Z.of_nat k) rev))))).
Proof.
  destruct (Z.of_nat (length (reversals td)) <=? Z.of_nat k) eqn:Hguard.
  - unfold plot_reversal_closeup. rewrite Hguard. intros [= <-].
    split; [done |]. intros rev Hrev.
    apply lookup_lt_Some in Hrev. apply Z.leb_le in Hguard. lia.
  - pose proof Hguard as Hlt. apply Z.leb_gt in Hlt.
    destruct (lookup_lt_is_Some_2 (reversals td) k) as [rev Hrev]; [lia |].
    rewrite (plot_reversal_closeup_step td (Z.of_nat k) p w rev Hguard).
    + cbv zeta. destruct (rbind _ _) as [e|[]]; [done |]. unfold savefig.
      intros Hw. apply write_file_inv in Hw as ->. cbn [fs]. split.
      * intros q Hq. by apply lookup_insert_ne.
      * intros rev' Hrev'. rewrite Hrev in Hrev'. injection Hrev' as <-.
        by rewrite lookup_insert_eq.
    + unfold list_index. rewrite py_index_nonneg, Nat2Z.id by lia.
      by rewrite Hrev.
Qed.

Lemma closeups_written (td : track_data) (path_of : nat -> path)
    (l : list nat) (w w' : world) :
  (forall a b, path_of a = path_of b -> a = b) ->
  NoDup l ->
  mfor l (fun r_idx => plot_reversal_closeup td (Z.of_nat r_idx) (path_of r_idx))
    w = (ok tt, w') ->
  (forall k rev, k ∈ l -> reversals td !! k = Some rev ->
     fs w' !! path_of k
     = Some (File (Png (Closeup (closeup_figure td (Z.of_nat k) rev)))))
  /\ (forall p, (forall k, k ∈ l -> p <> path_of k) -> fs w' !! p = fs w !! p).
Proof.
  intros Hinj Hnodup. revert w.
  induction Hnodup as [|a l Ha Hnodup IH]; intros w Hrun.
  - injection Hrun as <-. split; [| done]. intros k rev Hk.
    by apply elem_of_nil in Hk.
  - cbn [mfor] in Hrun. apply mbind_inr in Hrun as ([] & w1 & Hstep & Hrun).
    apply plot_reversal_closeup_inv in Hstep as [Hframe Hfile].
    destruct (IH w1 Hrun) as [IHfile IHframe]. split.
    + intros k rev Hk Hrev. apply elem_of_cons in Hk as [-> | Hk].
      * rewrite IHframe; [by apply Hfile |].
        intros k Hk Heq. apply Hinj in Heq. by subst.
      * by apply IHfile.
    + intros p Hp. rewrite IHframe.
      * apply Hframe, Hp. by left.
      * intros k Hk. apply Hp. by right.
Qed.

Section Success.

Variable np_sqrt : Q -> Q.

(** After the body of a unit ran to its end, the directory of the track
    stands under the output root and holds the time-series figure and
    the trajectory of the loaded track and one close-up for each of its
    reversals, numbered from 1 in the order of the reversals. *)
Lemma process_body_figures (n : Z) (d F : path) (w w' : world)
    (data : track_data) :
  process_body np_sqrt n d F w = (inr data, w') ->
  let dir := child F (track_name n) in
  length (SpeedRunVel data) = length (times data)
  /\ is_dir w' dir = true
  /\ fs w' !! child dir "dot_product.png"
     = Some (File (Png (DotProduct (dot_product_figure data))))
  /\ (exists fig,
        trajectory_figure np_sqrt data = ok fig
        /\ fs w' !! child dir "trajectory.png"
           = Some (File (Png (Trajectory fig))))
  /\ (forall k rev,
        reversals data !! k = Some rev ->
        fs w' !! child dir
                   ("reversal" +:+ pretty (k + 1)%nat +:+ "_dot_product.png")
        = Some (File (Png (Closeup (closeup_figure data (Z.of_nat k) rev))))).
Proof.
  intros H. cbv zeta. unfold process_body in H. fold (track_name n) in H.
  set (dir := child F (track_name n)) in *.
  apply mbind_inr in H as (data0 & w0 & _ & H).
  apply mbind_inr in H as ([] & w1 & Hmk & H).
  apply mbind_inr in H as ([] & w2 & Hdot & H).
  apply mbind_inr in H as ([] & w3 & Htraj & H).
  apply mbind_inr in H as ([] & w4 & Hcu & H).
  injection H as <- <-.
  apply mkdir_exist_ok_is_dir in Hmk.
  unfold plot_dot_product in Hdot.
  apply mbind_inr in Hdot as ([] & w1' & Hplot & Hdot).
  injection Hplot as Hplot <-. apply write_file_inv in Hdot.
  assert (Hlen : length (SpeedRunVel data0) = length (times data0)).
  { unfold ax_plot in Hplot.
    destruct (Nat.eqb_spec (length (times data0)) (length (SpeedRunVel data0)));
      [done | discriminate Hplot]. }
  unfold plot_trajectory in Htraj.
  apply mbind_inr in Htraj as (fig & w2' & Hfig & Htraj).
  injection Hfig as Hfig <-. apply write_file_inv in Htraj.
  apply (closeups_written data0
           (fun k => child dir
                       ("reversal" +:+ pretty (k + 1)%nat +:+ "_dot_product.png")))
    in Hcu as [Hfiles Hframe];
    [| intros a b Hab; apply child_inj in Hab as [_ Hab];
       by apply closeup_name_inj in Hab
     | apply NoDup_seq].
  assert (Hdir_ne : forall x, dir <> child dir x)
    by (intros x Hx; symmetry in Hx; by apply child_ne in Hx).
  assert (Hother : forall x k,
            String.prefix "reversal" x = false ->
            child dir x
            <> child dir
                 ("reversal" +:+ pretty (k + 1)%nat +:+ "_dot_product.png")).
  { intros x k Hx Heq. apply child_inj in Heq as [_ Heq].
    symmetry in Heq. by apply closeup_name_ne in Heq. }
  subst w2 w3. cbn [fs] in *. split; [exact Hlen |]. repeat split.
  - unfold is_dir in *. unfold dir in *. rewrite lookup_node_child in *.
    rewrite Hframe by (intros k _; apply Hdir_ne).
    rewrite !lookup_insert_ne by apply child_ne.
    exact Hmk.
  - rewrite Hframe by (intros k _; by apply Hother).
    rewrite lookup_insert_ne
      by (intros Hx; by apply child_inj in Hx as [_ Hx]).
    by rewrite lookup_insert_eq.
  - exists fig. split; [done |].
    rewrite Hframe by (intros k _; by apply Hother).
    by rewrite lookup_insert_eq.
  - intros k rev Hrev. apply Hfiles; [| done].
    apply elem_of_seq. apply lookup_lt_Some in Hrev. lia.
Qed.

(** An outcome with the status [success] says that the data of the track
    were loaded, that the outcome counts the reversals of the loaded
    track, and that all its figures are in place: the time-series figure,
    the trajectory and one close-up per reversal, in the directory of the
    track under the output root. *)
Theorem success_means_all_figures (n : Z) (R F : path) (w : world) :
  let r := process_single_track np_sqrt (n, R, F) w in
  let dir := child F (track_name n) in
  o_status r.1 = success ->
  exists data,
    (load_track_data (child R (track_name n)) w).1 = ok data
    /\ o_reversals r.1 = length (reversals data)
    /\ length (SpeedRunVel data) = length (times data)
    /\ is_dir r.2 dir = true
    /\ fs r.2 !! child dir "dot_product.png"
       = Some (File (Png (DotProduct (dot_product_figure data))))
    /\ (exists fig,
          trajectory_figure np_sqrt data = ok fig
          /\ fs r.2 !! child dir "trajectory.png"
             = Some (File (Png (Trajectory fig))))
    /\ (forall k rev,
          reversals data !! k = Some rev ->
          fs r.2 !! child dir
                      ("reversal" +:+ pretty (k + 1)%nat +:+ "_dot_product.png")
          = Some (File (Png (Closeup (closeup_figure data (Z.of_nat k) rev))))).
Proof.
  cbv zeta. unfold process_single_track. fold (track_name n).
  destruct (negb _); [done |].
  destruct (process_body np_sqrt n (child R (track_name n)) F w)
    as [[e|data] w'] eqn:Hbody; [done |].
  intros _. exists data. cbn [fst snd o_reversals].
  destruct (process_body_loads np_sqrt _ _ _ _ _ _ Hbody) as [w0 Hload].
  rewrite Hload. split; [done |]. split; [done |].
  exact (process_body_figures n _ F w w' data Hbody).
Qed.

Lemma load_track_data_world (d : path) (w : world) :
  (load_track_data d w).2 = World (fs w) (trace w ++ [EvLoad d]).
Proof.
  unfold load_track_data, mbind, emit. cbn [fst snd].
  destruct (negb _); [done |].
  by destruct (lookup_node _ _) as [[|[]]|].
Qed.

Lemma process_body_mismatched (n : Z) (d F : path) (w : world)
    (data : track_data) :
  (load_track_data d w).1 = ok data ->
  length (SpeedRunVel data) <> length (times data) ->
  exists e w',
    process_body np_sqrt n d F w = (inl e, w')
    /\ (forall p, p <> child F (track_name n) -> fs w' !! p = fs w !! p)
    /\ exists evs,
         trace w' = trace w ++ evs
         /\ Forall (fun ev => ev = EvLoad d
                              \/ ev = EvMkdir (child F (track_name n))) evs.
Proof.
  intros Hload Hlen. unfold process_body. fold (track_name n).
  unfold mbind at 1.
  pose proof (load_track_data_world d w) as Hw0.
  destruct (load_track_data d w) as [r0 w0].
  cbn [fst snd] in Hload, Hw0. subst r0 w0. unfold ok.
  pose proof (confined_mkdir_exist_ok
                (fun p => p = child F (track_name n))
                (fun ev => ev = EvMkdir (child F (track_name n)))
                (child F (track_name n)) eq_refl eq_refl
                (World (fs w) (trace w ++ [EvLoad d])))
    as (Hfs & evs & Htr & Hevs).
  assert (Hall : Forall (fun ev => ev = EvLoad d
                                   \/ ev = EvMkdir (child F (track_name n)))
                   (EvLoad d :: evs)).
  { constructor; [by left |].
    eapply Forall_impl; [exact Hevs |]. intros ev ->. by right. }
  unfold mbind at 1.
  destruct (mkdir_exist_ok (child F (track_name n)) _) as [[e|[]] w1];
    cbn [fst snd fs trace] in *.
  - exists e, w1. split; [done |]. split; [exact Hfs |].
    exists (EvLoad d :: evs). split; [by rewrite Htr, <- app_assoc | done].
  - unfold plot_dot_product, mbind, lift, ax_plot.
    destruct (Nat.eqb_spec (length (times data)) (length (SpeedRunVel data)));
      [congruence |].
    eexists _, w1. split; [done |]. split; [exact Hfs |].
    exists (EvLoad d :: evs). split; [by rewrite Htr, <- app_assoc | done].
Qed.

(** A track whose signal and time series differ in length cannot be
    plotted: the unit returns the status [error] with no reversals, and
    it writes no figure; all it leaves behind is the directory of the
    track under the output root, if that could be created. *)
Theorem mismatched_series_is_error (n : Z) (R F : path) (w : world)
    (data : track_data) :
  path_exists w (child R (track_name n)) = true ->
  (load_track_data (child R (track_name n)) w).1 = ok data ->
  length (SpeedRunVel data) <> length (times data) ->
  let r := process_single_track np_sqrt (n, R, F) w in
  o_status r.1 = error
  /\ o_reversals r.1 = 0%nat
  /\ (forall p, p <> child F (track_name n) -> fs r.2 !! p = fs w !! p)
  /\ exists evs,
       trace r.2 = trace w ++ evs
       /\ Forall (fun ev => ev = EvLoad (child R (track_name n))
                            \/ ev = EvMkdir (child F (track_name n))) evs.
Proof.
  intros Hdir Hload Hlen. cbv zeta.
  destruct (process_body_mismatched n (child R (track_name n)) F w data
              Hload Hlen) as (e & w' & Hbody & Hfs & Hevs).
  unfold process_single_track. fold (track_name n). rewrite Hdir, Hbody.
  done.
Qed.

End Success.

Lemma success_means_all_figures_witness :
  exists data,
    o_reversals (process_single_track approx_sqrt (7, ["res"], ["fig"])%string
                   demo_world).1 = length (reversals data)
    /\ is_dir (process_single_track approx_sqrt (7, ["res"], ["fig"])%string
                 demo_world).2 (child ["fig"%string] (track_name 7)) = true.
Proof.
  pose proof (success_means_all_figures approx_sqrt 7 ["res"%string]
                ["fig"%string] demo_world) as H.
  cbv zeta in H.
  assert (Hs : o_status (process_single_track approx_sqrt
                           (7, ["res"], ["fig"])%string demo_world).1 = success)
    by (vm_compute; reflexivity).
  destruct (H Hs) as (data & _ & Hrevs & _ & Hdir & _).
  exists data. split; [exact Hrevs | exact Hdir].
Defined.

(** ** Concrete runs, once more *)

Lemma rev_dict_of_fields_witness :
  exists e,
    rev_dict_of {[ "start_idx"%string := AttrArray [] ]} = inl e
    /\ exn_type e = IndexError.
Proof.
  apply (proj2 (proj2 (rev_dict_of_fields
                         {[ "start_idx"%string := AttrArray [] ]}))
           "start_idx"%string).
  apply lookup_singleton_eq.
Defined.


Lemma generate_all_figures_confined_witness :
  fs (generate_all_figures approx_sqrt ["res"] ["fig"]%string (Some [7; 8])
        [Completion 1 true; Completion 0 true] demo_world).2
    !! (["res"; "track7"; "track_data.h5"]%string)
  = fs demo_world !! (["res"; "track7"; "track_data.h5"]%string).
Proof.
  apply (proj1 (generate_all_figures_confined approx_sqrt ["res"] ["fig"]
                  (Some [7; 8]) [Completion 1 true; Completion 0 true]
                  demo_world))%string.
  - intros [k Hk]. discriminate Hk.
  - intros [k Hk]. discriminate Hk.
Defined.

Lemma completion_order_shows_in_summary_only_witness :
  (generate_all_figures approx_sqrt ["res"] ["fig"]%string (Some [7; 8])
     [Completion 1 true; Completion 0 true] demo_world).1
  = (generate_all_figures approx_sqrt ["res"] ["fig"]%string (Some [7; 8])
       [Completion 0 true; Completion 1 true] demo_world).1.
Proof.
  apply (proj1 (completion_order_shows_in_summary_only approx_sqrt
                  ["res"] ["fig"] (Some [7; 8])
                  [Completion 1 true; Completion 0 true]
                  [Completion 0 true; Completion 1 true] demo_world
                  (perm_swap _ _ _)))%string.
Defined.

Lemma mismatched_series_is_error_witness :
  o_status (process_single_track approx_sqrt (5, ["res"], ["fig"])%string
              world_stray).1 = error.
Proof.
  pose proof (mismatched_series_is_error approx_sqrt 5 ["res"%string]
                ["fig"%string] world_stray
                (TrackData 5 [1; -2; -3; -4]%Q [0; 1; 2; 3; 4]%Q
                   [0; 3; 3]%Q [0; 4; 4]%Q [0; 1; 2]%Q "unknown" 0.01 []))
    as H.
  cbv zeta in H. apply H.
  - vm_compute. reflexivity.
  - vm_compute. reflexivity.
  - simpl. lia.
Defined.

